(** * P2P money-match arena: match engine, provably-fair commitment and wallet ledger

    A shallow embedding of the TypeScript sources

    - [packages/game-server/src/physics/engine.ts] ([PhysicsEngine] and the
      game server's [Match] class),
    - the wallet service ([WalletService]) and the provably-fair service
      ([ProvablyFairService]),
    - [packages/server/src/services/lobby.service.ts] ([LobbyService]),
    - the SQL schema of the tables [wallets], [wallet_tx], [lobbies] and
      [lobby_players],
    - [packages/server/src/services/settlement.service.ts]
      ([SettlementService]) with the tables [matches] and [match_players],

    followed by the properties of the specification checked against them and
    by further properties of the code.

    Number model.  A JavaScript [number] that holds money (cents), a counter
    or an RNG state is an integer below 2^53 and is modelled as [Z]; the
    32-bit conversions of the bit operators are written out.  A [number] that
    holds a mass, a radius, a position or a time step is modelled as an exact
    rational [Q]: the simulation is followed without binary64 rounding.  The
    two places where a property compares a computed number with an exact
    bound, the size test of [canEat] and the floors of the payouts, are given
    a second time on IEEE 754 doubles (module [Binary64]).  [Math.sqrt],
    [Math.cos], [Math.sin], [Math.atan2] and [Math.PI] are parameters
    (class [JSMath]).  [Date.now()], [Math.random()] and [uuidv4()] are read
    from an explicit ambient record. *)

From Stdlib Require Import ZArith QArith Qround Qminmax List Bool String Ascii Lia Lqa.
From Stdlib Require Import Floats.
From Stdlib Require Import Uint63.
From Stdlib Require Import Sorted Permutation DecimalString.
Import ListNotations.

Set Warnings "-inexact-float".

Local Open Scope Z_scope.

(* ================================================================== *)
(** * SHA-256 (FIPS 180-4), the digest behind [createHash('sha256')]  *)
(* ================================================================== *)

Module Sha256.

(** Words are 32 bits wide and kept in machine integers; every operation
    that can carry out of 32 bits is followed by the mask. *)
Definition word : Set := PrimInt63.int.

Definition mask32 : word := 4294967295%uint63.

Definition w32 (x : word) : word := PrimInt63.land x mask32.

Definition add32 (x y : word) : word := w32 (PrimInt63.add x y).

Definition rotr (n : word) (x : word) : word :=
  PrimInt63.lor (PrimInt63.lsr x n) (w32 (PrimInt63.lsl x (PrimInt63.sub 32%uint63 n))).

Definition not32 (x : word) : word := PrimInt63.lxor x mask32.

Definition xor3 (a b c : word) : word := PrimInt63.lxor (PrimInt63.lxor a b) c.

Definition Ch (x y z : word) : word :=
  PrimInt63.lxor (PrimInt63.land x y) (PrimInt63.land (not32 x) z).

Definition Maj (x y z : word) : word :=
  xor3 (PrimInt63.land x y) (PrimInt63.land x z) (PrimInt63.land y z).

Definition Sigma0 (x : word) : word :=
  xor3 (rotr 2%uint63 x) (rotr 13%uint63 x) (rotr 22%uint63 x).
Definition Sigma1 (x : word) : word :=
  xor3 (rotr 6%uint63 x) (rotr 11%uint63 x) (rotr 25%uint63 x).
Definition sigma0 (x : word) : word :=
  xor3 (rotr 7%uint63 x) (rotr 18%uint63 x) (PrimInt63.lsr x 3%uint63).
Definition sigma1 (x : word) : word :=
  xor3 (rotr 17%uint63 x) (rotr 19%uint63 x) (PrimInt63.lsr x 10%uint63).

(** The first sixty-four primes. *)
Definition primes64 : list Z :=
  [2; 3; 5; 7; 11; 13; 17; 19; 23; 29; 31; 37; 41; 43; 47; 53;
   59; 61; 67; 71; 73; 79; 83; 89; 97; 101; 103; 107; 109; 113; 127; 131;
   137; 139; 149; 151; 157; 163; 167; 173; 179; 181; 191; 193; 197; 199; 211; 223;
   227; 229; 233; 239; 241; 251; 257; 263; 269; 271; 277; 281; 283; 293; 307; 311].

(** Integer cube root by bisection on the bits, most significant first. *)
Fixpoint icbrt_bits (bits : nat) (n acc : Z) : Z :=
  match bits with
  | O => acc
  | S b =>
      let cand := acc + Z.shiftl 1 (Z.of_nat b) in
      icbrt_bits b n (if cand * cand * cand <=? n then cand else acc)
  end.

Definition icbrt (n : Z) : Z := icbrt_bits 48 n 0.

(** Round constants: the first 32 bits of the fractional parts of the cube
    roots of the first sixty-four primes. *)
Definition K : list word :=
  Eval vm_compute in
    map (fun p => Uint63.of_Z (Z.land (icbrt (Z.shiftl p 96)) 4294967295)) primes64.

(** Initial hash value: the first 32 bits of the fractional parts of the
    square roots of the first eight primes. *)
Definition H0 : list word :=
  Eval vm_compute in
    map (fun p => Uint63.of_Z (Z.land (Z.sqrt (Z.shiftl p 64)) 4294967295))
        (firstn 8 primes64).

(** Big-endian encoding of [x] on [n] bytes. *)
Fixpoint be_bytes (n : nat) (x : Z) : list Z :=
  match n with
  | O => []
  | S m => Z.land (Z.shiftr x (8 * Z.of_nat m)) 255 :: be_bytes m x
  end.

(** Padding: a [1] bit, zeros up to 56 mod 64, then the bit length on 8 bytes. *)
Definition pad (msg : list Z) : list Z :=
  let len := Z.of_nat (List.length msg) in
  let zeros := Z.to_nat ((55 - len) mod 64) in
  msg ++ [128] ++ repeat 0 zeros ++ be_bytes 8 (8 * len).

Fixpoint words_of_bytes (bs : list Z) : list word :=
  match bs with
  | b0 :: b1 :: b2 :: b3 :: rest =>
      Uint63.of_Z (((b0 * 256 + b1) * 256 + b2) * 256 + b3) :: words_of_bytes rest
  | _ => []
  end.

(** Cut a word list into blocks of sixteen words. *)
Fixpoint blocks (fuel : nat) (ws : list word) : list (list word) :=
  match fuel with
  | O => []
  | S f =>
      match ws with
      | [] => []
      | _ => firstn 16 ws :: blocks f (skipn 16 ws)
      end
  end.

(** Message schedule: [w] holds W_0 .. W_(t-1); [n] more words are added. *)
Fixpoint schedule (n : nat) (t : nat) (w : list word) : list word :=
  match n with
  | O => w
  | S m =>
      let at_ (k : nat) := nth (t - k) w 0%uint63 in
      let wt := add32 (add32 (add32 (sigma1 (at_ 2%nat)) (at_ 7%nat))
                             (sigma0 (at_ 15%nat))) (at_ 16%nat) in
      schedule m (S t) (w ++ [wt])
  end.

Record regs : Type := mkRegs {
  ra : word; rb : word; rc : word; rd : word; re : word; rf : word; rg : word; rh : word
}.

Definition round (r : regs) (kw : word * word) : regs :=
  let t1 := add32 (add32 (add32 (add32 (rh r) (Sigma1 (re r)))
                                (Ch (re r) (rf r) (rg r))) (fst kw)) (snd kw) in
  let t2 := add32 (Sigma0 (ra r)) (Maj (ra r) (rb r) (rc r)) in
  mkRegs (add32 t1 t2) (ra r) (rb r) (rc r) (add32 (rd r) t1) (re r) (rf r) (rg r).

Definition regs_of (h : list word) : regs :=
  mkRegs (nth 0 h 0%uint63) (nth 1 h 0%uint63) (nth 2 h 0%uint63) (nth 3 h 0%uint63)
         (nth 4 h 0%uint63) (nth 5 h 0%uint63) (nth 6 h 0%uint63) (nth 7 h 0%uint63).

Definition compress (h : list word) (block : list word) : list word :=
  let w := schedule 48 16 block in
  let r := fold_left round (combine K w) (regs_of h) in
  let i := regs_of h in
  [add32 (ra i) (ra r); add32 (rb i) (rb r); add32 (rc i) (rc r); add32 (rd i) (rd r);
   add32 (re i) (re r); add32 (rf i) (rf r); add32 (rg i) (rg r); add32 (rh i) (rh r)].

(** The 32-byte digest of a byte string. *)
Definition digest (msg : list Z) : list Z :=
  let ws := words_of_bytes (pad msg) in
  let h := fold_left compress (blocks (List.length ws) ws) H0 in
  flat_map (fun x => be_bytes 4 (Uint63.to_Z x)) h.

End Sha256.

(* ================================================================== *)
(** * Strings, UTF-8 and hexadecimal                                   *)
(* ================================================================== *)

Module Enc.

Definition code (c : ascii) : Z := Z.of_N (N_of_ascii c).
Definition char (z : Z) : ascii := ascii_of_N (Z.to_N (z mod 256)).

(** UTF-8 bytes of a string whose characters are the code points 0..255, as
    [hash.update(str)] encodes them. *)
Fixpoint utf8 (s : string) : list Z :=
  match s with
  | EmptyString => []
  | String c rest =>
      let n := code c in
      if n <? 128 then n :: utf8 rest
      else Z.lor 192 (Z.shiftr n 6) :: Z.lor 128 (Z.land n 63) :: utf8 rest
  end.

Definition hex_digit (d : Z) : ascii :=
  if d <? 10 then char (48 + d) else char (87 + d).

(** [Buffer.toString('hex')] / [digest('hex')]: two lowercase digits per byte. *)
Fixpoint hex (bs : list Z) : string :=
  match bs with
  | [] => EmptyString
  | b :: rest => String (hex_digit (b / 16)) (String (hex_digit (b mod 16)) (hex rest))
  end.

Definition digit_val (c : ascii) : Z :=
  let n := code c in
  if (48 <=? n) && (n <=? 57) then n - 48
  else if (97 <=? n) && (n <=? 102) then n - 87
  else if (65 <=? n) && (n <=? 70) then n - 55
  else 0.

Fixpoint unhex (s : string) : list Z :=
  match s with
  | String h (String l rest) => (digit_val h * 16 + digit_val l) :: unhex rest
  | _ => []
  end.

(** Flip bit [i] of a byte string: bit [i mod 8] of byte [i / 8]. *)
Fixpoint flip_bit (bs : list Z) (i : nat) : list Z :=
  match bs with
  | [] => []
  | b :: rest =>
      if (i <? 8)%nat then Z.lxor b (Z.shiftl 1 (Z.of_nat i)) :: rest
      else b :: flip_bit rest (i - 8)
  end.

(** Flip bit [i] of the bytes a hex string stands for. *)
Definition flip_hex_bit (s : string) (i : nat) : string := hex (flip_bit (unhex s) i).

End Enc.

(* ================================================================== *)
(** * ProvablyFairService: commitment                                  *)
(* ================================================================== *)

Module ProvablyFairService.

(** [createCommit(seed, nonce)]:
    [createHash('sha256').update(seed + nonce).digest('hex')]. *)
Definition createCommit (seed nonce : string) : string :=
  Enc.hex (Sha256.digest (Enc.utf8 (seed ++ nonce))).

(** [verifyCommitment]: [computed === commit]. *)
Definition verifyCommitment (seed nonce commit : string) : bool :=
  String.eqb (createCommit seed nonce) commit.

End ProvablyFairService.

(* ================================================================== *)
(** * Shared types and constants ([packages/shared/src/types/index.ts]) *)
(* ================================================================== *)

Inductive GameMode : Type := SOLO | DUO | SQUAD.

Inductive PayoutModel : Type := WINNER_TAKE_ALL | TOP_3_LADDER | PROPORTIONAL.

Inductive LobbyState : Type :=
  WAITING | COUNTDOWN | ACTIVE | SUDDEN_SHRINK | SETTLEMENT | COMPLETED.

Inductive WalletTransactionType : Type :=
  DEPOSIT | WITHDRAWAL | ESCROW_LOCK | ESCROW_RELEASE | PAYOUT | RAKE | REFUND.

Inductive WalletTransactionStatus : Type :=
  TX_PENDING | TX_COMPLETED | TX_FAILED | TX_CANCELLED.

Definition LobbyState_eqb (a b : LobbyState) : bool :=
  match a, b with
  | WAITING, WAITING | COUNTDOWN, COUNTDOWN | ACTIVE, ACTIVE
  | SUDDEN_SHRINK, SUDDEN_SHRINK | SETTLEMENT, SETTLEMENT | COMPLETED, COMPLETED => true
  | _, _ => false
  end.

Definition TxType_eqb (a b : WalletTransactionType) : bool :=
  match a, b with
  | DEPOSIT, DEPOSIT | WITHDRAWAL, WITHDRAWAL | ESCROW_LOCK, ESCROW_LOCK
  | ESCROW_RELEASE, ESCROW_RELEASE | PAYOUT, PAYOUT | RAKE, RAKE | REFUND, REFUND => true
  | _, _ => false
  end.

Definition TxStatus_eqb (a b : WalletTransactionStatus) : bool :=
  match a, b with
  | TX_PENDING, TX_PENDING | TX_COMPLETED, TX_COMPLETED
  | TX_FAILED, TX_FAILED | TX_CANCELLED, TX_CANCELLED => true
  | _, _ => false
  end.

(** [GAME_CONFIG]. *)
Module GAME_CONFIG.
Definition TICK_RATE : Q := 30.
Definition MATCH_DURATION_MS : Z := 6 * 60 * 1000.
Definition NORMAL_PHASE_MS : Z := 270000.   (* 4.5 * 60 * 1000 *)
Definition SHRINK_PHASE_MS : Z := 90000.    (* 1.5 * 60 * 1000 *)
Definition BOOST_COOLDOWN_MS : Z := 6000.
Definition MASS_TO_RADIUS_K : Q := 1.0.
Definition COLLISION_SIZE_RATIO : Q := 1.15.
Definition GROWTH_CAP_MULTIPLIER : Q := 5.0.
Definition DEFAULT_RAKE_BPS : Z := 800.
Definition INITIAL_PLAYER_MASS : Q := 10.
Definition PELLET_MASS : Q := 1.
Definition MAX_VELOCITY : Q := 5.0.
Definition FRICTION : Q := 0.9.
End GAME_CONFIG.

Record Vector2D : Type := mkVec { x : Q; y : Q }.

(** [Player extends Circle]; [id] is the uuid drawn at creation. *)
Record Player : Type := mkPlayer {
  id : nat;
  userId : string;
  teamNo : Z;
  pos : Vector2D;
  radius : Q;
  mass : Q;
  velocity : Vector2D;
  inputAxes : Vector2D;
  boost : bool;
  lastBoostTime : Z;
  isDead : bool;
  kills : Z
}.

(** [Pellet extends Circle]. *)
Record Pellet : Type := mkPellet {
  pellet_id : nat;
  pellet_pos : Vector2D;
  pellet_radius : Q;
  pellet_mass : Q;
  consumed : bool
}.

(** The part of the JavaScript [Math] object the engine calls. *)
Class JSMath : Type := {
  Math_sqrt : Q -> Q;
  Math_cos : Q -> Q;
  Math_sin : Q -> Q;
  Math_atan2 : Q -> Q -> Q;
  Math_PI : Q
}.

(** Strict comparison [a < b] on numbers, as a boolean. *)
Definition Qltb (a b : Q) : bool := negb (Qle_bool b a).

(** [Math.min] and [Math.max] on two numbers. *)
Definition Math_min (a b : Q) : Q := if Qle_bool a b then a else b.
Definition Math_max (a b : Q) : Q := if Qle_bool a b then b else a.

(** In-place update of the object at index [i] of an array of objects. *)
Fixpoint upd {A : Type} (i : nat) (f : A -> A) (l : list A) {struct l} : list A :=
  match l, i with
  | [], _ => []
  | a :: l', O => f a :: l'
  | a :: l', S i' => a :: upd i' f l'
  end.

(* ================================================================== *)
(** * PhysicsEngine ([physics/engine.ts])                              *)
(* ================================================================== *)

Module PhysicsEngine.
Section WithMath.
Context {M : JSMath}.
Local Open Scope Q_scope.

Definition massToRadius (m : Q) : Q :=
  GAME_CONFIG.MASS_TO_RADIUS_K * Math_sqrt m.

(** For a mass of 0 the code divides by zero and obtains [Infinity]; the
    rational quotient is 0 there.  No property below reads the velocity. *)
Definition calculateMaxVelocity (m : Q) : Q :=
  let baseMass := GAME_CONFIG.INITIAL_PLAYER_MASS in
  let massRatio := m / baseMass in
  GAME_CONFIG.MAX_VELOCITY / Math_sqrt massRatio.

(** [updatePlayer(player, deltaTime)]; [now] is what [Date.now()] returns if
    the boost branch reads the clock. *)
Definition updatePlayer (player : Player) (deltaTime : Q) (now : Z) : Player :=
  if isDead player then player else
  let radius1 := massToRadius (mass player) in
  let maxVel := calculateMaxVelocity (mass player) in
  let acceleration := 2.0 in
  let vx := x (velocity player) + x (inputAxes player) * acceleration * deltaTime in
  let vy := y (velocity player) + y (inputAxes player) * acceleration * deltaTime in
  let vx := vx * GAME_CONFIG.FRICTION in
  let vy := vy * GAME_CONFIG.FRICTION in
  let speed := Math_sqrt (vx ^ 2 + vy ^ 2) in
  let clamp := Qltb maxVel speed in
  let vx := if clamp then (vx / speed) * maxVel else vx in
  let vy := if clamp then (vy / speed) * maxVel else vy in
  let fire := boost player &&
              (GAME_CONFIG.BOOST_COOLDOWN_MS <=? now - lastBoostTime player)%Z in
  let boostMultiplier := 2.0 in
  let vx := if fire then vx * boostMultiplier else vx in
  let vy := if fire then vy * boostMultiplier else vy in
  {| id := id player; userId := userId player; teamNo := teamNo player;
     pos := mkVec (x (pos player) + vx * deltaTime) (y (pos player) + vy * deltaTime);
     radius := radius1; mass := mass player;
     velocity := mkVec vx vy; inputAxes := inputAxes player;
     boost := false;
     lastBoostTime := if fire then now else lastBoostTime player;
     isDead := isDead player; kills := kills player |}.

Definition checkCollision (pos1 : Vector2D) (radius1 : Q)
                          (pos2 : Vector2D) (radius2 : Q) : bool :=
  let dx := x pos2 - x pos1 in
  let dy := y pos2 - y pos1 in
  let distance := Math_sqrt (dx * dx + dy * dy) in
  Qltb distance (radius1 + radius2).

(** The size test is taken here on exact rationals; [Binary64.canEat] is the
    test on the doubles the code holds.  The two differ where the rounded
    product differs from the exact one (radii 115 and 100). *)
Definition canEat (eater target : Player) : bool :=
  if isDead eater || isDead target then false
  else if (0 <? teamNo eater)%Z && (teamNo eater =? teamNo target)%Z then false
  else Qltb (radius target * GAME_CONFIG.COLLISION_SIZE_RATIO) (radius eater).

Definition set_eaten_mass (newMass : Q) (p : Player) : Player :=
  {| id := id p; userId := userId p; teamNo := teamNo p; pos := pos p;
     radius := radius p; mass := newMass; velocity := velocity p;
     inputAxes := inputAxes p; boost := boost p; lastBoostTime := lastBoostTime p;
     isDead := isDead p; kills := kills p + 1 |}.

Definition set_killed (p : Player) : Player :=
  {| id := id p; userId := userId p; teamNo := teamNo p; pos := pos p;
     radius := 0; mass := 0; velocity := velocity p;
     inputAxes := inputAxes p; boost := boost p; lastBoostTime := lastBoostTime p;
     isDead := true; kills := kills p |}.

(** [eatPlayer(eater, target, growthCap)].  The two arguments are references
    into the array [ps] of player objects; the writes go through [upd], in
    the order of the source. *)
Definition eatPlayer (ps : list Player) (eater target : nat) (growthCap : Q)
  : Q * list Player :=
  match nth_error ps eater, nth_error ps target with
  | Some e, Some t =>
      if negb (canEat e t) then (0, ps)
      else if negb (checkCollision (pos e) (radius e) (pos t) (radius t)) then (0, ps)
      else
        let massToTransfer := mass t in
        let newMass := Math_min (mass e + massToTransfer) growthCap in
        let actualGain := newMass - mass e in
        let ps1 := upd eater (set_eaten_mass newMass) ps in
        let ps2 := upd target set_killed ps1 in
        (actualGain, ps2)
  | _, _ => (0, ps)
  end.

Definition set_mass (m : Q) (p : Player) : Player :=
  {| id := id p; userId := userId p; teamNo := teamNo p; pos := pos p;
     radius := radius p; mass := m; velocity := velocity p;
     inputAxes := inputAxes p; boost := boost p; lastBoostTime := lastBoostTime p;
     isDead := isDead p; kills := kills p |}.

Definition set_consumed (q : Pellet) : Pellet :=
  {| pellet_id := pellet_id q; pellet_pos := pellet_pos q;
     pellet_radius := pellet_radius q; pellet_mass := pellet_mass q;
     consumed := true |}.

(** [eatPellet(player, pellet, growthCap)]: the result and both objects. *)
Definition eatPellet (player : Player) (pellet : Pellet) (growthCap : Q)
  : bool * Player * Pellet :=
  if isDead player || consumed pellet then (false, player, pellet)
  else if checkCollision (pos player) (radius player)
                         (pellet_pos pellet) (pellet_radius pellet) then
    let newMass := Math_min (mass player + GAME_CONFIG.PELLET_MASS) growthCap in
    (true, set_mass newMass player, set_consumed pellet)
  else (false, player, pellet).

Definition set_mass_dead (m : Q) (d : bool) (p : Player) : Player :=
  {| id := id p; userId := userId p; teamNo := teamNo p; pos := pos p;
     radius := radius p; mass := m; velocity := velocity p;
     inputAxes := inputAxes p; boost := boost p; lastBoostTime := lastBoostTime p;
     isDead := d; kills := kills p |}.

Definition applyFogDamage (player : Player) (fogRadius deltaTime : Q) : Player :=
  if isDead player then player else
  let distance := Math_sqrt (x (pos player) ^ 2 + y (pos player) ^ 2) in
  if Qltb fogRadius distance then
    let damageRate := 5.0 in
    let m := Math_max 0 (mass player - damageRate * deltaTime) in
    set_mass_dead m (if Qle_bool m 0 then true else isDead player) player
  else player.

Definition constrainToMap (player : Player) (mapRadius : Q) : Player :=
  let distance := Math_sqrt (x (pos player) ^ 2 + y (pos player) ^ 2) in
  if Qltb mapRadius distance then
    let angle := Math_atan2 (y (pos player)) (x (pos player)) in
    {| id := id player; userId := userId player; teamNo := teamNo player;
       pos := mkVec (Math_cos angle * mapRadius) (Math_sin angle * mapRadius);
       radius := radius player; mass := mass player;
       velocity := mkVec (x (velocity player) * -0.5) (y (velocity player) * -0.5);
       inputAxes := inputAxes player; boost := boost player;
       lastBoostTime := lastBoostTime player;
       isDead := isDead player; kills := kills player |}
  else player.

Definition distance (pos1 pos2 : Vector2D) : Q :=
  let dx := x pos2 - x pos1 in
  let dy := y pos2 - y pos1 in
  Math_sqrt (dx * dx + dy * dy).

Definition normalize (v : Vector2D) : Vector2D :=
  let length := Math_sqrt (x v * x v + y v * y v) in
  if Qeq_bool length 0 then mkVec 0 0
  else mkVec (x v / length) (y v / length).

End WithMath.
End PhysicsEngine.

(* ================================================================== *)
(** * The ambient runtime: clock, [Math.random] and [uuidv4]           *)
(* ================================================================== *)

(** What the process reads from outside the match: successive results of
    [Date.now()] and of [Math.random()], with the number of reads made so
    far, and the next fresh uuid. *)
Record World : Type := mkWorld {
  date_now : nat -> Z;
  now_reads : nat;
  math_random : nat -> Q;
  random_reads : nat;
  uuid_next : nat
}.

Definition Date_now (w : World) : Z * World :=
  (date_now w (now_reads w),
   mkWorld (date_now w) (S (now_reads w)) (math_random w) (random_reads w) (uuid_next w)).

Definition Math_random (w : World) : Q * World :=
  (math_random w (random_reads w),
   mkWorld (date_now w) (now_reads w) (math_random w) (S (random_reads w)) (uuid_next w)).

Definition uuidv4 (w : World) : nat * World :=
  (uuid_next w,
   mkWorld (date_now w) (now_reads w) (math_random w) (random_reads w) (S (uuid_next w))).

(** [Map.prototype.set] on a map kept in insertion order. *)
Fixpoint map_set {A : Type} (key : A -> nat) (v : A) (l : list A) : list A :=
  match l with
  | [] => [v]
  | a :: rest => if (key a =? key v)%nat then v :: rest else a :: map_set key v rest
  end.

(** [ToInt32], the conversion behind [<<] and [| 0]. *)
Definition to_int32 (z : Z) : Z :=
  let m := z mod 4294967296 in
  if m <? 2147483648 then m else m - 4294967296.

(* ================================================================== *)
(** * Match (the game server's match class)                            *)
(* ================================================================== *)

Record MatchConfig : Type := mkConfig {
  matchId : string;
  lobbyId : string;
  mode : GameMode;
  buyInCents : Z;
  payoutModel : PayoutModel;
  rakeBps : Z;
  rakeCapCents : option Z;      (* [None] is the number [Infinity] *)
  seed : string;
  nonce : string;
  commit : string;
  mapRadius : Q;
  config_players : list (string * Z)   (* userId, teamNo *)
}.

Inductive WSEvent : Type :=
| EV_COUNTDOWN (seconds : Z)
| EV_KILL (killer victim : string)
| EV_SHRINK
| EV_END.

Record MatchResult : Type := mkResult {
  res_userId : string;
  placement : Z;
  finalMass : Q;
  maxMass : Q;
  payoutCents : Z
}.

Module Match.

Record t : Type := mkMatch {
  config : MatchConfig;
  state : LobbyState;
  tick : Z;
  startTime : Z;
  countdownStartTime : Z;
  players : list Player;        (* Map<string, Player>, insertion order *)
  pellets : list Pellet;        (* Map<string, Pellet>, insertion order *)
  fogRadius : Q;
  growthCap : Q;
  emitted : list WSEvent        (* what [emitEvent] handed to the callbacks *)
}.

Section WithMath.
Context {M : JSMath}.

Definition with_state (s : LobbyState) (m : t) : t :=
  mkMatch (config m) s (tick m) (startTime m) (countdownStartTime m)
          (players m) (pellets m) (fogRadius m) (growthCap m) (emitted m).

Definition with_tick (v : Z) (m : t) : t :=
  mkMatch (config m) (state m) v (startTime m) (countdownStartTime m)
          (players m) (pellets m) (fogRadius m) (growthCap m) (emitted m).

Definition with_startTime (v : Z) (m : t) : t :=
  mkMatch (config m) (state m) (tick m) v (countdownStartTime m)
          (players m) (pellets m) (fogRadius m) (growthCap m) (emitted m).

Definition with_countdownStartTime (v : Z) (m : t) : t :=
  mkMatch (config m) (state m) (tick m) (startTime m) v
          (players m) (pellets m) (fogRadius m) (growthCap m) (emitted m).

Definition with_players (ps : list Player) (m : t) : t :=
  mkMatch (config m) (state m) (tick m) (startTime m) (countdownStartTime m)
          ps (pellets m) (fogRadius m) (growthCap m) (emitted m).

Definition with_pellets (qs : list Pellet) (m : t) : t :=
  mkMatch (config m) (state m) (tick m) (startTime m) (countdownStartTime m)
          (players m) qs (fogRadius m) (growthCap m) (emitted m).

Definition with_fogRadius (r : Q) (m : t) : t :=
  mkMatch (config m) (state m) (tick m) (startTime m) (countdownStartTime m)
          (players m) (pellets m) r (growthCap m) (emitted m).

Definition emitEvent (e : WSEvent) (m : t) : t :=
  mkMatch (config m) (state m) (tick m) (startTime m) (countdownStartTime m)
          (players m) (pellets m) (fogRadius m) (growthCap m) (emitted m ++ [e]).

(** [seedToNumber]: the 32-bit string hash, then [Math.abs]. *)
Fixpoint seedHash (s : string) (hash : Z) : Z :=
  match s with
  | EmptyString => hash
  | String c rest =>
      seedHash rest (to_int32 (to_int32 (Z.shiftl (to_int32 hash) 5) - hash + Enc.code c))
  end.

Definition seedToNumber (s : string) : Z := Z.abs (seedHash s 0).

(** [createSeededRNG()]: the closure's variable [state], initially. *)
Definition createSeededRNG (cfg : MatchConfig) : Z := seedToNumber (seed cfg).

(** One call of the closure: the number returned and the new [state]. *)
Definition rng (st : Z) : Q * Z :=
  let st' := Z.rem (st * 1664525 + 1013904223) 4294967296 in
  (Qmake st' 4294967296, st').

Definition randomPointInCircle (st : Z) (r0 : Q) : Vector2D * Z :=
  let '(u1, st1) := rng st in
  let angle := (u1 * Math_PI * 2)%Q in
  let '(u2, st2) := rng st1 in
  let r := (Math_sqrt u2 * r0)%Q in
  (mkVec (Math_cos angle * r)%Q (Math_sin angle * r)%Q, st2).

(** The loop of [initializePlayers], threading the RNG state and the uuids. *)
Fixpoint spawn_players (cfg : MatchConfig) (l : list (string * Z)) (st : Z)
                       (ps : list Player) (w : World) : list Player * World :=
  match l with
  | [] => (ps, w)
  | (uid, team) :: rest =>
      let '(spawnPos, st') := randomPointInCircle st (mapRadius cfg * 0.7)%Q in
      let '(pid, w') := uuidv4 w in
      let player :=
        {| id := pid; userId := uid; teamNo := team; pos := spawnPos;
           radius := PhysicsEngine.massToRadius GAME_CONFIG.INITIAL_PLAYER_MASS;
           mass := GAME_CONFIG.INITIAL_PLAYER_MASS;
           velocity := mkVec 0 0; inputAxes := mkVec 0 0;
           boost := false; lastBoostTime := 0; isDead := false; kills := 0 |} in
      spawn_players cfg rest st' (map_set id player ps) w'
  end.

Definition initializePlayers (m : t) (w : World) : t * World :=
  let st := createSeededRNG (config m) in
  let '(ps, w') := spawn_players (config m) (config_players (config m)) st (players m) w in
  (with_players ps m, w').

(** [spawnPellet(rng)]: the match, the RNG state and the world afterwards. *)
Definition spawnPellet (m : t) (st : Z) (w : World) : t * Z * World :=
  let '(p, st') := randomPointInCircle st (mapRadius (config m)) in
  let '(pid, w') := uuidv4 w in
  let pellet :=
    {| pellet_id := pid; pellet_pos := p;
       pellet_radius := PhysicsEngine.massToRadius GAME_CONFIG.PELLET_MASS;
       pellet_mass := GAME_CONFIG.PELLET_MASS; consumed := false |} in
  (with_pellets (map_set pellet_id pellet (pellets m)) m, st', w').

Fixpoint spawn_pellets (n : nat) (m : t) (st : Z) (w : World) : t * Z * World :=
  match n with
  | O => (m, st, w)
  | S k => let '(m', st', w') := spawnPellet m st w in spawn_pellets k m' st' w'
  end.

Definition initializePellets (m : t) (w : World) : t * World :=
  let st := createSeededRNG (config m) in
  let pelletCount := 500%nat in
  let '(m', _, w') := spawn_pellets pelletCount m st w in
  (m', w').

(** [new Match(config)]. *)
Definition new_Match (cfg : MatchConfig) (w : World) : t * World :=
  let m0 :=
    {| config := cfg; state := COUNTDOWN; tick := 0; startTime := 0;
       countdownStartTime := 0; players := []; pellets := [];
       fogRadius := mapRadius cfg;
       growthCap := (inject_Z (buyInCents cfg) * GAME_CONFIG.GROWTH_CAP_MULTIPLIER)%Q;
       emitted := [] |} in
  let '(m1, w1) := initializePlayers m0 w in
  initializePellets m1 w1.

Definition startCountdown (m : t) (w : World) : t * World :=
  let '(now, w') := Date_now w in
  (emitEvent (EV_COUNTDOWN 10) (with_countdownStartTime now (with_state COUNTDOWN m)), w').

Definition startMatch (m : t) (w : World) : t * World :=
  let '(now, w') := Date_now w in
  (with_startTime now (with_state ACTIVE m), w').

Definition set_input (axes : Vector2D) (b : bool) (p : Player) : Player :=
  {| id := id p; userId := userId p; teamNo := teamNo p; pos := pos p;
     radius := radius p; mass := mass p; velocity := velocity p;
     inputAxes := axes; boost := b; lastBoostTime := lastBoostTime p;
     isDead := isDead p; kills := kills p |}.

Definition updatePlayerInput (m : t) (playerId : nat) (axes : Vector2D) (b : bool)
  : t :=
  with_players
    (map (fun p => if (id p =? playerId)%nat then set_input axes b p else p) (players m)) m.

Definition endMatch (m : t) : t := emitEvent EV_END (with_state SETTLEMENT m).

(** The loop "update all players" of [update]: [updatePlayer] reads the
    clock only for a live player whose boost flag is set. *)
Fixpoint update_players (m : t) (deltaTime : Q) (ps : list Player) (w : World)
  : list Player * World :=
  match ps with
  | [] => ([], w)
  | player :: rest =>
      let '(now, w1) :=
        if negb (isDead player) && boost player then Date_now w else (0, w) in
      let p1 := PhysicsEngine.updatePlayer player deltaTime now in
      let p2 := PhysicsEngine.constrainToMap p1 (mapRadius (config m)) in
      let p3 := if LobbyState_eqb (state m) SUDDEN_SHRINK
                then PhysicsEngine.applyFogDamage p2 (fogRadius m) deltaTime
                else p2 in
      let '(rest', w2) := update_players m deltaTime rest w1 in
      (p3 :: rest', w2)
  end.

(** The index pairs [i < j] below [n], in the order of the two nested loops. *)
Definition index_pairs (n : nat) : list (nat * nat) :=
  flat_map (fun i => map (pair i) (seq (S i) (n - S i))) (seq 0 n).

(** The body of the player-versus-player loop for [p1 = playerArray[i]] and
    [p2 = playerArray[j]]. *)
Definition collide (m : t) (ij : nat * nat) : t :=
  let '(i, j) := ij in
  match nth_error (players m) i, nth_error (players m) j with
  | Some p1, Some p2 =>
      if PhysicsEngine.canEat p1 p2 then
        let '(massGained, ps) := PhysicsEngine.eatPlayer (players m) i j (growthCap m) in
        let m' := with_players ps m in
        if Qltb 0 massGained then emitEvent (EV_KILL (userId p1) (userId p2)) m' else m'
      else if PhysicsEngine.canEat p2 p1 then
        let '(massGained, ps) := PhysicsEngine.eatPlayer (players m) j i (growthCap m) in
        let m' := with_players ps m in
        if Qltb 0 massGained then emitEvent (EV_KILL (userId p2) (userId p1)) m' else m'
      else m
  | _, _ => m
  end.

(** One player against every pellet still in the map; an eaten pellet is
    deleted from the map. *)
Fixpoint eat_pellets (player : Player) (qs : list Pellet) (cap : Q)
  : Player * list Pellet :=
  match qs with
  | [] => (player, [])
  | pellet :: rest =>
      let '(eaten, player', pellet') := PhysicsEngine.eatPellet player pellet cap in
      let '(player'', rest') := eat_pellets player' rest cap in
      (player'', if eaten then rest' else pellet' :: rest')
  end.

Fixpoint players_eat_pellets (ps : list Player) (qs : list Pellet) (cap : Q)
  : list Player * list Pellet :=
  match ps with
  | [] => ([], qs)
  | player :: rest =>
      let '(player', qs') := eat_pellets player qs cap in
      let '(rest', qs'') := players_eat_pellets rest qs' cap in
      (player' :: rest', qs'')
  end.

(** "Spawn new pellets (tapered during shrink)": the last statement of
    [update]. *)
Definition respawn (m : t) (w : World) : t * World :=
  let '(enter, w1) :=
    if LobbyState_eqb (state m) ACTIVE then (true, w)
    else let '(r, w') := Math_random w in (Qltb 0.5 r, w') in
  if enter then
    if (List.length (pellets m) <? 500)%nat then
      let '(r, w2) := Math_random w1 in
      if Qltb r 0.1 then
        let st := createSeededRNG (config m) in
        let '(m', _, w3) := spawnPellet m st w2 in
        (m', w3)
      else (m, w2)
    else (m, w1)
  else (m, w1).

(** The physics part of [update], after the state transitions. *)
Definition simulate (m : t) (w : World) : t * World :=
  let deltaTime := (1 / GAME_CONFIG.TICK_RATE)%Q in
  let '(ps, w1) := update_players m deltaTime (players m) w in
  let m1 := with_players ps m in
  let m2 := fold_left collide (index_pairs (List.length (players m1))) m1 in
  let '(ps', qs') := players_eat_pellets (players m2) (pellets m2) (growthCap m2) in
  let m3 := with_pellets qs' (with_players ps' m2) in
  respawn m3 w1.

(** [update()]: one tick. *)
Definition update (m : t) (w : World) : t * World :=
  let m := with_tick (tick m + 1) m in
  let '(now, w) := Date_now w in
  if LobbyState_eqb (state m) COUNTDOWN then
    if 10000 <=? now - countdownStartTime m then startMatch m w
    else (m, w)
  else
    let m :=
      if LobbyState_eqb (state m) ACTIVE then
        let elapsed := now - startTime m in
        if GAME_CONFIG.NORMAL_PHASE_MS <=? elapsed
        then emitEvent EV_SHRINK (with_state SUDDEN_SHRINK m)
        else m
      else m in
    if LobbyState_eqb (state m) SUDDEN_SHRINK then
      let elapsed := now - startTime m in
      if GAME_CONFIG.MATCH_DURATION_MS <=? elapsed then (endMatch m, w)
      else
        let shrinkProgress :=
          (inject_Z (elapsed - GAME_CONFIG.NORMAL_PHASE_MS)
           / inject_Z GAME_CONFIG.SHRINK_PHASE_MS)%Q in
        simulate (with_fogRadius (mapRadius (config m) * (1 - shrinkProgress * 0.65))%Q m) w
    else simulate m w.

(** Stable insertion by the comparator [(a, b) => b.finalMass - a.finalMass]:
    [a] moves behind [b] only when the comparator is positive. *)
Fixpoint sort_insert (a : string * Q * Q) (l : list (string * Q * Q))
  : list (string * Q * Q) :=
  match l with
  | [] => [a]
  | b :: rest =>
      if Qltb 0 (snd (fst b) - snd (fst a))%Q then b :: sort_insert a rest
      else a :: l
  end.

(** [Array.prototype.sort] with that comparator (a stable sort). *)
Definition sort_by_mass (l : list (string * Q * Q)) : list (string * Q * Q) :=
  fold_right sort_insert [] l.

(** The pot and the rake of [calculateResults]. *)
Definition pot (m : t) : Z :=
  buyInCents (config m) * Z.of_nat (List.length (config_players (config m))).

Definition rake (m : t) : Z :=
  let r := (pot m * rakeBps (config m)) / 10000 in   (* Math.floor of the quotient *)
  match rakeCapCents (config m) with
  | Some cap => Z.min r cap
  | None => r
  end.

Definition netPot (m : t) : Z := pot m - rake m.

(** [array.map((_, i) => f(_, i))], from index [i] on. *)
Fixpoint mapi {A B : Type} (f : A -> nat -> B) (i : nat) (l : list A) : list B :=
  match l with
  | [] => []
  | a :: rest => f a i :: mapi f (S i) rest
  end.

(** The [switch] on the payout model: one payout per sorted player
    ([userId], [finalMass], [maxMass]).  The floors are those of the exact
    products; [Binary64.payouts] takes them on doubles, where a proportional
    share can come out one cent lower (masses 41 and 39 on a net pot of
    1840). *)
Definition payouts (m : t) (sortedPlayers : list (string * Q * Q)) : list Z :=
  let netPot := netPot m in
  match payoutModel (config m) with
  | WINNER_TAKE_ALL =>
      mapi (fun _ i => if (i =? 0)%nat then netPot else 0) 0 sortedPlayers
  | TOP_3_LADDER =>
      mapi (fun _ i =>
              if (i =? 0)%nat then Qfloor (inject_Z netPot * 0.65)
              else if (i =? 1)%nat then Qfloor (inject_Z netPot * 0.25)
              else if (i =? 2)%nat then Qfloor (inject_Z netPot * 0.1)
              else 0) 0 sortedPlayers
  | PROPORTIONAL =>
      let totalMass := fold_left (fun sum p => (sum + snd (fst p))%Q) sortedPlayers 0%Q in
      map (fun p => if Qltb 0 totalMass
                    then Qfloor ((snd (fst p) / totalMass) * inject_Z netPot)
                    else 0) sortedPlayers
  end.

(** [calculateResults()]. *)
Definition calculateResults (m : t) : list MatchResult :=
  let sortedPlayers :=
    sort_by_mass (map (fun p => (userId p, mass p, mass p)) (players m)) in
  let pay := payouts m sortedPlayers in
  mapi (fun p i =>
          {| res_userId := fst (fst p);
             placement := Z.of_nat i + 1;
             finalMass := snd (fst p);
             maxMass := snd p;
             payoutCents := nth i pay 0 |}) 0 sortedPlayers.

End WithMath.
End Match.

(* ================================================================== *)
(** * Binary64: the size test and the payout floors on doubles         *)
(* ================================================================== *)

Module Binary64.

(** The fields of a [Player] that [canEat] reads, the radius as the double
    it is. *)
Record Cell : Type := mkCell {
  isDead : bool;
  teamNo : Z;
  radius : float
}.

Definition COLLISION_SIZE_RATIO : float := 1.15%float.

(** [canEat(eater, target)]. *)
Definition canEat (eater target : Cell) : bool :=
  if isDead eater || isDead target then false
  else if (0 <? teamNo eater) && (teamNo eater =? teamNo target) then false
  else PrimFloat.ltb (PrimFloat.mul (radius target) COLLISION_SIZE_RATIO) (radius eater).

(** A whole number of cents (below 2^53) as the double that holds it. *)
Definition of_Z (z : Z) : float :=
  match z with
  | Z0 => 0%float
  | Zpos _ => PrimFloat.of_uint63 (Uint63.of_Z z)
  | Zneg p => PrimFloat.opp (PrimFloat.of_uint63 (Uint63.of_Z (Zpos p)))
  end.

(** [Math.floor] of a finite double. *)
Definition floor (f : float) : Z :=
  match Prim2SF f with
  | S754_finite s m e => Z.shiftl (if s then Zneg m else Zpos m) e
  | _ => 0
  end.

(** The [switch] on the payout model of [calculateResults], on the final
    masses of the sorted players. *)
Definition payouts (model : PayoutModel) (netPot : Z) (sortedMasses : list float) : list Z :=
  match model with
  | WINNER_TAKE_ALL =>
      Match.mapi (fun _ i => if (i =? 0)%nat then netPot else 0) 0 sortedMasses
  | TOP_3_LADDER =>
      Match.mapi (fun _ i =>
                    if (i =? 0)%nat then floor (PrimFloat.mul (of_Z netPot) 0.65)
                    else if (i =? 1)%nat then floor (PrimFloat.mul (of_Z netPot) 0.25)
                    else if (i =? 2)%nat then floor (PrimFloat.mul (of_Z netPot) 0.1)
                    else 0) 0 sortedMasses
  | PROPORTIONAL =>
      let totalMass := fold_left PrimFloat.add sortedMasses 0%float in
      map (fun finalMass =>
             if PrimFloat.ltb 0 totalMass
             then floor (PrimFloat.mul (PrimFloat.div finalMass totalMass) (of_Z netPot))
             else 0) sortedMasses
  end.

End Binary64.

(* ================================================================== *)
(** * The database: tables, constraints, statements and transactions  *)
(* ================================================================== *)

Inductive KYCStatus : Type := KYC_NONE | KYC_PENDING | KYC_APPROVED | KYC_REJECTED.

(** The [ref] JSONB column: the objects the services store there. *)
Inductive RefBlob : Type :=
| REF_matchId (matchId : string)
| REF_method (method : string)
| REF_json (json : string).

(** [wallets]: [CHECK (available_cents >= 0)], [CHECK (escrow_cents >= 0)]. *)
Record WalletRow : Type := mkWallet {
  wallet_user_id : string;
  available_cents : Z;
  escrow_cents : Z;
  version : Z
}.

(** [wallet_tx]: [idempotency_key TEXT UNIQUE]; [None] is SQL [NULL]. *)
Record WalletTx : Type := mkTx {
  tx_id : nat;
  tx_user_id : string;
  tx_type : WalletTransactionType;
  amount_cents : Z;
  tx_status : WalletTransactionStatus;
  tx_ref : RefBlob;
  idempotency_key : option string
}.

Record LobbyRow : Type := mkLobby {
  lobby_id : string;
  lobby_mode : GameMode;
  buy_in_cents : Z;
  lobby_payout_model : PayoutModel;
  lobby_state : LobbyState;
  rake_bps : Z;
  rake_cap_cents : option Z
}.

(** [lobby_players]: [PRIMARY KEY (lobby_id, user_id)], [team_no INT NOT NULL]. *)
Record LobbyPlayerRow : Type := mkLobbyPlayer {
  lp_lobby_id : string;
  lp_user_id : string;
  team_no : Z
}.

Record DB : Type := mkDB {
  wallets : list WalletRow;
  wallet_tx : list WalletTx;
  lobbies : list LobbyRow;
  lobby_players : list LobbyPlayerRow;
  profiles : list (string * KYCStatus)    (* user_id, kyc_status *)
}.

Inductive Error : Type :=
| Thrown (message : string)        (* [throw new Error(message)] *)
| QueryError (message : string).   (* the database rejects a statement *)

Inductive Result (A : Type) : Type :=
| Ok (a : A)
| Err (e : Error).
Arguments Ok {A} a.
Arguments Err {A} e.

(** The writing statements the services send. *)
Inductive Stmt : Type :=
| UPDATE_wallets (user : string) (d_available d_escrow : Z)
    (* SET available_cents = available_cents + d_available,
           escrow_cents = escrow_cents + d_escrow, version = version + 1
       WHERE user_id = user *)
| INSERT_wallet_tx (row : WalletTx)
| UPDATE_wallet_tx_status (txid : nat) (st : WalletTransactionStatus)
| INSERT_lobby_players (row : LobbyPlayerRow).

Module Sql.

(** The ranges of the SQL types [INT] and [BIGINT]. *)
Definition int4 (z : Z) : bool := (-2147483648 <=? z) && (z <=? 2147483647).

Definition int8 (z : Z) : bool :=
  (-9223372036854775808 <=? z) && (z <=? 9223372036854775807).

(** The two [CHECK]s of [wallets]. *)
Definition wallet_checks (r : WalletRow) : bool :=
  (0 <=? available_cents r) && (0 <=? escrow_cents r).

(** The row the [SET] list of [UPDATE_wallets user da de] computes from [r];
    the sums are those of the integers, whether they fit their columns is
    decided by [row_error]. *)
Definition bump (user : string) (da de : Z) (r : WalletRow) : WalletRow :=
  if String.eqb (wallet_user_id r) user
  then mkWallet (wallet_user_id r) (available_cents r + da) (escrow_cents r + de)
                (version r + 1)
  else r.

(** What PostgreSQL answers when the [SET] list has computed [r']: a sum
    outside the type of its column ([BIGINT] for the two balances, [INT] for
    [version]) raises 22003 while the list is evaluated, column by column;
    the row computed is then tested against the two [CHECK]s. *)
Definition row_error (r' : WalletRow) : option string :=
  if negb (int8 (available_cents r') && int8 (escrow_cents r'))
  then Some "bigint out of range"%string
  else if negb (int4 (version r'))
  then Some "integer out of range"%string
  else if negb (wallet_checks r')
  then Some "new row for relation wallets violates check constraint"%string
  else None.

Fixpoint first_error (rows : list WalletRow) : option string :=
  match rows with
  | [] => None
  | r' :: rest =>
      match row_error r' with
      | Some message => Some message
      | None => first_error rest
      end
  end.

(** The error of [UPDATE_wallets user da de] on the rows [ws], if any: that
    of the first row of [user] which cannot be rewritten. *)
Definition update_error (ws : list WalletRow) (user : string) (da de : Z) : option string :=
  first_error (map (bump user da de)
                   (filter (fun r => String.eqb (wallet_user_id r) user) ws)).

Definition same_key (k : option string) (r : WalletTx) : bool :=
  match k, idempotency_key r with
  | Some a, Some b => String.eqb a b
  | _, _ => false
  end.

Definition set_status (txid : nat) (st : WalletTransactionStatus) (r : WalletTx) : WalletTx :=
  if (tx_id r =? txid)%nat
  then mkTx (tx_id r) (tx_user_id r) (tx_type r) (amount_cents r) st (tx_ref r)
            (idempotency_key r)
  else r.

Definition member_of (lobby user : string) (r : LobbyPlayerRow) : bool :=
  String.eqb (lp_lobby_id r) lobby && String.eqb (lp_user_id r) user.

(** One statement against the tables; a statement that fails leaves the
    tables as they were.  The failures are those of the schema: on every row
    an [UPDATE] of [wallets] rewrites, the types of the columns ([BIGINT]
    balances, [INT] version) and the two [CHECK]s; [UNIQUE] on
    [idempotency_key] ([NULL]s never collide); the primary key of
    [lobby_players] and the range of its [INT] column.  Foreign keys and the
    uniqueness of fresh uuids are taken for granted, and a parameter is a
    number PostgreSQL reads as a [BIGINT]. *)
Definition exec (st : Stmt) (d : DB) : Result DB :=
  match st with
  | UPDATE_wallets user da de =>
      match update_error (wallets d) user da de with
      | None => Ok (mkDB (map (bump user da de) (wallets d)) (wallet_tx d) (lobbies d)
                         (lobby_players d) (profiles d))
      | Some message => Err (QueryError message)
      end
  | INSERT_wallet_tx row =>
      if existsb (same_key (idempotency_key row)) (wallet_tx d)
      then Err (QueryError "duplicate key value violates unique constraint on idempotency_key"%string)
      else Ok (mkDB (wallets d) (wallet_tx d ++ [row]) (lobbies d) (lobby_players d)
                    (profiles d))
  | UPDATE_wallet_tx_status txid s =>
      Ok (mkDB (wallets d) (map (set_status txid s) (wallet_tx d)) (lobbies d)
               (lobby_players d) (profiles d))
  | INSERT_lobby_players row =>
      if negb (int4 (team_no row))
      then Err (QueryError "integer out of range"%string)
      else if existsb (member_of (lp_lobby_id row) (lp_user_id row)) (lobby_players d)
      then Err (QueryError "duplicate key value violates unique constraint lobby_players_pkey"%string)
      else Ok (mkDB (wallets d) (wallet_tx d) (lobbies d) (lobby_players d ++ [row])
                    (profiles d))
  end.

(** A connection: the committed tables, the statements of the open
    transaction of this client (newest first), and the uuid supply. *)
Record Conn : Type := mkConn {
  committed : DB;
  pending : list Stmt;
  next_uuid : nat
}.

(** What a client sees: the committed tables with its own statements applied. *)
Fixpoint replay (l : list Stmt) (d : DB) : Result DB :=
  match l with
  | [] => Ok d
  | st :: older =>
      match replay older d with
      | Ok d' => exec st d'
      | Err e => Err e
      end
  end.

Definition view (c : Conn) : Result DB := replay (pending c) (committed c).

(** Code running on a connection. *)
Definition Tx (A : Type) : Type := Conn -> Result A * Conn.

Definition ret {A : Type} (a : A) : Tx A := fun c => (Ok a, c).

Definition bind {A B : Type} (m : Tx A) (k : A -> Tx B) : Tx B :=
  fun c => match m c with
           | (Ok a, c') => k a c'
           | (Err e, c') => (Err e, c')
           end.

Definition throw {A : Type} (message : string) : Tx A :=
  fun c => (Err (Thrown message), c).

(** [client.query] of a [SELECT]: a function of the client's view. *)
Definition select {A : Type} (f : DB -> A) : Tx A :=
  fun c => match view c with
           | Ok d => (Ok (f d), c)
           | Err e => (Err e, c)
           end.

(** [client.query] of a writing statement. *)
Definition execute (st : Stmt) : Tx unit :=
  fun c => match view c with
           | Ok d =>
               match exec st d with
               | Ok _ => (Ok tt, mkConn (committed c) (st :: pending c) (next_uuid c))
               | Err e => (Err e, c)
               end
           | Err e => (Err e, c)
           end.

Definition uuid : Tx nat :=
  fun c => (Ok (next_uuid c), mkConn (committed c) (pending c) (S (next_uuid c))).

(** Modelled from the spec: [db.transaction] of [db/pool.ts], which is not
    among the sources.  The callback receives a client of its own
    ([async (client) => ...]); its statements are committed together when the
    callback returns and are all rolled back when it throws ("on any failure
    the transaction rolls back fully").  Statements of other clients, among
    them the transactions a callee opens for itself, are not part of it. *)
Definition db_transaction {A : Type} (callback : Tx A) : Tx A :=
  fun c =>
    match callback (mkConn (committed c) [] (next_uuid c)) with
    | (Ok a, c') =>
        match view c' with
        | Ok d => (Ok a, mkConn d (pending c) (next_uuid c'))                    (* COMMIT *)
        | Err e => (Err e, mkConn (committed c') (pending c) (next_uuid c'))
        end
    | (Err e, c') => (Err e, mkConn (committed c') (pending c) (next_uuid c'))   (* ROLLBACK *)
    end.

(** A call made outside any transaction, on the tables [d]. *)
Definition run {A : Type} (op : Tx A) (d : DB) (u : nat) : Result A * DB * nat :=
  let '(r, c) := op (mkConn d [] u) in (r, committed c, next_uuid c).

End Sql.

Declare Scope tx_scope.
Delimit Scope tx_scope with tx.
Notation "x <- c1 ;; c2" := (Sql.bind c1 (fun x => c2))
  (at level 61, c1 at next level, right associativity) : tx_scope.
Notation "c1 ;; c2" := (Sql.bind c1 (fun _ => c2))
  (at level 61, right associativity) : tx_scope.

(* ================================================================== *)
(** * WalletService                                                    *)
(* ================================================================== *)

Module WalletService.
Import Sql.
Local Open Scope tx_scope.

(** JavaScript truthiness of an optional string: [undefined] and the empty
    string are falsy. *)
Definition truthy (k : option string) : bool :=
  match k with
  | Some s => negb (String.eqb s EmptyString)
  | None => false
  end.

(** [SELECT id, status FROM wallet_tx WHERE idempotency_key = $1]. *)
Definition select_by_key (k : option string) : Tx (list WalletTx) :=
  select (fun d => filter (same_key k) (wallet_tx d)).

(** [SELECT available_cents FROM wallets WHERE user_id = $1 FOR UPDATE]. *)
Definition select_available (userId : string) : Tx (list Z) :=
  select (fun d => map available_cents
                       (filter (fun r => String.eqb (wallet_user_id r) userId) (wallets d))).

(** [deposit(userId, amountCents, ref, idempotencyKey?)]. *)
Definition deposit (userId : string) (amountCents : Z) (ref : RefBlob)
                   (idempotencyKey : option string) : Tx nat :=
  if amountCents <=? 0 then throw "Deposit amount must be positive"%string else
  db_transaction (
    existing <- (if truthy idempotencyKey then select_by_key idempotencyKey else ret []) ;;
    match existing with
    | row :: _ =>
        if TxStatus_eqb (tx_status row) TX_COMPLETED then ret (tx_id row)
        else throw "Transaction already in progress"%string
    | [] =>
        txId <- uuid ;;
        execute (INSERT_wallet_tx
                   (mkTx txId userId DEPOSIT amountCents TX_PENDING ref idempotencyKey)) ;;
        execute (UPDATE_wallets userId amountCents 0) ;;
        execute (UPDATE_wallet_tx_status txId TX_COMPLETED) ;;
        ret txId
    end).

(** [withdraw(userId, amountCents, method, idempotencyKey?)]. *)
Definition withdraw (userId : string) (amountCents : Z) (method : string)
                    (idempotencyKey : option string) : Tx nat :=
  if amountCents <=? 0 then throw "Withdrawal amount must be positive"%string else
  db_transaction (
    kycCheck <- select (fun d => filter (fun r => String.eqb (fst r) userId) (profiles d)) ;;
    match kycCheck with
    | (_, KYC_APPROVED) :: _ =>
        existing <- (if truthy idempotencyKey then select_by_key idempotencyKey else ret []) ;;
        match existing with
        | row :: _ =>
            if TxStatus_eqb (tx_status row) TX_COMPLETED then ret (tx_id row)
            else throw "Transaction already in progress"%string
        | [] =>
            balance <- select_available userId ;;
            match balance with
            | available :: _ =>
                if available <? amountCents then throw "Insufficient balance"%string
                else
                  txId <- uuid ;;
                  execute (INSERT_wallet_tx
                             (mkTx txId userId WITHDRAWAL (- amountCents) TX_PENDING
                                   (REF_method method) idempotencyKey)) ;;
                  execute (UPDATE_wallets userId (- amountCents) 0) ;;
                  execute (UPDATE_wallet_tx_status txId TX_COMPLETED) ;;
                  ret txId
            | [] => throw "Insufficient balance"%string
            end
        end
    | _ => throw "KYC approval required for withdrawals"%string
    end).

(** [lockEscrow(userId, amountCents, matchId)]. *)
Definition lockEscrow (userId : string) (amountCents : Z) (matchId : string) : Tx unit :=
  if amountCents <=? 0 then throw "Escrow amount must be positive"%string else
  db_transaction (
    balance <- select_available userId ;;
    match balance with
    | available :: _ =>
        if available <? amountCents then throw "Insufficient balance for buy-in"%string
        else
          execute (UPDATE_wallets userId (- amountCents) amountCents) ;;
          txId <- uuid ;;
          execute (INSERT_wallet_tx
                     (mkTx txId userId ESCROW_LOCK amountCents TX_COMPLETED
                           (REF_matchId matchId) None))
    | [] => throw "Insufficient balance for buy-in"%string
    end).

(** [refundEscrow(userId, amountCents, matchId)]. *)
Definition refundEscrow (userId : string) (amountCents : Z) (matchId : string) : Tx unit :=
  db_transaction (
    execute (UPDATE_wallets userId amountCents (- amountCents)) ;;
    txId <- uuid ;;
    execute (INSERT_wallet_tx
               (mkTx txId userId REFUND amountCents TX_COMPLETED (REF_matchId matchId) None))).

(** A JavaScript number bound to a [BIGINT] parameter: the text of a number
    with a fractional part is not accepted by the column type. *)
Definition bigint_param (q : Q) : Tx Z :=
  if Qeq_bool q (inject_Z (Qfloor q)) then ret (Qfloor q)
  else fun c => (Err (QueryError "invalid input syntax for type bigint"%string), c).

Definition HOUSE_USER_ID : string := "00000000-0000-0000-0000-000000000000".

(** The loop "process each payout" of [settleMatch]; [share] is the number
    [totalEscrow / payouts.length]. *)
Fixpoint settle_payouts (matchId : string) (share : Q) (l : list (string * Z)) : Tx unit :=
  match l with
  | [] => ret tt
  | (userId, payoutCents) :: rest =>
      release <- bigint_param share ;;
      execute (UPDATE_wallets userId payoutCents (- release)) ;;
      txId <- uuid ;;
      execute (INSERT_wallet_tx
                 (mkTx txId userId PAYOUT payoutCents TX_COMPLETED (REF_matchId matchId)
                       None)) ;;
      settle_payouts matchId share rest
  end.

(** [settleMatch(matchId, payouts, rakeCents)]. *)
Definition settleMatch (matchId : string) (payouts : list (string * Z)) (rakeCents : Z)
  : Tx unit :=
  db_transaction (
    let totalPayout := fold_left (fun sum p => sum + snd p) payouts 0 in
    let totalEscrow := totalPayout + rakeCents in
    let share := (inject_Z totalEscrow / inject_Z (Z.of_nat (List.length payouts)))%Q in
    settle_payouts matchId share payouts ;;
    rakeTxId <- uuid ;;
    execute (INSERT_wallet_tx
               (mkTx rakeTxId HOUSE_USER_ID RAKE rakeCents TX_COMPLETED
                     (REF_matchId matchId) None))).

End WalletService.

(* ================================================================== *)
(** * LobbyService                                                     *)
(* ================================================================== *)

Module LobbyService.
Import Sql.
Local Open Scope tx_scope.

Definition getMaxPlayers (mode : GameMode) : Z :=
  match mode with
  | SOLO => 20
  | DUO => 20
  | SQUAD => 20
  end.

(** [joinLobby(lobbyId, userId, teamNo = 0)]; the result is the [wsToken]. *)
Definition joinLobby (lobbyId userId : string) (teamNo : Z) : Tx nat :=
  db_transaction (
    lobby <- select (fun d => filter (fun r => String.eqb (lobby_id r) lobbyId) (lobbies d)) ;;
    match lobby with
    | [] => throw "Lobby not found"%string
    | lobbyData :: _ =>
        if negb (LobbyState_eqb (lobby_state lobbyData) WAITING)
        then throw "Lobby is not accepting players"%string
        else
          existing <- select (fun d => filter (member_of lobbyId userId) (lobby_players d)) ;;
          match existing with
          | _ :: _ => throw "Already in lobby"%string
          | [] =>
              playerCount <-
                select (fun d => List.length
                                   (filter (fun r => String.eqb (lp_lobby_id r) lobbyId)
                                           (lobby_players d))) ;;
              let maxPlayers := getMaxPlayers (lobby_mode lobbyData) in
              if maxPlayers <=? Z.of_nat playerCount then throw "Lobby is full"%string
              else
                WalletService.lockEscrow userId (buy_in_cents lobbyData) lobbyId ;;
                execute (INSERT_lobby_players (mkLobbyPlayer lobbyId userId teamNo)) ;;
                wsToken <- uuid ;;
                ret wsToken
          end
    end).

End LobbyService.

(* ================================================================== *)
(** * Notions used in the statements                                   *)
(* ================================================================== *)




(** Following the spec's words ("equal split with residue to rank 1"): [n]
    equal shares of [net], the remainder of the division added to the first. *)
Definition spec_equal_split (net : Z) (n : nat) : list Z :=
  match n with
  | O => []
  | S k => (net / Z.of_nat n + net mod Z.of_nat n) :: repeat (net / Z.of_nat n) k
  end.

(** The operations of [PhysicsEngine] on the cells of a match, as [update]
    invokes them: with the match's growth cap and the tick's [deltaTime]. *)
Inductive PhysOp : Type :=
| OP_updatePlayer (cell : nat) (now : Z)
| OP_eatPlayer (eater target : nat)
| OP_eatPellet (cell : nat) (pellet : Pellet)
| OP_applyFogDamage (cell : nat) (fogRadius : Q).

Definition tick_deltaTime : Q := (1 / GAME_CONFIG.TICK_RATE)%Q.

Definition apply_op {M : JSMath} (cap : Q) (ps : list Player) (op : PhysOp) : list Player :=
  match op with
  | OP_updatePlayer i now =>
      upd i (fun p => PhysicsEngine.updatePlayer p tick_deltaTime now) ps
  | OP_eatPlayer e t => snd (PhysicsEngine.eatPlayer ps e t cap)
  | OP_eatPellet i q =>
      upd i (fun p => snd (fst (PhysicsEngine.eatPellet p q cap))) ps
  | OP_applyFogDamage i fog =>
      upd i (fun p => PhysicsEngine.applyFogDamage p fog tick_deltaTime) ps
  end.

Definition run_ops {M : JSMath} (cap : Q) (ops : list PhysOp) (ps : list Player)
  : list Player :=
  fold_left (apply_op cap) ops ps.

(** A stand-in for the [Math] object, for running the model on concrete
    numbers; every statement below holds for all [JSMath]. *)
Definition crude_math : JSMath :=
  {| Math_sqrt := fun q => q;
     Math_cos := fun _ => 1%Q;
     Math_sin := fun _ => 0%Q;
     Math_atan2 := fun _ _ => 0%Q;
     Math_PI := 3.14159%Q |}.

(** A cell at the origin, for examples. *)
Definition cell (uid : string) (team : Z) (r m : Q) (dead : bool) : Player :=
  mkPlayer 0 uid team (mkVec 0 0) r m (mkVec 0 0) (mkVec 0 0) false 0 dead 0.

(** A finished match with the given final masses, for examples. *)
Definition finished (model : PayoutModel) (buyIn bps : Z) (cap : option Z)
                    (masses : list (string * Q)) : Match.t :=
  Match.mkMatch
    (mkConfig "match" "lobby" SOLO buyIn model bps cap "seed" "nonce" "commit" 1000%Q
              (map (fun um => (fst um, 0)) masses))
    SETTLEMENT 0 0 0
    (map (fun um => cell (fst um) 0 0 (snd um) false) masses)
    [] 1000%Q (inject_Z buyIn * 5)%Q [].

(** The seed and nonce of scenario S4: ["00"] thirty-two and sixteen times. *)
Definition zero_seed : string := Eval vm_compute in Enc.hex (repeat 0 32).
Definition zero_nonce : string := Eval vm_compute in Enc.hex (repeat 0 16).

(** The same surroundings with another sequence of [Math.random()] results. *)
Definition with_math_random (r : nat -> Q) (w : World) : World :=
  mkWorld (date_now w) (now_reads w) r (random_reads w) (uuid_next w).

(** Surroundings in which the clock stands at 0 and [Math.random()] returns 0. *)
Definition quiet_world : World := mkWorld (fun _ => 0) 0 (fun _ => 0%Q) 0 0.

(** A cell within the cap. *)
Definition capped (cap : Q) (p : Player) : Prop := (mass p <= cap)%Q.

(** The index pairs the collision loop of a match runs over. *)
Definition index_pairs_of (m : Match.t) : list (nat * nat) :=
  Match.index_pairs (List.length (Match.players m)).

(** The positions the seeded generator hands out, [n] in a row. *)
Fixpoint seeded_points {M : JSMath} (n : nat) (st : Z) (r0 : Q) : list Vector2D :=
  match n with
  | O => []
  | S k => let '(p, st') := Match.randomPointInCircle st r0 in p :: seeded_points k st' r0
  end.

Definition demo_config : MatchConfig :=
  mkConfig "match" "lobby" SOLO 1000 WINNER_TAKE_ALL 800 None
           zero_seed zero_nonce "commit" 0%Q [("a", 0)]%string.

(** A match of one member on a map of radius 0, started, after one tick in
    which [Math.random()] returned 0.5: the cell has eaten every pellet. *)
Definition demo_after_one_tick : Match.t * World :=
  Eval vm_compute in
  let '(m0, w0) := @Match.new_Match crude_math demo_config
                     (with_math_random (fun _ => 0.5%Q) quiet_world) in
  let '(m1, w1) := Match.startMatch m0 w0 in
  @Match.update crude_math m1 w1.

(** The tables after a refund of [amountCents] to [userId] has been applied. *)
Definition refunded (d : DB) (txId : nat) (userId : string) (amountCents : Z)
                    (matchId : string) : DB :=
  mkDB (map (Sql.bump userId amountCents (- amountCents)) (wallets d))
       (wallet_tx d ++ [mkTx txId userId REFUND amountCents TX_COMPLETED
                             (REF_matchId matchId) None])
       (lobbies d) (lobby_players d) (profiles d).


(** A row that fits the columns of [wallets] ([BIGINT] balances, [INT]
    version) and satisfies the two [CHECK]s of the table. *)
Definition storable (r : WalletRow) : bool :=
  Sql.int8 (available_cents r) && Sql.int8 (escrow_cents r) && Sql.int4 (version r)
  && Sql.wallet_checks r.

(** The wallet rows of a user. *)
Definition wallet_of (userId : string) (d : DB) : list WalletRow :=
  filter (fun r => String.eqb (wallet_user_id r) userId) (wallets d).

(** Code that writes only through its own client leaves the committed
    tables alone. *)
Definition own_client {A : Type} (m : Sql.Tx A) : Prop :=
  forall c, Sql.committed (snd (m c)) = Sql.committed c.

(** One wallet holding 1000. *)
Definition one_wallet : DB := mkDB [mkWallet "a" 1000 0 0] [] [] [] [].

(** Two players who each locked a buy-in of 1000. *)
Definition two_escrows : DB :=
  mkDB [mkWallet "a" 0 1000 1; mkWallet "b" 0 1000 1] [] [] [] [].

(** A waiting lobby with a buy-in of 500; "a" holds 1000, "b" holds nothing. *)
Definition open_lobby : DB :=
  mkDB [mkWallet "a" 1000 0 0; mkWallet "b" 0 0 0] []
       [mkLobby "lobby" SOLO 500 WINNER_TAKE_ALL WAITING 800 None] [] [].


(** What happens to a match during play: a tick, in given surroundings, or
    an input of a player. *)
Inductive PlayStep : Type :=
| STEP_update (w : World)
| STEP_updatePlayerInput (playerId : nat) (axes : Vector2D) (b : bool)
| STEP_startMatch (w : World).

Definition play_step {M : JSMath} (m : Match.t) (s : PlayStep) : Match.t :=
  match s with
  | STEP_update w => fst (Match.update m w)
  | STEP_updatePlayerInput playerId axes b => Match.updatePlayerInput m playerId axes b
  | STEP_startMatch w => fst (Match.startMatch m w)
  end.

Definition play {M : JSMath} (steps : list PlayStep) (m : Match.t) : Match.t :=
  fold_left play_step steps m.

(** Every cell of the match is within the match's growth cap. *)
Definition cells_capped (m : Match.t) : Prop :=
  Forall (capped (Match.growthCap m)) (Match.players m).

(* ================================================================== *)
(** * Notions used in the further properties                          *)
(* ================================================================== *)

(** ** Ranking *)

(** One entry of [sortedPlayers]: [userId], [finalMass], [maxMass]. *)
Definition entry_mass (e : string * Q * Q) : Q := snd (fst e).

(** [a] stands before [b] in a ranking by descending mass. *)
Definition outranks (a b : string * Q * Q) : Prop := (entry_mass b <= entry_mass a)%Q.

(** The entry a result was built from. *)
Definition entry_of (r : MatchResult) : string * Q * Q :=
  (res_userId r, finalMass r, maxMass r).

(** The placements 1, 2, ..., n. *)
Definition placements (n : nat) : list Z := map (fun i => Z.of_nat i + 1) (seq 0 n).

(** The payout of the ladder at index [i]: [a], [b], [c], then nothing. *)
Definition ladder (a b c : Z) (i : nat) : Z :=
  if (i =? 0)%nat then a else if (i =? 1)%nat then b else if (i =? 2)%nat then c else 0.

(** ** Cells and pellets during play *)

(** What identifies a cell: its uuid, its user and its team. *)
Definition identity (p : Player) : nat * string * Z := (id p, userId p, teamNo p).

(** The member a cell plays for. *)
Definition member (p : Player) : string * Z := (userId p, teamNo p).

(** [p'] is a later state of the cell [p]: the same cell, with at least as
    many kills; a dead cell stays dead and keeps its mass and its kills. *)
Definition evolves (p p' : Player) : Prop :=
  identity p' = identity p
  /\ kills p <= kills p'
  /\ (isDead p = true -> isDead p' = true /\ mass p' = mass p /\ kills p' = kills p).

(** A dead cell has mass zero, a live cell has a positive mass. *)
Definition well_massed (p : Player) : Prop :=
  if isDead p then (mass p == 0)%Q else (0 < mass p)%Q.

(** A pellet as [spawnPellet] makes it. *)
Definition fresh_pellet {M : JSMath} (q : Pellet) : Prop :=
  consumed q = false
  /\ pellet_mass q = GAME_CONFIG.PELLET_MASS
  /\ pellet_radius q = PhysicsEngine.massToRadius GAME_CONFIG.PELLET_MASS.

(** What the collision loop leaves alone. *)
Definition same_frame (m m' : Match.t) : Prop :=
  Match.config m' = Match.config m /\ Match.state m' = Match.state m
  /\ Match.tick m' = Match.tick m /\ Match.startTime m' = Match.startTime m
  /\ Match.countdownStartTime m' = Match.countdownStartTime m
  /\ Match.fogRadius m' = Match.fogRadius m /\ Match.growthCap m' = Match.growthCap m.

(** The fog radius a tick in the shrink phase sets, [elapsed] milliseconds
    after the start of the match. *)
Definition shrunk_radius (mapRadius : Q) (elapsed : Z) : Q :=
  (mapRadius * (1 - (inject_Z (elapsed - GAME_CONFIG.NORMAL_PHASE_MS)
                     / inject_Z GAME_CONFIG.SHRINK_PHASE_MS) * 0.65))%Q.

(** Reduction of the state transitions of a tick on a match given by its
    fields. *)
Ltac phase_steps :=
  cbn [Match.state Match.tick Match.startTime Match.countdownStartTime Match.players
       Match.pellets Match.config Match.fogRadius Match.growthCap Match.emitted
       Match.with_tick Match.with_state Match.with_startTime Match.with_fogRadius
       Match.emitEvent Match.endMatch Match.startMatch Date_now LobbyState_eqb fst snd].

(** ** Mass and random numbers *)




(** ** Wallets *)

(** The tables after [amountCents] of [userId] have been locked in escrow. *)
Definition locked (d : DB) (txId : nat) (userId : string) (amountCents : Z)
                  (matchId : string) : DB :=
  mkDB (map (Sql.bump userId (- amountCents) amountCents) (wallets d))
       (wallet_tx d ++ [mkTx txId userId ESCROW_LOCK amountCents TX_COMPLETED
                             (REF_matchId matchId) None])
       (lobbies d) (lobby_players d) (profiles d).

(** What a wallet holds for its user: available and escrow together. *)
Definition holdings (d : DB) : list (string * Z) :=
  map (fun r => (wallet_user_id r, available_cents r + escrow_cents r)) (wallets d).

(** The two balances of every wallet. *)
Definition balances (d : DB) : list (string * Z * Z) :=
  map (fun r => (wallet_user_id r, available_cents r, escrow_cents r)) (wallets d).

(** A call of one of the money-moving methods of the wallet service. *)
Inductive WalletCall : Type :=
| CALL_deposit (userId : string) (amountCents : Z) (ref : RefBlob)
               (idempotencyKey : option string)
| CALL_withdraw (userId : string) (amountCents : Z) (method : string)
                (idempotencyKey : option string)
| CALL_lockEscrow (userId : string) (amountCents : Z) (matchId : string)
| CALL_refundEscrow (userId : string) (amountCents : Z) (matchId : string)
| CALL_settleMatch (matchId : string) (payouts : list (string * Z)) (rakeCents : Z).

(** The call, awaited; what it resolves to is dropped. *)
Definition perform (c : WalletCall) : Sql.Tx unit :=
  match c with
  | CALL_deposit userId amountCents ref key =>
      Sql.bind (WalletService.deposit userId amountCents ref key) (fun _ => Sql.ret tt)
  | CALL_withdraw userId amountCents method key =>
      Sql.bind (WalletService.withdraw userId amountCents method key) (fun _ => Sql.ret tt)
  | CALL_lockEscrow userId amountCents matchId =>
      WalletService.lockEscrow userId amountCents matchId
  | CALL_refundEscrow userId amountCents matchId =>
      WalletService.refundEscrow userId amountCents matchId
  | CALL_settleMatch matchId payouts rakeCents =>
      WalletService.settleMatch matchId payouts rakeCents
  end.

(** The tables after the withdrawal with ledger id [txId] has been applied. *)
Definition withdrawn (d : DB) (txId : nat) (userId : string) (amountCents : Z)
                     (method : string) (key : option string) : DB :=
  mkDB (map (Sql.bump userId (- amountCents) 0) (wallets d))
       (map (Sql.set_status txId TX_COMPLETED)
            (wallet_tx d ++ [mkTx txId userId WITHDRAWAL (- amountCents) TX_PENDING
                                  (REF_method method) key]))
       (lobbies d) (lobby_players d) (profiles d).

(** The cents held in all wallets, available and escrow together. *)
Definition total_cents (d : DB) : Z := fold_right Z.add 0 (map snd (holdings d)).

(** The sum of a list of payouts. *)
Definition payout_sum (l : list (string * Z)) : Z := fold_right Z.add 0 (map snd l).

(** ** Lobbies *)

(** The number of members of a lobby. *)
Definition members (lobbyId : string) (d : DB) : nat :=
  List.length (filter (fun r => String.eqb (lp_lobby_id r) lobbyId) (lobby_players d)).

(** The rows of a lobby in [lobbies]. *)
Definition lobby_of (lobbyId : string) (d : DB) : list LobbyRow :=
  filter (fun r => String.eqb (lobby_id r) lobbyId) (lobbies d).

(** The tables after [userId] has joined the lobby: the buy-in locked, and
    the membership row added. *)
Definition joined (d : DB) (txId : nat) (lobbyId userId : string) (teamNo buyIn : Z) : DB :=
  mkDB (map (Sql.bump userId (- buyIn) buyIn) (wallets d))
       (wallet_tx d ++ [mkTx txId userId ESCROW_LOCK buyIn TX_COMPLETED
                             (REF_matchId lobbyId) None])
       (lobbies d)
       (lobby_players d ++ [mkLobbyPlayer lobbyId userId teamNo])
       (profiles d).

(* ================================================================== *)
(** * ProvablyFairService: the commitment drawn and the seeded generator *)
(* ================================================================== *)

Module ProvablyFair.

(** [generateCommitment()]; [seedBytes] and [nonceBytes] are what
    [randomBytes(32)] and [randomBytes(16)] return. *)
Definition generateCommitment (seedBytes nonceBytes : list Z) : string * string * string :=
  let seed := Enc.hex seedBytes in
  let nonce := Enc.hex nonceBytes in
  let commit := ProvablyFairService.createCommit seed nonce in
  (seed, nonce, commit).

(** [hash.readUInt32BE(0)]. *)
Definition readUInt32BE (bs : list Z) : Z :=
  match bs with
  | b0 :: b1 :: b2 :: b3 :: _ => ((b0 * 256 + b1) * 256 + b2) * 256 + b3
  | _ => 0
  end.

(** [seedToNumber]: the first four bytes of the SHA-256 digest of the seed. *)
Definition seedToNumber (seed : string) : Z :=
  readUInt32BE (Sha256.digest (Enc.utf8 seed)).

(** [createSeededRNG(seed)]: the closure's variable [state], initially. *)
Definition createSeededRNG (seed : string) : Z := seedToNumber seed.





End ProvablyFair.

(* ================================================================== *)
(** * The match tables and the services that write them               *)
(* ================================================================== *)

(** [matches]: [CHECK (pot_cents >= 0)], [CHECK (rake_cents >= 0)],
    [CHECK (net_pot_cents >= 0)]; [match_ended] is [ended_at IS NOT NULL]. *)
Record MatchRow : Type := mkMatchRow {
  match_id : string;
  match_lobby_id : string;
  match_seed : string;
  match_nonce : string;
  match_commit : string;
  match_ended : bool;
  match_payout_model : PayoutModel;
  match_rake_bps : Z;
  pot_cents : Z;
  rake_cents : Z;
  net_pot_cents : Z
}.

(** [match_players]: [PRIMARY KEY (match_id, user_id)], [CHECK (placement > 0)],
    [CHECK (max_mass >= 0)], [CHECK (final_mass >= 0)],
    [CHECK (payout_cents >= 0)]; the masses are [NUMERIC(15, 2)]. *)
Record MatchPlayerRow : Type := mkMatchPlayer {
  mp_match_id : string;
  mp_user_id : string;
  mp_team_no : Z;
  mp_placement : Z;
  max_mass : Q;
  final_mass : Q;
  payout_cents : Z
}.

(** All the tables: those of [DB], the two match tables and the column
    [mmr_solo INT] of [profiles], by [user_id]. *)
Record Tables : Type := mkTables {
  base : DB;
  matches : list MatchRow;
  match_players : list MatchPlayerRow;
  mmr_solo : list (string * Z)
}.

(** The writing statements of the lobby and settlement services. *)
Inductive Query : Type :=
| DELETE_lobby_players (lobby user : string)
    (* WHERE lobby_id = lobby AND user_id = user *)
| UPDATE_lobbies_state (lobby : string) (st : LobbyState)
    (* SET state = st, started_at / ended_at = NOW() WHERE id = lobby *)
| INSERT_matches (row : MatchRow)
| UPDATE_matches_ended (id : string) (reveal : option (string * string))
    (* SET ended_at = NOW() [, seed = .., nonce = ..] WHERE id = id *)
| INSERT_match_players (row : MatchPlayerRow)
| UPDATE_profiles_mmr_solo (user : string) (change : Z).
    (* SET mmr_solo = mmr_solo + change WHERE user_id = user *)

(** The text of a fresh uuid. *)
Definition uuid_text (n : nat) : string := NilZero.string_of_uint (Nat.to_uint n).

Module Pg.

Definition with_base (d : DB) (s : Tables) : Tables :=
  mkTables d (matches s) (match_players s) (mmr_solo s).

Definition match_is (id : string) (r : MatchRow) : bool := String.eqb (match_id r) id.

Definition in_lobby (lobby : string) (r : LobbyPlayerRow) : bool :=
  String.eqb (lp_lobby_id r) lobby.

Definition lobby_is (lobby : string) (r : LobbyRow) : bool := String.eqb (lobby_id r) lobby.

Definition set_state (lobby : string) (st : LobbyState) (r : LobbyRow) : LobbyRow :=
  if lobby_is lobby r
  then mkLobby (lobby_id r) (lobby_mode r) (buy_in_cents r) (lobby_payout_model r) st
               (rake_bps r) (rake_cap_cents r)
  else r.

Definition end_match (id : string) (reveal : option (string * string)) (r : MatchRow)
  : MatchRow :=
  if match_is id r
  then mkMatchRow (match_id r) (match_lobby_id r)
                  (match reveal with Some (seed, _) => seed | None => match_seed r end)
                  (match reveal with Some (_, nonce) => nonce | None => match_nonce r end)
                  (match_commit r) true (match_payout_model r) (match_rake_bps r)
                  (pot_cents r) (rake_cents r) (net_pot_cents r)
  else r.

Definition add_mmr (user : string) (change : Z) (r : string * Z) : string * Z :=
  if String.eqb (fst r) user then (fst r, snd r + change) else r.

(** A number stored in a [NUMERIC(15, 2)] column: rounded to two decimals,
    halves away from zero. *)
Definition numeric_2 (q : Q) : Q :=
  if Qle_bool 0 q then Qmake (Qfloor (q * 100 + (1 # 2))) 100
  else (- Qmake (Qfloor (- q * 100 + (1 # 2))) 100)%Q.

(** The rounded number has at most thirteen digits before the point. *)
Definition numeric_15 (q : Q) : bool :=
  Qltb (- (10000000000000)) q && Qltb q 10000000000000.

Definition same_result (matchId user : string) (r : MatchPlayerRow) : bool :=
  String.eqb (mp_match_id r) matchId && String.eqb (mp_user_id r) user.

(** One statement against the tables; a violated constraint is an error and
    leaves the tables as they were.  The checks are those of the schema: the
    range of the [INT] columns, the precision of the [NUMERIC] ones, the
    [CHECK]s of [matches] and [match_players] and the primary key of
    [match_players].  Foreign keys and the uniqueness of fresh uuids are taken
    for granted. *)
Definition exec (q : Query) (s : Tables) : Result Tables :=
  let d := base s in
  match q with
  | DELETE_lobby_players lobby user =>
      Ok (with_base (mkDB (wallets d) (wallet_tx d) (lobbies d)
                          (filter (fun r => negb (Sql.member_of lobby user r))
                                  (lobby_players d))
                          (profiles d)) s)
  | UPDATE_lobbies_state lobby st =>
      Ok (with_base (mkDB (wallets d) (wallet_tx d) (map (set_state lobby st) (lobbies d))
                          (lobby_players d) (profiles d)) s)
  | INSERT_matches row =>
      if negb (Sql.int4 (match_rake_bps row) && Sql.int4 (pot_cents row)
               && Sql.int4 (rake_cents row) && Sql.int4 (net_pot_cents row))
      then Err (QueryError "integer out of range"%string)
      else if negb ((0 <=? pot_cents row) && (0 <=? rake_cents row)
                    && (0 <=? net_pot_cents row))
      then Err (QueryError "new row for relation matches violates check constraint"%string)
      else Ok (mkTables d (matches s ++ [row]) (match_players s) (mmr_solo s))
  | UPDATE_matches_ended id reveal =>
      Ok (mkTables d (map (end_match id reveal) (matches s)) (match_players s) (mmr_solo s))
  | INSERT_match_players row =>
      let stored := mkMatchPlayer (mp_match_id row) (mp_user_id row) (mp_team_no row)
                                  (mp_placement row) (numeric_2 (max_mass row))
                                  (numeric_2 (final_mass row)) (payout_cents row) in
      if negb (Sql.int4 (mp_team_no row) && Sql.int4 (mp_placement row)
               && Sql.int4 (payout_cents row))
      then Err (QueryError "integer out of range"%string)
      else if negb (numeric_15 (max_mass stored) && numeric_15 (final_mass stored))
      then Err (QueryError "numeric field overflow"%string)
      else if negb ((0 <? mp_placement stored) && Qle_bool 0 (max_mass stored)
                    && Qle_bool 0 (final_mass stored) && (0 <=? payout_cents stored))
      then Err (QueryError
                  "new row for relation match_players violates check constraint"%string)
      else if existsb (same_result (mp_match_id row) (mp_user_id row)) (match_players s)
      then Err (QueryError
                  "duplicate key value violates unique constraint match_players_pkey"%string)
      else Ok (mkTables d (matches s) (match_players s ++ [stored]) (mmr_solo s))
  | UPDATE_profiles_mmr_solo user change =>
      if forallb (fun r => Sql.int4 (snd (add_mmr user change r)))
                 (filter (fun r => String.eqb (fst r) user) (mmr_solo s))
      then Ok (mkTables d (matches s) (match_players s)
                        (map (add_mmr user change) (mmr_solo s)))
      else Err (QueryError "integer out of range"%string)
  end.

(** A connection, as in [Sql]: the committed tables, the statements of the
    open transaction of this client (newest first), and the uuid supply. *)
Record Conn : Type := mkConn {
  committed : Tables;
  pending : list Query;
  next_uuid : nat
}.

Fixpoint replay (l : list Query) (s : Tables) : Result Tables :=
  match l with
  | [] => Ok s
  | q :: older =>
      match replay older s with
      | Ok s' => exec q s'
      | Err e => Err e
      end
  end.

Definition view (c : Conn) : Result Tables := replay (pending c) (committed c).

Definition Tx (A : Type) : Type := Conn -> Result A * Conn.

Definition ret {A : Type} (a : A) : Tx A := fun c => (Ok a, c).

Definition bind {A B : Type} (m : Tx A) (k : A -> Tx B) : Tx B :=
  fun c => match m c with
           | (Ok a, c') => k a c'
           | (Err e, c') => (Err e, c')
           end.

Definition throw {A : Type} (message : string) : Tx A :=
  fun c => (Err (Thrown message), c).

Definition select {A : Type} (f : Tables -> A) : Tx A :=
  fun c => match view c with
           | Ok s => (Ok (f s), c)
           | Err e => (Err e, c)
           end.

Definition execute (q : Query) : Tx unit :=
  fun c => match view c with
           | Ok s =>
               match exec q s with
               | Ok _ => (Ok tt, mkConn (committed c) (q :: pending c) (next_uuid c))
               | Err e => (Err e, c)
               end
           | Err e => (Err e, c)
           end.

Definition uuid : Tx nat :=
  fun c => (Ok (next_uuid c), mkConn (committed c) (pending c) (S (next_uuid c))).

(** [db.transaction], as [Sql.db_transaction]. *)
Definition db_transaction {A : Type} (callback : Tx A) : Tx A :=
  fun c =>
    match callback (mkConn (committed c) [] (next_uuid c)) with
    | (Ok a, c') =>
        match view c' with
        | Ok s => (Ok a, mkConn s (pending c) (next_uuid c'))                    (* COMMIT *)
        | Err e => (Err e, mkConn (committed c') (pending c) (next_uuid c'))
        end
    | (Err e, c') => (Err e, mkConn (committed c') (pending c) (next_uuid c'))   (* ROLLBACK *)
    end.

(** A call of the wallet service: it works on a connection of its own, on the
    committed tables, and what it commits is committed. *)
Definition wallet {A : Type} (op : Sql.Tx A) : Tx A :=
  fun c =>
    let '(r, d, u) := Sql.run op (base (committed c)) (next_uuid c) in
    (r, mkConn (with_base d (committed c)) (pending c) u).

(** A call made outside any transaction, on the tables [s]. *)
Definition run {A : Type} (op : Tx A) (s : Tables) (u : nat) : Result A * Tables * nat :=
  let '(r, c) := op (mkConn s [] u) in (r, committed c, next_uuid c).

End Pg.

Declare Scope pg_scope.
Delimit Scope pg_scope with pg.
Notation "x <- c1 ;; c2" := (Pg.bind c1 (fun x => c2))
  (at level 61, c1 at next level, right associativity) : pg_scope.
Notation "c1 ;; c2" := (Pg.bind c1 (fun _ => c2))
  (at level 61, right associativity) : pg_scope.

(** The methods of [LobbyService] that end a membership or start the match. *)
Module Lobby.
Import Pg.
Local Open Scope pg_scope.

(** [leaveLobby(lobbyId, userId)]. *)
Definition leaveLobby (lobbyId userId : string) : Tx unit :=
  db_transaction (
    lobby <- select (fun s => filter (lobby_is lobbyId) (lobbies (base s))) ;;
    match lobby with
    | [] => throw "Lobby not found"%string
    | lobbyData :: _ =>
        if negb (LobbyState_eqb (lobby_state lobbyData) WAITING)
        then throw "Cannot leave lobby after match has started"%string
        else
          execute (DELETE_lobby_players lobbyId userId) ;;
          wallet (WalletService.refundEscrow userId (buy_in_cents lobbyData) lobbyId)
    end).

(** [lobbyData.rake_cap_cents || Infinity]: [null] and [0] are falsy; [None] is
    [Infinity]. *)
Definition or_Infinity (cap : option Z) : option Z :=
  match cap with
  | Some c => if c =? 0 then None else Some c
  | None => None
  end.

(** [Math.min(r, cap)] with a cap that may be [Infinity]. *)
Definition min_cap (r : Z) (cap : option Z) : Z :=
  match cap with
  | Some c => Z.min r c
  | None => r
  end.

(** [startMatch(lobbyId)]; [seedBytes] and [nonceBytes] are the random bytes
    [generateCommitment] draws. *)
Definition startMatch (lobbyId : string) (seedBytes nonceBytes : list Z) : Tx string :=
  db_transaction (
    lobby <- select (fun s => filter (lobby_is lobbyId) (lobbies (base s))) ;;
    match lobby with
    | [] => throw "Lobby not found"%string
    | lobbyData :: _ =>
        players <- select (fun s => filter (in_lobby lobbyId) (lobby_players (base s))) ;;
        match players with
        | [] => throw "No players in lobby"%string
        | _ :: _ =>
            let '(seed, nonce, commit) := ProvablyFair.generateCommitment seedBytes nonceBytes in
            let pot := buy_in_cents lobbyData * Z.of_nat (List.length players) in
            let rake := min_cap ((pot * rake_bps lobbyData) / 10000)
                                (or_Infinity (rake_cap_cents lobbyData)) in
            let netPot := pot - rake in
            matchId <- uuid ;;
            execute (INSERT_matches
                       (mkMatchRow (uuid_text matchId) lobbyId seed nonce commit false
                                   (lobby_payout_model lobbyData) (rake_bps lobbyData)
                                   pot rake netPot)) ;;
            execute (UPDATE_lobbies_state lobbyId ACTIVE) ;;
            ret (uuid_text matchId)
        end
    end).

End Lobby.

Module SettlementService.
Import Pg.
Local Open Scope pg_scope.

(** The loop "save match results" of [settleMatch]. *)
Fixpoint save_results (matchId : string) (results : list MatchResult) : Tx unit :=
  match results with
  | [] => ret tt
  | result :: rest =>
      execute (INSERT_match_players
                 (mkMatchPlayer matchId (res_userId result) 0 (placement result)
                                (maxMass result) (finalMass result) (payoutCents result))) ;;
      save_results matchId rest
  end.

(** [mmrChange] of [updatePlayerMMR], for one result. *)
Definition mmrChange (playerCount : Z) (actualPlacement : Z) : Z :=
  let expectedPlacement := ((inject_Z playerCount + 1) / 2)%Q in
  let k := 32%Q in
  Qfloor (k * (expectedPlacement - inject_Z actualPlacement) / inject_Z playerCount).

(** The loop of [updatePlayerMMR]; [playerCount] is [results.length]. *)
Fixpoint mmr_updates (playerCount : Z) (results : list MatchResult) : Tx unit :=
  match results with
  | [] => ret tt
  | result :: rest =>
      execute (UPDATE_profiles_mmr_solo (res_userId result)
                                        (mmrChange playerCount (placement result))) ;;
      mmr_updates playerCount rest
  end.

(** [updatePlayerMMR(client, matchData, results)]. *)
Definition updatePlayerMMR (matchData : MatchRow) (results : list MatchResult) : Tx unit :=
  mmr_updates (Z.of_nat (List.length results)) results.

(** [settleMatch(matchId, results, seed, nonce)]. *)
Definition settleMatch (matchId : string) (results : list MatchResult) (seed nonce : string)
  : Tx unit :=
  db_transaction (
    match_ <- select (fun s => filter (match_is matchId) (matches s)) ;;
    match match_ with
    | [] => throw "Match not found"%string
    | matchData :: _ =>
        if match_ended matchData then throw "Match already settled"%string
        else
          save_results matchId results ;;
          execute (UPDATE_matches_ended matchId (Some (seed, nonce))) ;;
          execute (UPDATE_lobbies_state (match_lobby_id matchData) COMPLETED) ;;
          let payouts := map (fun r => (res_userId r, payoutCents r)) results in
          wallet (WalletService.settleMatch matchId payouts (rake_cents matchData)) ;;
          updatePlayerMMR matchData results
    end).

(** The loop "refund all players" of [refundMatch]. *)
Fixpoint refund_all (players : list string) (buyInCents : Z) (matchId : string) : Tx unit :=
  match players with
  | [] => ret tt
  | user_id :: rest =>
      wallet (WalletService.refundEscrow user_id buyInCents matchId) ;;
      refund_all rest buyInCents matchId
  end.

(** [refundMatch(matchId, reason)]; reading [lobby.rows[0]] of an empty result
    throws a [TypeError]. *)
Definition refundMatch (matchId reason : string) : Tx unit :=
  db_transaction (
    match_ <- select (fun s => filter (match_is matchId) (matches s)) ;;
    match match_ with
    | [] => throw "Match not found"%string
    | matchData :: _ =>
        players <- select (fun s => map lp_user_id
                                        (filter (in_lobby (match_lobby_id matchData))
                                                (lobby_players (base s)))) ;;
        lobby <- select (fun s => map buy_in_cents
                                      (filter (lobby_is (match_lobby_id matchData))
                                              (lobbies (base s)))) ;;
        match lobby with
        | [] => throw "Cannot read properties of undefined (reading 'buy_in_cents')"%string
        | buyInCents :: _ =>
            refund_all players buyInCents matchId ;;
            execute (UPDATE_matches_ended matchId None) ;;
            execute (UPDATE_lobbies_state (match_lobby_id matchData) COMPLETED)
        end
    end).

End SettlementService.

(** ** Notions for the lobby and settlement services *)

(** The tables after [userId] has left the lobby: the buy-in back from
    escrow, the refund in the ledger, and no membership row. *)
Definition left_lobby (s : Tables) (txId : nat) (lobbyId userId : string) (buyIn : Z)
  : Tables :=
  Pg.with_base
    (mkDB (map (Sql.bump userId buyIn (- buyIn)) (wallets (base s)))
          (wallet_tx (base s) ++ [mkTx txId userId REFUND buyIn TX_COMPLETED
                                       (REF_matchId lobbyId) None])
          (lobbies (base s))
          (filter (fun r => negb (Sql.member_of lobbyId userId r)) (lobby_players (base s)))
          (profiles (base s))) s.

(** The row [startMatch] writes for a lobby with [n] players. *)
Definition started_row (lobbyData : LobbyRow) (n : nat) (matchId : nat)
           (seedBytes nonceBytes : list Z) : MatchRow :=
  let pot := buy_in_cents lobbyData * Z.of_nat n in
  let rake := Lobby.min_cap ((pot * rake_bps lobbyData) / 10000)
                            (Lobby.or_Infinity (rake_cap_cents lobbyData)) in
  mkMatchRow (uuid_text matchId) (lobby_id lobbyData)
             (Enc.hex seedBytes) (Enc.hex nonceBytes)
             (ProvablyFairService.createCommit (Enc.hex seedBytes) (Enc.hex nonceBytes))
             false (lobby_payout_model lobbyData) (rake_bps lobbyData)
             pot rake (pot - rake).

(** The tables once a match row has been written and the lobby set to a state. *)
Definition with_match (s : Tables) (row : MatchRow) (lobbyId : string) (st : LobbyState)
  : Tables :=
  mkTables (mkDB (wallets (base s)) (wallet_tx (base s))
                 (map (Pg.set_state lobbyId st) (lobbies (base s)))
                 (lobby_players (base s)) (profiles (base s)))
           (matches s ++ [row]) (match_players s) (mmr_solo s).

(** A waiting lobby of 500 whose only member is "a"; "b" and "c" never joined
    it, and "b" has 500 locked for something else. *)
Definition lobby_and_strangers : Tables :=
  mkTables (mkDB [mkWallet "a" 500 500 1; mkWallet "b" 0 500 1; mkWallet "c" 0 0 0] []
                 [mkLobby "lobby" SOLO 500 WINNER_TAKE_ALL WAITING 800 None]
                 [mkLobbyPlayer "lobby" "a" 0] [])
           [] [] [].

(** What a statement does to the table [matches]. *)
Definition matches_after (q : Query) (ms : list MatchRow) : list MatchRow :=
  match q with
  | INSERT_matches row => ms ++ [row]
  | UPDATE_matches_ended id reveal => map (Pg.end_match id reveal) ms
  | _ => ms
  end.

(** The table [matches] once the statements of a transaction (newest first)
    are applied. *)
Fixpoint journal_matches (l : list Query) (ms : list MatchRow) : list MatchRow :=
  match l with
  | [] => ms
  | q :: older => matches_after q (journal_matches older ms)
  end.

(** The table [matches] as the client of a connection sees it. *)
Definition seen_matches (c : Pg.Conn) : list MatchRow :=
  journal_matches (Pg.pending c) (matches (Pg.committed c)).

(** Code that leaves the committed tables alone. *)
Definition keeps_committed {A : Type} (m : Pg.Tx A) : Prop :=
  forall c, Pg.committed (snd (m c)) = Pg.committed c.

(** The payouts [settleMatch] hands to the wallet service. *)
Definition payouts_of (results : list MatchResult) : list (string * Z) :=
  map (fun r => (res_userId r, payoutCents r)) results.

(** A match of two, both buy-ins of 500 in escrow, about to be settled. *)
Definition ready_to_settle : Tables :=
  mkTables (mkDB [mkWallet "a" 0 500 1; mkWallet "b" 0 500 1] []
                 [mkLobby "lobby" SOLO 500 WINNER_TAKE_ALL ACTIVE 800 None]
                 [mkLobbyPlayer "lobby" "a" 0; mkLobbyPlayer "lobby" "b" 0] [])
           [mkMatchRow "match" "lobby" "seed" "nonce" "commit" false WINNER_TAKE_ALL 800
                       1000 80 920]
           [] [("a", 1000); ("b", 1000)]%string.

(** A match of two whose winner's rating is at the top of the [INT] range. *)
Definition rating_at_the_top : Tables :=
  mkTables (mkDB [mkWallet "a" 0 500 1; mkWallet "b" 0 500 1] []
                 [mkLobby "lobby" SOLO 500 WINNER_TAKE_ALL ACTIVE 800 None]
                 [mkLobbyPlayer "lobby" "a" 0; mkLobbyPlayer "lobby" "b" 0] [])
           [mkMatchRow "match" "lobby" "seed" "nonce" "commit" false WINNER_TAKE_ALL 800
                       1000 80 920]
           [] [("a", 2147483647); ("b", 1000)]%string.

(** The results of that match: "a" wins the net pot. *)
Definition a_wins : list MatchResult :=
  [mkResult "a" 1 30 30 920; mkResult "b" 2 10 10 0].

(** The refunds of [refundMatch], one player after the other, on the
    committed tables: the first refund the database rejects ends the loop. *)
Fixpoint refund_each (players : list string) (buyInCents : Z) (matchId : string)
         (d : DB) (u : nat) : Result unit * DB * nat :=
  match players with
  | [] => (Ok tt, d, u)
  | user_id :: rest =>
      match Sql.update_error (wallets d) user_id buyInCents (- buyInCents) with
      | None =>
          refund_each rest buyInCents matchId (refunded d u user_id buyInCents matchId) (S u)
      | Some message => (Err (QueryError message), d, u)
      end
  end.

(** The members of the lobby of a match, in the order of the table. *)
Definition players_of (lobbyId : string) (s : Tables) : list string :=
  map lp_user_id (filter (Pg.in_lobby lobbyId) (lobby_players (base s))).

(** The same tables with the matches [matchId] marked as ended. *)
Definition ended (matchId : string) (reveal : option (string * string)) (s : Tables)
  : Tables :=
  mkTables (base s) (map (Pg.end_match matchId reveal) (matches s)) (match_players s)
           (mmr_solo s).

(** The wallets after the buy-in went back to each of [done], in turn. *)
Definition refunds (done : list string) (buyInCents : Z) (ws : list WalletRow)
  : list WalletRow :=
  fold_left (fun ws user_id => map (Sql.bump user_id buyInCents (- buyInCents)) ws) done ws.

(** A match of two in which only "a" still has the buy-in in escrow. *)
Definition half_refundable : Tables :=
  mkTables (mkDB [mkWallet "a" 0 500 1; mkWallet "b" 0 0 1] []
                 [mkLobby "lobby" SOLO 500 WINNER_TAKE_ALL ACTIVE 800 None]
                 [mkLobbyPlayer "lobby" "a" 0; mkLobbyPlayer "lobby" "b" 0] [])
           [mkMatchRow "match" "lobby" "seed" "nonce" "commit" false WINNER_TAKE_ALL 800
                       1000 80 920]
           [] [].

(* ================================================================== *)
(** * Properties                                                       *)
(* ================================================================== *)

(** ** The digest against the FIPS 180-4 test vectors *)

Example sha256_empty_string :
  Enc.hex (Sha256.digest (Enc.utf8 "")) =
  "e3b0c44298fc1c149afbf4c8996fb92427ae41e4649b934ca495991b7852b855"%string.
Proof. vm_compute. reflexivity. Qed.

Example sha256_abc :
  Enc.hex (Sha256.digest (Enc.utf8 "abc")) =
  "ba7816bf8f01cfea414140de5dae2223b00361a396177a9cb410ff61f20015ad"%string.
Proof. vm_compute. reflexivity. Qed.

Example sha256_two_blocks :
  Enc.hex (Sha256.digest
             (Enc.utf8 "abcdbcdecdefdefgefghfghighijhijkijkljklmklmnlmnomnopnopq")) =
  "248d6a61d20638b8e5c026930c3e6039a33ce45964ff2167f6ecedd419db06c1"%string.
Proof. vm_compute. reflexivity. Qed.

(** ** Commitment (scenario S4) *)

(** [verifyCommitment] accepts exactly the commitment [createCommit] computes. *)
Lemma verifyCommitment_iff (s n c : string) :
  ProvablyFairService.verifyCommitment s n c = true <->
  c = ProvablyFairService.createCommit s n.
Proof.
  unfold ProvablyFairService.verifyCommitment.
  rewrite String.eqb_eq. split; intro H; symmetry; exact H.
Qed.

(** C4, the claim as stated fails: for seed = "00"*32 and nonce = "00"*16 the
    commitment of [createCommit] is not the hex SHA-256 digest of ninety-six
    bytes of value zero. *)
Lemma C4_commit_is_not_the_digest_of_zero_bytes :
  ProvablyFairService.createCommit zero_seed zero_nonce
  <> Enc.hex (Sha256.digest (repeat 0 96)).
Proof. vm_compute. discriminate. Qed.

(** C4, amended: for seed = "00"*32 and nonce = "00"*16 the commitment is the
    hex SHA-256 digest of the ninety-six ASCII characters '0' (bytes 0x30) of
    the string seed + nonce; [verifyCommitment] accepts it, and rejects after
    the flip of any one bit of the 32 seed bytes, of the 16 nonce bytes or of
    the 32 commit bytes. *)
Theorem C4_commitment_of_the_zero_seed :
  let commit := ProvablyFairService.createCommit zero_seed zero_nonce in
  Enc.utf8 (zero_seed ++ zero_nonce) = repeat 48 96
  /\ commit = Enc.hex (Sha256.digest (repeat 48 96))
  /\ commit = "cb0216e7ae909ac5f758bc9bc9de34a36e93432ae178dea5a43fcdbf67202c76"%string
  /\ ProvablyFairService.verifyCommitment zero_seed zero_nonce commit = true
  /\ forallb (fun i => negb (ProvablyFairService.verifyCommitment
                               (Enc.flip_hex_bit zero_seed i) zero_nonce commit))
             (seq 0 256) = true
  /\ forallb (fun i => negb (ProvablyFairService.verifyCommitment
                               zero_seed (Enc.flip_hex_bit zero_nonce i) commit))
             (seq 0 128) = true
  /\ forallb (fun i => negb (ProvablyFairService.verifyCommitment
                               zero_seed zero_nonce (Enc.flip_hex_bit commit i)))
             (seq 0 256) = true.
Proof.
  cbv zeta. repeat apply conj; vm_compute; reflexivity.
Qed.

(** ** Eating rule *)

Lemma Qltb_true (a b : Q) : Qltb a b = true <-> (a < b)%Q.
Proof.
  unfold Qltb. rewrite negb_true_iff. split; intro H.
  - apply Qnot_le_lt. intro L. apply Qle_bool_iff in L. congruence.
  - destruct (Qle_bool b a) eqn:E; [|reflexivity].
    apply Qle_bool_iff in E. exfalso. apply (Qlt_not_le _ _ H E).
Qed.

Lemma Qltb_false (a b : Q) : Qltb a b = false <-> (b <= a)%Q.
Proof.
  unfold Qltb. rewrite negb_false_iff. apply Qle_bool_iff.
Qed.

Lemma ltb_irrefl (x : float) : PrimFloat.ltb x x = false.
Proof.
  rewrite FloatAxioms.ltb_spec. unfold SFltb.
  destruct (Prim2SF x) as [s|s| |s m e]; cbn; try reflexivity.
  - destruct s; reflexivity.
  - destruct s; rewrite Z.compare_refl, Pos.compare_cont_refl; reflexivity.
Qed.

(** C9, the claim as stated fails: two live cells that share the non-zero
    team number -1 can eat each other; and a cell of radius 115 eats a cell
    of radius 100, exactly at the ratio 1.15, because the product 100 * 1.15
    is rounded to 114.99999999999999. *)
Lemma C9_same_team_and_exact_ratio_can_eat :
  let a := Binary64.mkCell false (-1) 2 in
  let b := Binary64.mkCell false (-1) 1 in
  let eater := Binary64.mkCell false 0 115 in
  let target := Binary64.mkCell false 0 100 in
  (Binary64.canEat a b = true
   /\ Binary64.teamNo a = Binary64.teamNo b /\ Binary64.teamNo a <> 0)
  /\ (Binary64.canEat eater target = true
      /\ (115 == 1.15 * 100)%Q
      /\ PrimFloat.mul (Binary64.radius target) Binary64.COLLISION_SIZE_RATIO
         = 114.99999999999999%float).
Proof.
  cbv zeta. repeat apply conj; try reflexivity; discriminate.
Qed.

(** C9, amended: [canEat] returns true only when the eater's radius is
    strictly greater than the product of the target's radius and 1.15 as the
    code computes it, on doubles, so it returns false when the eater's radius
    is that product; it returns false when the two cells share the same
    positive team number, and when either cell is dead. *)
Theorem C9_canEat_rule (eater target : Binary64.Cell) :
  (Binary64.canEat eater target = true ->
     PrimFloat.ltb (PrimFloat.mul (Binary64.radius target) Binary64.COLLISION_SIZE_RATIO)
                   (Binary64.radius eater) = true)
  /\ (Binary64.radius eater
      = PrimFloat.mul (Binary64.radius target) Binary64.COLLISION_SIZE_RATIO ->
     Binary64.canEat eater target = false)
  /\ (0 < Binary64.teamNo eater -> Binary64.teamNo eater = Binary64.teamNo target ->
     Binary64.canEat eater target = false)
  /\ (Binary64.isDead eater = true \/ Binary64.isDead target = true ->
     Binary64.canEat eater target = false).
Proof.
  unfold Binary64.canEat.
  repeat apply conj.
  - destruct (Binary64.isDead eater || Binary64.isDead target); [discriminate|].
    destruct ((0 <? Binary64.teamNo eater)
              && (Binary64.teamNo eater =? Binary64.teamNo target)); [discriminate|].
    intro H. exact H.
  - intro E.
    destruct (Binary64.isDead eater || Binary64.isDead target); [reflexivity|].
    destruct ((0 <? Binary64.teamNo eater)
              && (Binary64.teamNo eater =? Binary64.teamNo target)); [reflexivity|].
    rewrite E. apply ltb_irrefl.
  - intros Hpos Hsame.
    destruct (Binary64.isDead eater || Binary64.isDead target); [reflexivity|].
    apply Z.ltb_lt in Hpos. apply Z.eqb_eq in Hsame.
    rewrite Hpos, Hsame. reflexivity.
  - intros [H | H]; rewrite H; [reflexivity|].
    rewrite orb_true_r. reflexivity.
Qed.

(** ** Payouts *)

Section Payouts.

Lemma mapi_length {A B : Type} (f : A -> nat -> B) (l : list A) :
  forall k, List.length (Match.mapi f k l) = List.length l.
Proof. induction l as [|a l IH]; intro k; simpl; [reflexivity | now rewrite IH]. Qed.

Lemma payouts_length (m : Match.t) (l : list (string * Q * Q)) :
  List.length (Match.payouts m l) = List.length l.
Proof.
  unfold Match.payouts.
  destruct (payoutModel (Match.config m)); rewrite ?mapi_length, ?length_map; reflexivity.
Qed.

(** The results carry the payouts of the [switch], in order. *)
Lemma results_payouts_from (pay pre : list Z) (l : list (string * Q * Q)) :
  List.length pay = List.length l ->
  map payoutCents
      (Match.mapi (fun p i => mkResult (fst (fst p)) (Z.of_nat i + 1) (snd (fst p)) (snd p)
                                       (nth i (pre ++ pay) 0))
                  (List.length pre) l) = pay.
Proof.
  revert pay pre. induction l as [|a l IH]; intros pay pre Hlen.
  - destruct pay; [reflexivity | discriminate].
  - destruct pay as [|z pay]; [discriminate|]. simpl.
    f_equal.
    + rewrite app_nth2 by lia. now rewrite Nat.sub_diag.
    + specialize (IH pay (pre ++ [z])).
      rewrite length_app, Nat.add_1_r in IH. rewrite <- app_assoc in IH. simpl in IH.
      apply IH. simpl in Hlen. lia.
Qed.

Lemma payoutCents_calculateResults (m : Match.t) :
  map payoutCents (Match.calculateResults m) =
  Match.payouts m (Match.sort_by_mass
                     (map (fun p => (userId p, mass p, mass p)) (Match.players m))).
Proof.
  unfold Match.calculateResults.
  apply (results_payouts_from _ []). apply payouts_length.
Qed.

Lemma sort_insert_Forall (P : string * Q * Q -> Prop) a l :
  P a -> Forall P l -> Forall P (Match.sort_insert a l).
Proof.
  intros Ha Hl. induction Hl as [|b l Hb Hl IH]; simpl.
  - constructor; [exact Ha | constructor].
  - destruct (Qltb 0 (snd (fst b) - snd (fst a))).
    + constructor; assumption.
    + constructor; [exact Ha | constructor; assumption].
Qed.

Lemma sort_by_mass_Forall (P : string * Q * Q -> Prop) l :
  Forall P l -> Forall P (Match.sort_by_mass l).
Proof.
  unfold Match.sort_by_mass. induction 1 as [|a l Ha Hl IH]; simpl.
  - constructor.
  - apply sort_insert_Forall; assumption.
Qed.

Lemma sort_insert_length a l :
  List.length (Match.sort_insert a l) = S (List.length l).
Proof.
  induction l as [|b l IH]; simpl; [reflexivity|].
  destruct (Qltb 0 (snd (fst b) - snd (fst a))); simpl; [now rewrite IH | reflexivity].
Qed.

Lemma sort_by_mass_length l : List.length (Match.sort_by_mass l) = List.length l.
Proof.
  unfold Match.sort_by_mass. induction l as [|a l IH]; simpl; [reflexivity|].
  now rewrite sort_insert_length, IH.
Qed.

(** [reduce((sum, p) => sum + p.finalMass, 0)] against the right fold. *)
Lemma totalMass_fold (l : list (string * Q * Q)) (a : Q) :
  (fold_left (fun sum p => sum + snd (fst p)) l a ==
   a + fold_right (fun p s => snd (fst p) + s) 0 l)%Q.
Proof.
  revert a. induction l as [|p l IH]; intro a; simpl.
  - ring.
  - rewrite IH. ring.
Qed.

Lemma totalMass_zero (l : list (string * Q * Q)) :
  Forall (fun p => (snd (fst p) == 0)%Q) l ->
  (fold_left (fun sum p => sum + snd (fst p)) l 0 == 0)%Q.
Proof.
  intro H. rewrite totalMass_fold.
  induction H as [|p l Hp Hl IH]; simpl; [ring|].
  rewrite Hp. rewrite Qplus_0_l in IH |- *. rewrite Qplus_0_l. exact IH.
Qed.


Lemma rake_le_pot (m : Match.t) :
  0 <= buyInCents (Match.config m) -> rakeBps (Match.config m) <= 10000 ->
  Match.rake m <= Match.pot m.
Proof.
  intros Hbuy Hbps. unfold Match.rake.
  assert (Hpot : 0 <= Match.pot m) by (unfold Match.pot; lia).
  assert (Hr : Match.pot m * rakeBps (Match.config m) / 10000 <= Match.pot m).
  { apply Z.div_le_upper_bound; [lia|]. nia. }
  destruct (rakeCapCents (Match.config m)); lia.
Qed.


Lemma floor_065 (N : Z) : Qfloor (inject_Z N * 0.65) = N * 65 / 100.
Proof. reflexivity. Qed.

Lemma floor_025 (N : Z) : Qfloor (inject_Z N * 0.25) = N * 25 / 100.
Proof. reflexivity. Qed.

Lemma floor_01 (N : Z) : Qfloor (inject_Z N * 0.1) = N * 1 / 10.
Proof. reflexivity. Qed.


















End Payouts.

(** The floors on doubles agree with the exact ones on the examples below;
    they need not: with masses 41 and 39 and a net pot of 1840 the first
    share is 943 exactly, the double product lies below 943, and the code
    pays 942. *)
Lemma binary64_share_one_cent_lower :
  Binary64.payouts PROPORTIONAL 1840 [41; 39]%float = [942; 897]
  /\ Match.payouts (finished PROPORTIONAL 1000 800 None [("a", 41%Q); ("b", 39%Q)]%string)
                   [("a", 41%Q, 41%Q); ("b", 39%Q, 39%Q)]%string = [943; 897].
Proof. split; vm_compute; reflexivity. Qed.




(** C6, the claim as stated fails: in a proportional settlement of three
    players who all end with mass zero (pot 15000, rake 1200), the payouts are
    not the equal split of the net pot. *)
Lemma C6_all_zero_masses_pay_nothing :
  let m := finished PROPORTIONAL 5000 800 None
                    [("a", 0%Q); ("b", 0%Q); ("c", 0%Q)]%string in
  map payoutCents (Match.calculateResults m) = [0; 0; 0]
  /\ spec_equal_split (Match.netPot m) 3 = [4600; 4600; 4600]
  /\ map payoutCents (Match.calculateResults m) <> spec_equal_split (Match.netPot m) 3.
Proof.
  cbv zeta. repeat apply conj; vm_compute; [reflexivity | reflexivity | discriminate].
Qed.

(** C6, amended: in a proportional settlement in which every player's final
    mass is zero, every payout is zero (the net pot is not distributed). *)
Theorem C6_proportional_all_zero (m : Match.t) :
  payoutModel (Match.config m) = PROPORTIONAL ->
  Forall (fun p => (mass p == 0)%Q) (Match.players m) ->
  Forall (fun r => payoutCents r = 0) (Match.calculateResults m).
Proof.
  intros Hmodel Hzero.
  apply (proj1 (Forall_map payoutCents (fun z => z = 0) _)).
  rewrite payoutCents_calculateResults.
  unfold Match.payouts. rewrite Hmodel.
  set (sorted := Match.sort_by_mass _).
  assert (Hs : Forall (fun p => (snd (fst p) == 0)%Q) sorted).
  { apply sort_by_mass_Forall. rewrite Forall_map.
    eapply Forall_impl; [|exact Hzero]. intros p Hp. exact Hp. }
  assert (Ht : Qltb 0 (fold_left (fun sum p => (sum + snd (fst p))%Q) sorted 0%Q) = false).
  { apply Qltb_false. rewrite (totalMass_zero _ Hs). apply Qle_refl. }
  rewrite Ht. rewrite Forall_map. apply Forall_forall. intros; reflexivity.
Qed.

Lemma C6_proportional_all_zero_witness :
  Forall (fun r => payoutCents r = 0)
         (Match.calculateResults
            (finished PROPORTIONAL 5000 800 None [("a", 0%Q); ("b", 0%Q)]%string)).
Proof.
  apply C6_proportional_all_zero.
  - reflexivity.
  - simpl. repeat constructor.
Defined.

(** ** Growth cap *)

Section GrowthCap.
Context {M : JSMath}.
Local Open Scope Q_scope.

Lemma Math_min_le_r (a b : Q) : Math_min a b <= b.
Proof.
  unfold Math_min. destruct (Qle_bool a b) eqn:E.
  - apply Qle_bool_iff. exact E.
  - apply Qle_refl.
Qed.

Lemma Math_max_le (a b c : Q) : a <= c -> b <= c -> Math_max a b <= c.
Proof. intros Ha Hb. unfold Math_max. destruct (Qle_bool a b); assumption. Qed.

Lemma upd_Forall {A : Type} (P : A -> Prop) (f : A -> A) (i : nat) (l : list A) :
  (forall a, P a -> P (f a)) -> Forall P l -> Forall P (upd i f l).
Proof.
  intros Hf Hl. revert i. induction Hl as [|a l Ha Hl IH]; intro i; simpl.
  - constructor.
  - destruct i; constructor; auto.
Qed.

Lemma updatePlayer_mass (p : Player) (dt : Q) (now : Z) :
  mass (PhysicsEngine.updatePlayer p dt now) = mass p.
Proof. unfold PhysicsEngine.updatePlayer. destruct (isDead p); reflexivity. Qed.

Lemma eatPellet_capped (cap : Q) (p : Player) (q : Pellet) :
  capped cap p -> capped cap (snd (fst (PhysicsEngine.eatPellet p q cap))).
Proof.
  intro Hp. unfold PhysicsEngine.eatPellet.
  destruct (isDead p || consumed q); [exact Hp|].
  destruct (PhysicsEngine.checkCollision _ _ _ _); [|exact Hp].
  apply Math_min_le_r.
Qed.

Lemma applyFogDamage_capped (cap fog dt : Q) (p : Player) :
  0 <= cap -> 0 <= dt -> capped cap p ->
  capped cap (PhysicsEngine.applyFogDamage p fog dt).
Proof.
  intros Hcap Hdt Hp. unfold PhysicsEngine.applyFogDamage.
  destruct (isDead p); [exact Hp|].
  destruct (Qltb fog _); [|exact Hp].
  unfold capped. cbn [mass PhysicsEngine.set_mass_dead].
  apply Math_max_le; [exact Hcap|].
  unfold capped in Hp. 
  assert (0 <= 5.0 * dt) by (apply Qmult_le_0_compat; [discriminate | exact Hdt]).
  lra.
Qed.

Lemma eatPlayer_capped (cap : Q) (ps : list Player) (e t : nat) :
  0 <= cap -> Forall (capped cap) ps ->
  Forall (capped cap) (snd (PhysicsEngine.eatPlayer ps e t cap)).
Proof.
  intros Hcap Hps. unfold PhysicsEngine.eatPlayer.
  destruct (nth_error ps e) as [pe|]; [|exact Hps].
  destruct (nth_error ps t) as [pt|]; [|exact Hps].
  destruct (negb (PhysicsEngine.canEat pe pt)); [exact Hps|].
  destruct (negb (PhysicsEngine.checkCollision _ _ _ _)); [exact Hps|].
  cbn [snd].
  apply upd_Forall; [intros a _; exact Hcap|].
  apply upd_Forall; [|exact Hps].
  intros a _. apply Math_min_le_r.
Qed.

Lemma tick_deltaTime_nonneg : 0 <= tick_deltaTime.
Proof. discriminate. Qed.

Lemma apply_op_capped (cap : Q) (ps : list Player) (op : PhysOp) :
  0 <= cap -> Forall (capped cap) ps -> Forall (capped cap) (apply_op cap ps op).
Proof.
  intros Hcap Hps. destruct op as [i now | e t | i q | i fog]; cbn [apply_op].
  - apply upd_Forall; [|exact Hps].
    intros a Ha. unfold capped. now rewrite updatePlayer_mass.
  - apply eatPlayer_capped; assumption.
  - apply upd_Forall; [|exact Hps]. intros a Ha. apply eatPellet_capped; exact Ha.
  - apply upd_Forall; [|exact Hps]. intros a Ha.
    apply applyFogDamage_capped; [exact Hcap | exact tick_deltaTime_nonneg | exact Ha].
Qed.

Lemma run_ops_capped (cap : Q) (ops : list PhysOp) (ps : list Player) :
  0 <= cap -> Forall (capped cap) ps -> Forall (capped cap) (run_ops cap ops ps).
Proof.
  intro Hcap. unfold run_ops. revert ps.
  induction ops as [|op ops IH]; intros ps Hps; simpl; [exact Hps|].
  apply IH. apply apply_op_capped; assumption.
Qed.

(** *** The cells and the cap of a freshly constructed match *)

Lemma map_set_Forall {A : Type} (P : A -> Prop) (key : A -> nat) (v : A) (l : list A) :
  P v -> Forall P l -> Forall P (map_set key v l).
Proof.
  intros Hv Hl. induction Hl as [|a l Ha Hl IH]; simpl.
  - constructor; [exact Hv | constructor].
  - destruct (key a =? key v)%nat; constructor; assumption.
Qed.

Lemma spawn_players_mass (cfg : MatchConfig) (l : list (string * Z)) :
  forall st ps w,
    Forall (fun p => mass p = GAME_CONFIG.INITIAL_PLAYER_MASS) ps ->
    Forall (fun p => mass p = GAME_CONFIG.INITIAL_PLAYER_MASS)
           (fst (Match.spawn_players cfg l st ps w)).
Proof.
  induction l as [|[uid team] l IH]; intros st ps w Hps; cbn [Match.spawn_players];
    [exact Hps|].
  match goal with
  | |- context [Match.randomPointInCircle ?a ?b] =>
      destruct (Match.randomPointInCircle a b) as [spawnPos st']
  end.
  cbn [uuidv4]. apply IH. apply map_set_Forall; [reflexivity | exact Hps].
Qed.

Lemma spawn_pellets_players (n : nat) :
  forall m st w,
    Match.players (fst (fst (Match.spawn_pellets n m st w))) = Match.players m
    /\ Match.growthCap (fst (fst (Match.spawn_pellets n m st w))) = Match.growthCap m.
Proof.
  induction n as [|n IH]; intros m st w; cbn [Match.spawn_pellets];
    [split; reflexivity|].
  unfold Match.spawnPellet.
  match goal with
  | |- context [Match.randomPointInCircle ?a ?b] =>
      destruct (Match.randomPointInCircle a b) as [p st']
  end.
  cbn [uuidv4].
  match goal with
  | |- context [Match.spawn_pellets n ?m' ?s' ?w'] =>
      destruct (IH m' s' w') as [E1 E2]
  end.
  rewrite E1, E2. split; reflexivity.
Qed.

Lemma new_Match_players (cfg : MatchConfig) (w : World) :
  Forall (fun p => mass p = GAME_CONFIG.INITIAL_PLAYER_MASS)
         (Match.players (fst (Match.new_Match cfg w)))
  /\ Match.growthCap (fst (Match.new_Match cfg w))
     = inject_Z (buyInCents cfg) * GAME_CONFIG.GROWTH_CAP_MULTIPLIER.
Proof.
  unfold Match.new_Match, Match.initializePlayers, Match.initializePellets.
  cbn [Match.config Match.players].
  pose proof (spawn_players_mass cfg (config_players cfg) (Match.createSeededRNG cfg) [] w
                                 (Forall_nil _)) as Hs.
  destruct (Match.spawn_players cfg (config_players cfg) (Match.createSeededRNG cfg) [] w)
    as [ps w1].
  cbn [fst] in Hs.
  match goal with
  | |- context [Match.spawn_pellets ?n ?m ?st ?w'] =>
      pose proof (spawn_pellets_players n m st w') as [E1 E2];
      destruct (Match.spawn_pellets n m st w') as [[m2 st2] w2]
  end.
  cbn [fst] in *. rewrite E1, E2. split; [exact Hs | reflexivity].
Qed.

End GrowthCap.

(** *** Ticks and inputs *)

Section Ticks.
Context {M : JSMath}.
Local Open Scope Q_scope.

Lemma constrainToMap_mass (p : Player) (r : Q) :
  mass (PhysicsEngine.constrainToMap p r) = mass p.
Proof. unfold PhysicsEngine.constrainToMap. destruct (Qltb r _); reflexivity. Qed.

Lemma update_players_capped (m : Match.t) (cap dt : Q) (ps : list Player) :
  0 <= cap -> 0 <= dt -> Forall (capped cap) ps ->
  forall w, Forall (capped cap) (fst (Match.update_players m dt ps w)).
Proof.
  intros Hcap Hdt Hps. induction Hps as [|p ps Hp Hps IH]; intro w;
    cbn [Match.update_players].
  - constructor.
  - destruct (if negb (isDead p) && boost p then Date_now w else (0%Z, w)) as [now w1].
    specialize (IH w1). destruct (Match.update_players m dt ps w1) as [rest w2].
    cbn [fst] in *. constructor; [|exact IH].
    assert (Hc : capped cap (PhysicsEngine.constrainToMap
                               (PhysicsEngine.updatePlayer p dt now)
                               (mapRadius (Match.config m)))).
    { unfold capped. rewrite constrainToMap_mass, updatePlayer_mass. exact Hp. }
    destruct (LobbyState_eqb (Match.state m) SUDDEN_SHRINK); [|exact Hc].
    apply applyFogDamage_capped; assumption.
Qed.

Lemma collide_capped (m : Match.t) (ij : nat * nat) :
  0 <= Match.growthCap m -> cells_capped m ->
  Match.growthCap (Match.collide m ij) = Match.growthCap m
  /\ cells_capped (Match.collide m ij).
Proof.
  intros Hcap Hm. unfold Match.collide. destruct ij as [i j].
  destruct (nth_error (Match.players m) i) as [p1|]; [|split; [reflexivity | exact Hm]].
  destruct (nth_error (Match.players m) j) as [p2|]; [|split; [reflexivity | exact Hm]].
  destruct (PhysicsEngine.canEat p1 p2).
  - pose proof (eatPlayer_capped (Match.growthCap m) (Match.players m) i j Hcap Hm) as H.
    destruct (PhysicsEngine.eatPlayer _ i j _) as [g ps]. cbn [snd] in H.
    destruct (Qltb 0 g); split; (reflexivity || exact H).
  - destruct (PhysicsEngine.canEat p2 p1); [|split; [reflexivity | exact Hm]].
    pose proof (eatPlayer_capped (Match.growthCap m) (Match.players m) j i Hcap Hm) as H.
    destruct (PhysicsEngine.eatPlayer _ j i _) as [g ps]. cbn [snd] in H.
    destruct (Qltb 0 g); split; (reflexivity || exact H).
Qed.

Lemma collisions_capped (l : list (nat * nat)) :
  forall m,
    0 <= Match.growthCap m -> cells_capped m ->
    Match.growthCap (fold_left Match.collide l m) = Match.growthCap m
    /\ cells_capped (fold_left Match.collide l m).
Proof.
  induction l as [|ij l IH]; intros m Hcap Hm; cbn [fold_left].
  - split; [reflexivity | exact Hm].
  - destruct (collide_capped m ij Hcap Hm) as [E H].
    destruct (IH (Match.collide m ij)) as [E' H']; [rewrite E; exact Hcap | exact H |].
    split; [rewrite E'; exact E | exact H'].
Qed.

Lemma eat_pellets_capped (cap : Q) (qs : list Pellet) :
  forall p, capped cap p -> capped cap (fst (Match.eat_pellets p qs cap)).
Proof.
  induction qs as [|q qs IH]; intros p Hp; cbn [Match.eat_pellets]; [exact Hp|].
  pose proof (eatPellet_capped cap p q Hp) as H.
  destruct (PhysicsEngine.eatPellet p q cap) as [[eaten p'] q']. cbn [fst snd] in H.
  specialize (IH p' H). destruct (Match.eat_pellets p' qs cap) as [p'' rest'].
  exact IH.
Qed.

Lemma players_eat_pellets_capped (cap : Q) (ps : list Player) :
  Forall (capped cap) ps ->
  forall qs, Forall (capped cap) (fst (Match.players_eat_pellets ps qs cap)).
Proof.
  induction 1 as [|p ps Hp Hps IH]; intro qs; cbn [Match.players_eat_pellets].
  - constructor.
  - pose proof (eat_pellets_capped cap qs p Hp) as H.
    destruct (Match.eat_pellets p qs cap) as [p' qs']. cbn [fst] in H.
    specialize (IH qs'). destruct (Match.players_eat_pellets ps qs' cap) as [rest' qs''].
    constructor; assumption.
Qed.

Lemma respawn_players (m : Match.t) (w : World) :
  Match.players (fst (Match.respawn m w)) = Match.players m
  /\ Match.growthCap (fst (Match.respawn m w)) = Match.growthCap m.
Proof.
  unfold Match.respawn.
  destruct (if LobbyState_eqb (Match.state m) ACTIVE then (true, w)
            else let '(r, w') := Math_random w in (Qltb 0.5 r, w')) as [enter w1].
  destruct enter; [|split; reflexivity].
  destruct (Nat.ltb _ 500); [|split; reflexivity].
  destruct (Math_random w1) as [r w2].
  destruct (Qltb r 0.1); [|split; reflexivity].
  unfold Match.spawnPellet.
  destruct (Match.randomPointInCircle _ _) as [p st'].
  destruct (uuidv4 w2) as [pid w3]. split; reflexivity.
Qed.

Lemma simulate_capped (m : Match.t) (w : World) :
  0 <= Match.growthCap m -> cells_capped m ->
  Match.growthCap (fst (Match.simulate m w)) = Match.growthCap m
  /\ cells_capped (fst (Match.simulate m w)).
Proof.
  intros Hcap Hm. unfold Match.simulate.
  pose proof (update_players_capped m (Match.growthCap m) (1 / GAME_CONFIG.TICK_RATE)
                (Match.players m) Hcap ltac:(discriminate) Hm w) as H1.
  destruct (Match.update_players m _ (Match.players m) w) as [ps w1]. cbn [fst] in H1.
  set (m1 := Match.with_players ps m).
  destruct (collisions_capped (Match.index_pairs (List.length (Match.players m1))) m1)
    as [E2 H2]; [exact Hcap | exact H1 |].
  set (m2 := fold_left Match.collide _ m1) in *.
  pose proof (players_eat_pellets_capped (Match.growthCap m2) (Match.players m2) H2
                                         (Match.pellets m2)) as H3.
  destruct (Match.players_eat_pellets _ _ _) as [ps' qs']. cbn [fst] in H3.
  match goal with
  | |- context [Match.respawn ?m3 w1] => destruct (respawn_players m3 w1) as [Ep Eg]
  end.
  unfold cells_capped. rewrite Ep, Eg.
  cbn [Match.growthCap Match.players Match.with_pellets Match.with_players].
  split; [exact E2 | rewrite E2 in H3; rewrite E2; exact H3].
Qed.

Lemma update_capped (m : Match.t) (w : World) :
  0 <= Match.growthCap m -> cells_capped m ->
  Match.growthCap (fst (Match.update m w)) = Match.growthCap m
  /\ cells_capped (fst (Match.update m w)).
Proof.
  intros Hcap Hm. unfold Match.update.
  destruct (Date_now w) as [now w1].
  set (m0 := Match.with_tick (Match.tick m + 1) m).
  assert (H0 : cells_capped m0) by exact Hm.
  destruct (LobbyState_eqb (Match.state m0) COUNTDOWN).
  { destruct (10000 <=? now - Match.countdownStartTime m0)%Z;
      [|split; [reflexivity | exact H0]].
    unfold Match.startMatch. destruct (Date_now w1) as [now' w2].
    split; [reflexivity | exact H0]. }
  match goal with
  | |- context [LobbyState_eqb (Match.state ?m') SUDDEN_SHRINK] => set (m1 := m')
  end.
  assert (H1 : Match.growthCap m1 = Match.growthCap m /\ cells_capped m1).
  { unfold m1. destruct (LobbyState_eqb (Match.state m0) ACTIVE);
      [|split; [reflexivity | exact H0]].
    destruct (GAME_CONFIG.NORMAL_PHASE_MS <=? now - Match.startTime m0)%Z;
      split; (reflexivity || exact H0). }
  destruct H1 as [E1 H1].
  destruct (LobbyState_eqb (Match.state m1) SUDDEN_SHRINK).
  - destruct (GAME_CONFIG.MATCH_DURATION_MS <=? now - Match.startTime m1)%Z.
    + split; [exact E1 | exact H1].
    + match goal with
      | |- context [Match.simulate ?m' w1] =>
          destruct (simulate_capped m' w1) as [E2 H2];
            [cbn [Match.growthCap Match.with_fogRadius]; rewrite E1; exact Hcap
            | exact H1 |]
      end.
      split; [rewrite E2; exact E1 | exact H2].
  - destruct (simulate_capped m1 w1) as [E2 H2]; [rewrite E1; exact Hcap | exact H1 |].
    split; [rewrite E2; exact E1 | exact H2].
Qed.

Lemma updatePlayerInput_capped (m : Match.t) (playerId : nat) (axes : Vector2D) (b : bool) :
  cells_capped m -> cells_capped (Match.updatePlayerInput m playerId axes b).
Proof.
  intro Hm. unfold cells_capped, Match.updatePlayerInput.
  cbn [Match.growthCap Match.players Match.with_players].
  apply Forall_map. eapply Forall_impl; [|exact Hm].
  intros p Hp. destruct (id p =? playerId)%nat; exact Hp.
Qed.

Lemma play_capped (steps : list PlayStep) :
  forall m,
    0 <= Match.growthCap m -> cells_capped m ->
    Match.growthCap (play steps m) = Match.growthCap m /\ cells_capped (play steps m).
Proof.
  unfold play. induction steps as [|s steps IH]; intros m Hcap Hm; cbn [fold_left].
  - split; [reflexivity | exact Hm].
  - assert (Hs : Match.growthCap (play_step m s) = Match.growthCap m
                 /\ cells_capped (play_step m s)).
    { destruct s as [w | pid axes b | w]; cbn [play_step].
      - apply update_capped; assumption.
      - split; [reflexivity | apply updatePlayerInput_capped; exact Hm].
      - unfold Match.startMatch. destruct (Date_now w) as [now w1].
        split; [reflexivity | exact Hm]. }
    destruct Hs as [E H].
    destruct (IH (play_step m s)) as [E' H']; [rewrite E; exact Hcap | exact H |].
    split; [rewrite E'; exact E | exact H'].
Qed.

End Ticks.

(** C7: in a match built by the constructor, where the initial mass 10 is
    at most the growth cap buy_in x 5, the mass of every cell stays at most
    the growth cap: after every sequence of the operations updatePlayer,
    eatPlayer, eatPellet and applyFogDamage as the tick invokes them, and
    after every sequence of ticks and player inputs. *)
Theorem C7_mass_never_exceeds_growth_cap {M : JSMath}
        (cfg : MatchConfig) (w : World) (ops : list PhysOp) (steps : list PlayStep) :
  let m0 := fst (Match.new_Match cfg w) in
  (GAME_CONFIG.INITIAL_PLAYER_MASS <= Match.growthCap m0)%Q ->
  (Match.growthCap m0 == inject_Z (buyInCents cfg * 5))%Q
  /\ Forall (fun p => (mass p = GAME_CONFIG.INITIAL_PLAYER_MASS)%Q) (Match.players m0)
  /\ Forall (fun p => (mass p <= Match.growthCap m0)%Q)
            (run_ops (Match.growthCap m0) ops (Match.players m0))
  /\ Forall (fun p => (mass p <= Match.growthCap m0)%Q) (Match.players (play steps m0)).
Proof.
  intros m0 Hcap.
  destruct (new_Match_players cfg w) as [Hmass Hg]. fold m0 in Hmass, Hg.
  assert (H0 : (0 <= Match.growthCap m0)%Q).
  { eapply Qle_trans; [|exact Hcap]. discriminate. }
  assert (Hm0 : cells_capped m0).
  { unfold cells_capped. eapply Forall_impl; [|exact Hmass].
    intros p Hp. unfold capped. rewrite Hp. exact Hcap. }
  split.
  { rewrite Hg, inject_Z_mult. apply Qmult_comp; reflexivity. }
  split; [exact Hmass|].
  split.
  - apply run_ops_capped; assumption.
  - destruct (play_capped steps m0 H0 Hm0) as [E H].
    unfold cells_capped in H. rewrite E in H. exact H.
Qed.

(** C7 on a match of two cells on a map of radius 0, with a buy-in of 1000. *)
Lemma C7_mass_never_exceeds_growth_cap_witness :
  let cfg := mkConfig "match" "lobby" SOLO 1000 WINNER_TAKE_ALL 800 None
                      zero_seed zero_nonce "commit" 0%Q [("a", 0); ("b", 0)]%string in
  let ops := [OP_eatPellet 0 (mkPellet 9 (mkVec 0 0) 1 1 false);
              OP_updatePlayer 0 0; OP_eatPlayer 0 1; OP_applyFogDamage 1 (-1)%Q] in
  let steps := [STEP_startMatch quiet_world; STEP_update quiet_world;
                STEP_updatePlayerInput 0 (mkVec 1 0) true; STEP_update quiet_world] in
  let m0 := fst (@Match.new_Match crude_math cfg quiet_world) in
  (Match.growthCap m0 == inject_Z (1000 * 5))%Q
  /\ Forall (fun p => (mass p = GAME_CONFIG.INITIAL_PLAYER_MASS)%Q) (Match.players m0)
  /\ Forall (fun p => (mass p <= Match.growthCap m0)%Q)
            (@run_ops crude_math (Match.growthCap m0) ops (Match.players m0))
  /\ Forall (fun p => (mass p <= Match.growthCap m0)%Q)
            (Match.players (@play crude_math steps m0)).
Proof.
  intros cfg ops steps m0.
  apply (@C7_mass_never_exceeds_growth_cap crude_math cfg quiet_world ops steps).
  vm_compute. discriminate.
Defined.

(** ** Determinism of a tick *)

Section Determinism.
Context {M : JSMath}.

(** The player loop reads the clock only: it commutes with a change of the
    [Math.random()] sequence. *)
Lemma update_players_random (m : Match.t) (dt : Q) (r : nat -> Q) (ps : list Player) :
  forall w,
    Match.update_players m dt ps (with_math_random r w) =
    (fst (Match.update_players m dt ps w),
     with_math_random r (snd (Match.update_players m dt ps w))).
Proof.
  induction ps as [|p ps IH]; intro w; cbn [Match.update_players]; [reflexivity|].
  destruct (negb (isDead p) && boost p).
  - change (Date_now (with_math_random r w))
      with (fst (Date_now w), with_math_random r (snd (Date_now w))).
    destruct (Date_now w) as [now w1]. cbn [fst snd].
    rewrite IH. destruct (Match.update_players m dt ps w1) as [rest w2]. reflexivity.
  - rewrite IH. destruct (Match.update_players m dt ps w) as [rest w2]. reflexivity.
Qed.

Lemma update_players_random_reads (m : Match.t) (dt : Q) (ps : list Player) :
  forall w, random_reads (snd (Match.update_players m dt ps w)) = random_reads w
            /\ uuid_next (snd (Match.update_players m dt ps w)) = uuid_next w.
Proof.
  induction ps as [|p ps IH]; intro w; cbn [Match.update_players]; [split; reflexivity|].
  destruct (negb (isDead p) && boost p).
  - destruct (Date_now w) as [now w1] eqn:E.
    specialize (IH w1). destruct (Match.update_players m dt ps w1) as [rest w2].
    cbn [snd] in *. unfold Date_now in E. inversion E; subst. exact IH.
  - specialize (IH w). destruct (Match.update_players m dt ps w) as [rest w2]. exact IH.
Qed.

Lemma collide_pellets (m : Match.t) (ij : nat * nat) :
  Match.pellets (Match.collide m ij) = Match.pellets m
  /\ Match.state (Match.collide m ij) = Match.state m
  /\ Match.config (Match.collide m ij) = Match.config m.
Proof.
  unfold Match.collide. destruct ij as [i j].
  destruct (nth_error (Match.players m) i) as [p1|]; [|repeat split].
  destruct (nth_error (Match.players m) j) as [p2|]; [|repeat split].
  destruct (PhysicsEngine.canEat p1 p2).
  - destruct (PhysicsEngine.eatPlayer _ i j _) as [g ps].
    destruct (Qltb 0 g); repeat split.
  - destruct (PhysicsEngine.canEat p2 p1); [|repeat split].
    destruct (PhysicsEngine.eatPlayer _ j i _) as [g ps].
    destruct (Qltb 0 g); repeat split.
Qed.

Lemma collisions_pellets (l : list (nat * nat)) :
  forall m,
    Match.pellets (fold_left Match.collide l m) = Match.pellets m
    /\ Match.state (fold_left Match.collide l m) = Match.state m
    /\ Match.config (fold_left Match.collide l m) = Match.config m.
Proof.
  induction l as [|ij l IH]; intro m; cbn [fold_left]; [repeat split|].
  destruct (IH (Match.collide m ij)) as (E1 & E2 & E3).
  destruct (collide_pellets m ij) as (F1 & F2 & F3).
  rewrite E1, E2, E3, F1, F2, F3. repeat split.
Qed.

(** Eating only removes pellets, and leaves the others as they were. *)
Lemma eat_pellets_sub (P : Pellet -> Prop) (cap : Q) (qs : list Pellet) :
  forall player,
    Forall P qs ->
    Forall P (snd (Match.eat_pellets player qs cap))
    /\ (List.length (snd (Match.eat_pellets player qs cap)) <= List.length qs)%nat.
Proof.
  induction qs as [|q qs IH]; intros player Hqs; cbn [Match.eat_pellets].
  - split; [constructor | apply Nat.le_refl].
  - inversion Hqs as [|? ? Hq Hrest]; subst.
    unfold PhysicsEngine.eatPellet.
    destruct (isDead player || consumed q).
    + destruct (IH player Hrest) as [F L].
      destruct (Match.eat_pellets player qs cap) as [p' rest']. cbn [snd] in *.
      split; [constructor; assumption | simpl; lia].
    + destruct (PhysicsEngine.checkCollision _ _ _ _).
      * match goal with
        | |- context [Match.eat_pellets ?p' qs cap] =>
            destruct (IH p' Hrest) as [F L];
            destruct (Match.eat_pellets p' qs cap) as [p'' rest']
        end.
        cbn [snd] in *. split; [assumption | simpl; lia].
      * destruct (IH player Hrest) as [F L].
        destruct (Match.eat_pellets player qs cap) as [p' rest']. cbn [snd] in *.
        split; [constructor; assumption | simpl; lia].
Qed.

Lemma players_eat_pellets_sub (P : Pellet -> Prop) (cap : Q) (ps : list Player) :
  forall qs,
    Forall P qs ->
    Forall P (snd (Match.players_eat_pellets ps qs cap))
    /\ (List.length (snd (Match.players_eat_pellets ps qs cap)) <= List.length qs)%nat.
Proof.
  induction ps as [|p ps IH]; intros qs Hqs; cbn [Match.players_eat_pellets].
  - split; [exact Hqs | apply Nat.le_refl].
  - destruct (eat_pellets_sub P cap qs p Hqs) as [F L].
    destruct (Match.eat_pellets p qs cap) as [p' qs']. cbn [snd] in *.
    destruct (IH qs' F) as [F' L'].
    destruct (Match.players_eat_pellets ps qs' cap) as [rest' qs'']. cbn [snd] in *.
    split; [exact F' | lia].
Qed.

Lemma map_set_fresh {A : Type} (key : A -> nat) (v : A) (l : list A) :
  Forall (fun a => (key a < key v)%nat) l -> map_set key v l = l ++ [v].
Proof.
  induction 1 as [|a l Ha Hl IH]; simpl; [reflexivity|].
  destruct (Nat.eqb_spec (key a) (key v)) as [E|_]; [lia|]. now rewrite IH.
Qed.

(** The last statement of a tick in the active phase, with fewer than 500
    pellets and fresh uuids: one [Math.random()] decides whether a pellet is
    added. *)
Lemma respawn_active (m : Match.t) (w : World) :
  Match.state m = ACTIVE ->
  (List.length (Match.pellets m) < 500)%nat ->
  Forall (fun q => (pellet_id q < uuid_next w)%nat) (Match.pellets m) ->
  List.length (Match.pellets (fst (Match.respawn m w))) =
  if Qltb (math_random w (random_reads w)) 0.1
  then S (List.length (Match.pellets m))
  else List.length (Match.pellets m).
Proof.
  intros Hst Hlen Hfresh. unfold Match.respawn. rewrite Hst. cbn [LobbyState_eqb].
  apply Nat.ltb_lt in Hlen. rewrite Hlen.
  cbn [Math_random]. destruct (Qltb (math_random w (random_reads w)) 0.1); [|reflexivity].
  unfold Match.spawnPellet.
  match goal with
  | |- context [Match.randomPointInCircle ?a ?b] =>
      destruct (Match.randomPointInCircle a b) as [p st']
  end.
  cbn [uuidv4 uuid_next fst Match.pellets Match.with_pellets].
  rewrite map_set_fresh by exact Hfresh.
  rewrite length_app. simpl. lia.
Qed.


(** A tick's physics in the active phase: apart from the one draw that
    decides the respawn, the number of pellets does not depend on the
    [Math.random()] sequence. *)
Lemma simulate_active (m : Match.t) (w : World) :
  Match.state m = ACTIVE ->
  (List.length (Match.pellets m) < 500)%nat ->
  Forall (fun q => (pellet_id q < uuid_next w)%nat) (Match.pellets m) ->
  exists n : nat,
    forall r : nat -> Q,
      List.length (Match.pellets (fst (Match.simulate m (with_math_random r w)))) =
      if Qltb (r (random_reads w)) 0.1 then S n else n.
Proof.
  intros Hst Hlen Hfresh.
  unfold Match.simulate.
  set (dt := (1 / GAME_CONFIG.TICK_RATE)%Q).
  destruct (update_players_random_reads m dt (Match.players m) w) as [Hrr Hun].
  destruct (Match.update_players m dt (Match.players m) w) as [ps w1] eqn:Eup.
  cbn [snd] in Hrr, Hun.
  set (m1 := Match.with_players ps m).
  set (m2 := fold_left Match.collide (index_pairs_of m1) m1).
  pose proof (collisions_pellets (index_pairs_of m1) m1) as (E1 & E2 & E3).
  fold m2 in E1, E2, E3.
  assert (Hq2 : Match.pellets m2 = Match.pellets m) by (rewrite E1; reflexivity).
  assert (Hs2 : Match.state m2 = ACTIVE) by (rewrite E2; exact Hst).
  destruct (players_eat_pellets_sub (fun q => (pellet_id q < uuid_next w)%nat)
              (Match.growthCap m2) (Match.players m2) (Match.pellets m2)) as [F L].
  { rewrite Hq2. exact Hfresh. }
  destruct (Match.players_eat_pellets (Match.players m2) (Match.pellets m2)
                                      (Match.growthCap m2)) as [ps' qs'] eqn:Eeat.
  cbn [snd] in F, L.
  exists (List.length qs'). intro r.
  rewrite update_players_random, Eup. cbn [fst snd].
  fold m1. fold (index_pairs_of m1). fold m2. rewrite Eeat.
  rewrite respawn_active.
  - cbn [with_math_random math_random random_reads]. rewrite Hrr. reflexivity.
  - exact Hs2.
  - cbn [Match.pellets Match.with_pellets]. rewrite Hq2 in L. lia.
  - cbn [Match.pellets Match.with_pellets with_math_random uuid_next].
    rewrite Hun. exact F.
Qed.

End Determinism.

(** C3, evaluated on the code: two ticks of the same match in the active
    phase, with the same clock and the same uuids, end with different pellet
    positions when [Math.random()] returns less than 0.1 in one run and at
    least 0.1 in the other: the first run respawns a pellet, the second does
    not. *)
Theorem C3_respawn_depends_on_Math_random {M : JSMath}
        (m : Match.t) (w : World) (r1 r2 : nat -> Q) :
  Match.state m = ACTIVE ->
  date_now w (now_reads w) - Match.startTime m < GAME_CONFIG.NORMAL_PHASE_MS ->
  (List.length (Match.pellets m) < 500)%nat ->
  Forall (fun q => (pellet_id q < uuid_next w)%nat) (Match.pellets m) ->
  (r1 (random_reads w) < 0.1)%Q ->
  (0.1 <= r2 (random_reads w))%Q ->
  map pellet_pos (Match.pellets (fst (Match.update m (with_math_random r1 w))))
  <> map pellet_pos (Match.pellets (fst (Match.update m (with_math_random r2 w)))).
Proof.
  intros Hst Hnow Hlen Hfresh Hr1 Hr2.
  set (m1 := Match.with_tick (Match.tick m + 1) m).
  set (w' := snd (Date_now w)).
  assert (Hup : forall r,
             Match.update m (with_math_random r w) =
             Match.simulate m1 (with_math_random r w')).
  { intro r. unfold Match.update.
    cbn [Date_now with_math_random date_now now_reads math_random random_reads uuid_next].
    fold m1. 
    replace (Match.state m1) with ACTIVE by (symmetry; exact Hst).
    cbn [LobbyState_eqb].
    replace (Match.startTime m1) with (Match.startTime m) by reflexivity.
    apply Z.ltb_lt in Hnow. rewrite Z.leb_antisym, Hnow. cbn [negb].
    replace (Match.state m1) with ACTIVE by (symmetry; exact Hst).
    cbn [LobbyState_eqb]. reflexivity. }
  destruct (simulate_active m1 w') as [n Hn]; [exact Hst | exact Hlen | exact Hfresh |].
  intro Heq. apply (f_equal (@List.length _)) in Heq.
  rewrite !length_map, !Hup, !Hn in Heq.
  change (random_reads w') with (random_reads w) in Heq.
  apply Qltb_true in Hr1. apply Qltb_false in Hr2. rewrite Hr1, Hr2 in Heq. lia.
Qed.

(** ** What the seed determines *)

Section Seeded.
Context {M : JSMath}.

Lemma spawn_players_positions (cfg : MatchConfig) (l : list (string * Z)) :
  forall st ps w,
    Forall (fun p => (id p < uuid_next w)%nat) ps ->
    map pos (fst (Match.spawn_players cfg l st ps w)) =
    map pos ps ++ seeded_points (List.length l) st (mapRadius cfg * 0.7)%Q.
Proof.
  induction l as [|[uid team] l IH]; intros st ps w Hps;
    cbn [Match.spawn_players seeded_points List.length].
  - now rewrite app_nil_r.
  - destruct (Match.randomPointInCircle st (mapRadius cfg * 0.7)%Q) as [spawnPos st'].
    cbn [uuidv4]. rewrite IH.
    + rewrite map_set_fresh by exact Hps.
      rewrite map_app, <- app_assoc. reflexivity.
    + rewrite map_set_fresh by exact Hps.
      apply Forall_app. split.
      * eapply Forall_impl; [|exact Hps]. cbn. intros; lia.
      * constructor; [cbn; lia | constructor].
Qed.

Lemma spawn_pellets_positions (n : nat) :
  forall m st w,
    Forall (fun q => (pellet_id q < uuid_next w)%nat) (Match.pellets m) ->
    map pellet_pos (Match.pellets (fst (fst (Match.spawn_pellets n m st w)))) =
    map pellet_pos (Match.pellets m) ++ seeded_points n st (mapRadius (Match.config m))
    /\ Match.players (fst (fst (Match.spawn_pellets n m st w))) = Match.players m.
Proof.
  induction n as [|n IH]; intros m st w Hqs; cbn [Match.spawn_pellets seeded_points].
  - rewrite app_nil_r. split; reflexivity.
  - unfold Match.spawnPellet.
    destruct (Match.randomPointInCircle st (mapRadius (Match.config m))) as [p st'].
    cbn [uuidv4].
    match goal with
    | |- context [Match.spawn_pellets n ?m' ?s' ?w'] =>
        destruct (IH m' s' w') as [E1 E2]
    end.
    + cbn [Match.pellets Match.with_pellets uuid_next].
      rewrite map_set_fresh by exact Hqs.
      apply Forall_app. split.
      * eapply Forall_impl; [|exact Hqs]. cbn. intros; lia.
      * constructor; [cbn; lia | constructor].
    + rewrite E1, E2. cbn [Match.pellets Match.with_pellets Match.config Match.players].
      rewrite map_set_fresh by exact Hqs.
      rewrite map_app, <- app_assoc. split; reflexivity.
Qed.

(** What of the two-run statement holds: the spawn positions and the 500
    initial pellet positions of a new match are functions of the seed, the
    number of members and the map radius alone; they do not depend on the
    clock, on [Math.random()] or on the uuids drawn. *)
Lemma new_Match_positions (cfg : MatchConfig) (w : World) :
  map pos (Match.players (fst (Match.new_Match cfg w))) =
  seeded_points (List.length (config_players cfg)) (Match.seedToNumber (seed cfg))
                (mapRadius cfg * 0.7)%Q
  /\ map pellet_pos (Match.pellets (fst (Match.new_Match cfg w))) =
     seeded_points 500 (Match.seedToNumber (seed cfg)) (mapRadius cfg).
Proof.
  unfold Match.new_Match, Match.initializePlayers, Match.initializePellets.
  cbn [Match.config Match.players].
  pose proof (spawn_players_positions cfg (config_players cfg) (Match.createSeededRNG cfg)
                                      [] w (Forall_nil _)) as Hs.
  destruct (Match.spawn_players cfg (config_players cfg) (Match.createSeededRNG cfg) [] w)
    as [ps w1].
  cbn [fst map app] in Hs.
  match goal with
  | |- context [Match.spawn_pellets ?n ?m ?st ?w'] =>
      pose proof (spawn_pellets_positions n m st w' (Forall_nil _)) as [E1 E2];
      destruct (Match.spawn_pellets n m st w') as [[m2 st2] w2]
  end.
  cbn [fst] in *. rewrite E1, E2. split; [exact Hs | reflexivity].
Qed.

(** A respawned pellet is drawn from a generator created anew from the seed:
    it lands on the first point of the seeded sequence, every time. *)
Lemma spawnPellet_position (m : Match.t) (w : World) :
  Forall (fun q => (pellet_id q < uuid_next w)%nat) (Match.pellets m) ->
  map pellet_pos
      (Match.pellets (fst (fst (Match.spawnPellet m (Match.createSeededRNG (Match.config m)) w))))
  = map pellet_pos (Match.pellets m)
    ++ seeded_points 1 (Match.seedToNumber (seed (Match.config m)))
                     (mapRadius (Match.config m)).
Proof.
  intro Hqs.
  destruct (spawn_pellets_positions 1 m (Match.createSeededRNG (Match.config m)) w Hqs)
    as [E _].
  cbn [Match.spawn_pellets] in E.
  destruct (Match.spawnPellet m (Match.createSeededRNG (Match.config m)) w) as [[m' st'] w'].
  exact E.
Qed.

End Seeded.

(** ** Ledger *)

Section Ledger.
Import Sql.

Lemma existsb_same_key_None (l : list WalletTx) : existsb (same_key None) l = false.
Proof. induction l as [|r l IH]; simpl; [reflexivity | exact IH]. Qed.

Lemma storable_spec (r : WalletRow) :
  storable r = true
  <-> 0 <= available_cents r <= 9223372036854775807
      /\ 0 <= escrow_cents r <= 9223372036854775807
      /\ -2147483648 <= version r <= 2147483647.
Proof.
  unfold storable, int4, int8, wallet_checks.
  rewrite !andb_true_iff, !Z.leb_le. lia.
Qed.

(** The update of a user's rows is performed exactly when every row, once
    rewritten, can be stored. *)
Lemma row_error_storable (r' : WalletRow) : row_error r' = None <-> storable r' = true.
Proof.
  unfold row_error, storable.
  destruct (int8 (available_cents r') && int8 (escrow_cents r')); cbn [negb andb];
    [|split; discriminate].
  destruct (int4 (version r')); cbn [negb andb]; [|split; discriminate].
  destruct (wallet_checks r'); cbn [negb]; split; (reflexivity || discriminate).
Qed.

Lemma first_error_storable (rows : list WalletRow) :
  first_error rows = None <-> Forall (fun r' => storable r' = true) rows.
Proof.
  induction rows as [|r' rows IH]; cbn [first_error].
  - split; [constructor | reflexivity].
  - destruct (row_error r') as [message|] eqn:E.
    + split; [discriminate|]. intro H. inversion H as [|? ? Hr _]; subst.
      apply row_error_storable in Hr. congruence.
    + rewrite IH. split; intro H.
      * constructor; [apply row_error_storable; exact E | exact H].
      * inversion H; assumption.
Qed.

Lemma update_error_storable (ws : list WalletRow) (userId : string) (da de : Z) :
  update_error ws userId da de = None
  <-> Forall (fun r => storable (bump userId da de r) = true)
             (filter (fun r => String.eqb (wallet_user_id r) userId) ws).
Proof.
  unfold update_error. rewrite first_error_storable, Forall_map. reflexivity.
Qed.

(** What [UPDATE_wallets] does to the rows of its user and to the others. *)
Lemma bump_wallet_user_id (userId : string) (da de : Z) (r : WalletRow) :
  wallet_user_id (bump userId da de r) = wallet_user_id r.
Proof. unfold bump. destruct (String.eqb (wallet_user_id r) userId); reflexivity. Qed.

Lemma filter_bump_user (userId : string) (da de : Z) (ws : list WalletRow) :
  filter (fun r => String.eqb (wallet_user_id r) userId) (map (bump userId da de) ws)
  = map (fun r => mkWallet (wallet_user_id r) (available_cents r + da)
                           (escrow_cents r + de) (version r + 1))
        (filter (fun r => String.eqb (wallet_user_id r) userId) ws).
Proof.
  induction ws as [|r ws IH]; cbn [map filter]; [reflexivity|].
  rewrite bump_wallet_user_id.
  destruct (String.eqb (wallet_user_id r) userId) eqn:E; [|exact IH].
  cbn [map]. rewrite IH. unfold bump at 1. rewrite E. reflexivity.
Qed.


(** What [refundEscrow] does on any tables, for any amount. *)
Lemma refundEscrow_run (d : DB) (u : nat) (userId : string) (amountCents : Z)
      (matchId : string) :
  run (WalletService.refundEscrow userId amountCents matchId) d u =
  match Sql.update_error (wallets d) userId amountCents (- amountCents) with
  | None => (Ok tt, refunded d u userId amountCents matchId, S u)
  | Some message => (Err (QueryError message), d, u)
  end.
Proof.
  unfold run, WalletService.refundEscrow, db_transaction, bind, execute, view, uuid.
  cbn [committed pending next_uuid replay exec].
  destruct (Sql.update_error (wallets d) userId amountCents (- amountCents)) eqn:E;
    [reflexivity|].
  cbn [committed pending next_uuid replay exec wallets]. rewrite E.
  cbn [idempotency_key wallet_tx]. rewrite !existsb_same_key_None.
  cbn [committed pending next_uuid replay exec wallets]. rewrite E.
  cbn [idempotency_key wallet_tx]. rewrite !existsb_same_key_None.
  reflexivity.
Qed.

End Ledger.



(** ** Idempotent deposit *)

Section Deposit.
Import Sql.









End Deposit.

(** The empty string as idempotency key is taken for no key by
    [if (idempotencyKey)] but stored as a key: the first deposit succeeds and
    the second is rejected by the [UNIQUE] constraint. *)
Lemma deposit_with_the_empty_key_twice :
  let first := Sql.run (WalletService.deposit "a" 5000 (REF_method "card") (Some EmptyString)) in
  let '(r1, d1, u1) := first one_wallet 7%nat in
  let '(r2, d2, u2) := first d1 u1 in
  r1 = Ok 7%nat
  /\ r2 = Err (QueryError "duplicate key value violates unique constraint on idempotency_key")
  /\ r1 <> r2.
Proof. vm_compute. repeat apply conj; [reflexivity | reflexivity | discriminate]. Qed.




(** ** Settlement against the escrow *)

(** C2, evaluated on the code: the top-3 ladder match of two players with a
    buy-in of 1000 and 8% rake yields the payouts 1196 and 460 and the rake
    160; [settleMatch] on them takes (1196 + 460 + 160) / 2 = 908 from each
    escrow of 1000, not the buy-in: 92 stay in each escrow.  The payout is
    credited to available and one PAYOUT row is written per player. *)
Theorem C2_settle_releases_the_average_share :
  let m := finished TOP_3_LADDER 1000 800 None [("a", 200%Q); ("b", 50%Q)]%string in
  map (fun r => (res_userId r, payoutCents r)) (Match.calculateResults m)
    = [("a", 1196); ("b", 460)]%string
  /\ Match.rake m = 160
  /\ Sql.run (WalletService.settleMatch "match" [("a", 1196); ("b", 460)]%string 160)
             two_escrows 7 =
     (Ok tt,
      mkDB [mkWallet "a" 1196 92 2; mkWallet "b" 460 92 2]
           [mkTx 7 "a" PAYOUT 1196 TX_COMPLETED (REF_matchId "match") None;
            mkTx 8 "b" PAYOUT 460 TX_COMPLETED (REF_matchId "match") None;
            mkTx 9 WalletService.HOUSE_USER_ID RAKE 160 TX_COMPLETED
                 (REF_matchId "match") None]
           [] [] [],
      10%nat).
Proof. cbv zeta. repeat apply conj; vm_compute; reflexivity. Qed.

(** ** Joining a lobby *)

(** C5, evaluated on the code: a join whose membership insert fails (here a
    team number outside the range of the INT column) leaves the buy-in locked:
    [lockEscrow] has committed in a transaction of its own, so available stays
    reduced, escrow stays raised and the ESCROW_LOCK row stays, while no
    membership row is written.  A join that fails in [lockEscrow] itself
    leaves the tables unchanged. *)
Theorem C5_failed_insert_leaves_the_escrow_locked :
  Sql.run (LobbyService.joinLobby "lobby" "a" 2147483648) open_lobby 7 =
    (Err (QueryError "integer out of range"),
     mkDB [mkWallet "a" 500 500 1; mkWallet "b" 0 0 0]
          [mkTx 7 "a" ESCROW_LOCK 500 TX_COMPLETED (REF_matchId "lobby") None]
          [mkLobby "lobby" SOLO 500 WINNER_TAKE_ALL WAITING 800 None] [] [],
     8%nat)
  /\ Sql.run (LobbyService.joinLobby "lobby" "b" 0) open_lobby 7 =
    (Err (Thrown "Insufficient balance for buy-in"), open_lobby, 7%nat).
Proof. repeat apply conj; vm_compute; reflexivity. Qed.

Section Join.
Import Sql.
Local Open Scope tx_scope.

Lemma own_client_ret {A : Type} (a : A) : own_client (ret a).
Proof. intro c. reflexivity. Qed.

Lemma own_client_throw {A : Type} (msg : string) : own_client (@throw A msg).
Proof. intro c. reflexivity. Qed.

Lemma own_client_select {A : Type} (f : DB -> A) : own_client (select f).
Proof. intro c. unfold select. destruct (view c); reflexivity. Qed.

Lemma own_client_execute (st : Stmt) : own_client (execute st).
Proof.
  intro c. unfold execute. destruct (view c) as [d|e]; [|reflexivity].
  destruct (exec st d); reflexivity.
Qed.

Lemma own_client_uuid : own_client uuid.
Proof. intro c. reflexivity. Qed.

Lemma own_client_bind {A B : Type} (m : Tx A) (k : A -> Tx B) :
  own_client m -> (forall a, own_client (k a)) -> own_client (bind m k).
Proof.
  intros Hm Hk c. unfold bind. specialize (Hm c).
  destruct (m c) as [[a|e] c1]; cbn [snd] in *.
  - rewrite (Hk a c1). exact Hm.
  - exact Hm.
Qed.

(** A transaction hands the connection back with the caller's own pending
    statements; when it fails, over a callback that stays on its own client,
    the committed tables are those it started from. *)
Lemma db_transaction_pending {A : Type} (callback : Tx A) (c : Conn) :
  pending (snd (db_transaction callback c)) = pending c.
Proof.
  unfold db_transaction.
  destruct (callback _) as [[a|e] c1]; [|reflexivity].
  destruct (view c1); reflexivity.
Qed.

Lemma db_transaction_rollback {A : Type} (callback : Tx A) (c : Conn) (e : Error) (c' : Conn) :
  own_client callback ->
  db_transaction callback c = (Err e, c') ->
  committed c' = committed c.
Proof.
  intros Hown. unfold db_transaction.
  pose proof (Hown (mkConn (committed c) [] (next_uuid c))) as Hc.
  destruct (callback _) as [[a|e1] c1]; cbn [snd committed] in Hc.
  - destruct (view c1); intro H; inversion H; subst. exact Hc.
  - intro H. inversion H; subst. exact Hc.
Qed.

(** A failed [lockEscrow] changes nothing. *)
Lemma lockEscrow_failure (userId : string) (amountCents : Z) (matchId : string)
      (c : Conn) (e : Error) (c' : Conn) :
  WalletService.lockEscrow userId amountCents matchId c = (Err e, c') ->
  committed c' = committed c.
Proof.
  unfold WalletService.lockEscrow.
  destruct (amountCents <=? 0).
  { unfold throw. intro H. inversion H. reflexivity. }
  apply db_transaction_rollback.
  apply own_client_bind; [apply own_client_select|].
  intros [|available rest]; [apply own_client_throw|].
  destruct (available <? amountCents); [apply own_client_throw|].
  apply own_client_bind; [apply own_client_execute|]. intros _.
  apply own_client_bind; [apply own_client_uuid|]. intros txId.
  apply own_client_execute.
Qed.

Lemma lockEscrow_pending (userId : string) (amountCents : Z) (matchId : string) (c : Conn) :
  pending (snd (WalletService.lockEscrow userId amountCents matchId c)) = pending c.
Proof.
  unfold WalletService.lockEscrow.
  destruct (amountCents <=? 0); [reflexivity|].
  apply db_transaction_pending.
Qed.

(** Every way [joinLobby] can fail: either the tables are unchanged, or the
    escrow lock had succeeded and its effects (the locked buy-in and the
    ESCROW_LOCK row) are all that remains, the membership insert having been
    rejected. *)
Lemma joinLobby_failure (lobbyId userId : string) (teamNo : Z)
      (d : DB) (u : nat) (e : Error) (d' : DB) (u' : nat) :
  run (LobbyService.joinLobby lobbyId userId teamNo) d u = (Err e, d', u') ->
  d' = d
  \/ exists buyIn,
       run (WalletService.lockEscrow userId buyIn lobbyId) d u = (Ok tt, d', u')
       /\ exec (INSERT_lobby_players (mkLobbyPlayer lobbyId userId teamNo)) d' = Err e.
Proof.
  unfold run, LobbyService.joinLobby, db_transaction.
  unfold bind at 1. unfold select at 1. unfold view at 1.
  cbn [committed pending next_uuid replay].
  destruct (filter _ (lobbies d)) as [|lobbyData rest].
  { unfold throw. intro H. inversion H. left; reflexivity. }
  destruct (negb (LobbyState_eqb (lobby_state lobbyData) WAITING)).
  { unfold throw. intro H. inversion H. left; reflexivity. }
  unfold bind at 1. unfold select at 1. unfold view at 1.
  cbn [committed pending next_uuid replay].
  destruct (filter _ (lobby_players d)) as [|row rows];
    [|unfold throw; intro H; inversion H; left; reflexivity].
  unfold bind at 1. unfold select at 1. unfold view at 1.
  cbn [committed pending next_uuid replay].
  destruct (_ <=? _).
  { unfold throw. intro H. inversion H. left; reflexivity. }
  unfold bind at 1.
  pose proof (lockEscrow_failure userId (buy_in_cents lobbyData) lobbyId
                                 (mkConn d [] u)) as Hfail.
  pose proof (lockEscrow_pending userId (buy_in_cents lobbyData) lobbyId
                                 (mkConn d [] u)) as Hpend.
  destruct (WalletService.lockEscrow userId (buy_in_cents lobbyData) lobbyId
                                     (mkConn d [] u)) as [[[]|e1] c1] eqn:Elock.
  - destruct c1 as [dc pc uc]. cbn [snd pending] in Hpend. subst pc.
    unfold bind at 1. unfold execute at 1. unfold view at 1 2.
    cbn [committed pending next_uuid replay].
    destruct (exec _ dc) as [d2|e2] eqn:Eins.
    + cbn [bind uuid ret]. unfold bind, uuid, ret, view.
      cbn [committed pending next_uuid replay]. rewrite Eins.
      intro H. inversion H.
    + cbn [committed pending next_uuid]. intro H. inversion H; subst.
      right. exists (buy_in_cents lobbyData). rewrite Elock.
      split; [reflexivity | exact Eins].
  - intro H. inversion H; subst. left. apply (Hfail _ _ eq_refl).
Qed.

End Join.

(** ** The respawn, run from the constructor on *)

Lemma C3_respawn_depends_on_Math_random_witness :
  let m := fst demo_after_one_tick in
  let w := snd demo_after_one_tick in
  map pellet_pos
      (Match.pellets (fst (@Match.update crude_math m (with_math_random (fun _ => 0%Q) w))))
  <> map pellet_pos
         (Match.pellets (fst (@Match.update crude_math m
                                            (with_math_random (fun _ => 0.5%Q) w)))).
Proof.
  apply (@C3_respawn_depends_on_Math_random crude_math).
  - reflexivity.
  - reflexivity.
  - cbn. lia.
  - constructor.
  - reflexivity.
  - discriminate.
Defined.

(* ================================================================== *)
(** * Further properties of the code                                  *)
(* ================================================================== *)

(** ** The results of a match: ranking *)

Section Ranking.

Lemma sort_insert_perm a l : Permutation (a :: l) (Match.sort_insert a l).
Proof.
  induction l as [|b l IH]; simpl; [apply Permutation_refl|].
  destruct (Qltb 0 (snd (fst b) - snd (fst a))).
  - eapply perm_trans; [apply perm_swap|]. apply perm_skip. exact IH.
  - apply Permutation_refl.
Qed.

Lemma sort_by_mass_perm l : Permutation l (Match.sort_by_mass l).
Proof.
  unfold Match.sort_by_mass. induction l as [|a l IH]; simpl; [constructor|].
  eapply perm_trans; [apply perm_skip; exact IH|]. apply sort_insert_perm.
Qed.

Lemma sort_insert_sorted a l :
  StronglySorted outranks l -> StronglySorted outranks (Match.sort_insert a l).
Proof.
  induction 1 as [|b l Hl IH Hb]; simpl.
  - constructor; constructor.
  - destruct (Qltb 0 (snd (fst b) - snd (fst a))) eqn:E.
    + apply Qltb_true in E. constructor; [exact IH|].
      apply sort_insert_Forall; [|exact Hb].
      unfold outranks, entry_mass. lra.
    + apply Qltb_false in E.
      assert (Hab : outranks a b) by (unfold outranks, entry_mass; lra).
      constructor; [constructor; assumption|].
      constructor; [exact Hab|].
      eapply Forall_impl; [|exact Hb].
      intros c Hc. unfold outranks in *. lra.
Qed.

Lemma sort_by_mass_sorted l : StronglySorted outranks (Match.sort_by_mass l).
Proof.
  unfold Match.sort_by_mass. induction l as [|a l IH]; simpl; [constructor|].
  apply sort_insert_sorted. exact IH.
Qed.

(** Insertion puts [a] behind the strictly heavier entries only. *)
Lemma sort_insert_split a l :
  exists pre suf,
    Match.sort_insert a l = pre ++ a :: suf /\ l = pre ++ suf
    /\ Forall (fun b => (entry_mass a < entry_mass b)%Q) pre.
Proof.
  induction l as [|b l (pre & suf & E1 & E2 & F)]; simpl.
  - exists [], []. repeat split. constructor.
  - destruct (Qltb 0 (snd (fst b) - snd (fst a))) eqn:E.
    + apply Qltb_true in E. exists (b :: pre), suf. rewrite E1, E2.
      repeat split. constructor; [unfold entry_mass; lra | exact F].
    + exists [], (b :: l). repeat split. constructor.
Qed.

Lemma filter_lighter_nil (v : Q) (a : string * Q * Q) (pre : list (string * Q * Q)) :
  (entry_mass a == v)%Q ->
  Forall (fun b => (entry_mass a < entry_mass b)%Q) pre ->
  filter (fun e => Qeq_bool (entry_mass e) v) pre = [].
Proof.
  intros Hv. induction 1 as [|b pre Hb Hpre IH]; simpl; [reflexivity|].
  destruct (Qeq_bool (entry_mass b) v) eqn:E; [|exact IH].
  apply Qeq_bool_iff in E. exfalso. lra.
Qed.

Lemma sort_insert_filter (v : Q) a l :
  filter (fun e => Qeq_bool (entry_mass e) v) (Match.sort_insert a l) =
  filter (fun e => Qeq_bool (entry_mass e) v) (a :: l).
Proof.
  destruct (sort_insert_split a l) as (pre & suf & E1 & E2 & F).
  rewrite E1, E2. cbn [filter]. rewrite !filter_app. cbn [filter].
  destruct (Qeq_bool (entry_mass a) v) eqn:E; [|reflexivity].
  apply Qeq_bool_iff in E. rewrite (filter_lighter_nil v a pre E F). reflexivity.
Qed.

Lemma sort_by_mass_filter (v : Q) l :
  filter (fun e => Qeq_bool (entry_mass e) v) (Match.sort_by_mass l) =
  filter (fun e => Qeq_bool (entry_mass e) v) l.
Proof.
  unfold Match.sort_by_mass. induction l as [|a l IH]; [reflexivity|].
  cbn [fold_right]. rewrite sort_insert_filter. cbn [filter]. rewrite IH. reflexivity.
Qed.

(** The results are the sorted entries, numbered from 1. *)
Lemma results_entries (pay : list Z) (l : list (string * Q * Q)) (k : nat) :
  map entry_of
      (Match.mapi (fun p i => mkResult (fst (fst p)) (Z.of_nat i + 1) (snd (fst p)) (snd p)
                                       (nth i pay 0)) k l) = l
  /\ map placement
      (Match.mapi (fun p i => mkResult (fst (fst p)) (Z.of_nat i + 1) (snd (fst p)) (snd p)
                                       (nth i pay 0)) k l)
     = map (fun i => Z.of_nat i + 1) (seq k (List.length l)).
Proof.
  revert k. induction l as [|[[u f] mx] l IH]; intro k; cbn [Match.mapi map seq List.length].
  - split; reflexivity.
  - destruct (IH (S k)) as [E1 E2]. rewrite E1, E2. split; reflexivity.
Qed.

Lemma calculateResults_entries (m : Match.t) :
  map entry_of (Match.calculateResults m) =
  Match.sort_by_mass (map (fun p => (userId p, mass p, mass p)) (Match.players m)).
Proof. unfold Match.calculateResults. apply results_entries. Qed.

Lemma StronglySorted_map {A B : Type} (R : B -> B -> Prop) (f : A -> B) (l : list A) :
  StronglySorted R (map f l) -> StronglySorted (fun a b => R (f a) (f b)) l.
Proof.
  induction l as [|a l IH]; simpl; intro H; [constructor|].
  inversion H as [|? ? Hs Hf]; subst. constructor; [apply IH; exact Hs|].
  rewrite Forall_map in Hf. exact Hf.
Qed.

End Ranking.

(** X1: Match.calculateResults returns one result per cell of the match: the
    (userId, finalMass) pairs are a permutation of the cells' (userId, mass)
    pairs, the placements are 1, 2, ..., n in list order, final masses never
    increase along the list, and maxMass always equals finalMass. *)
Theorem X1_results_rank_the_players_by_final_mass (m : Match.t) :
  let rs := Match.calculateResults m in
  Permutation (map (fun p => (userId p, mass p)) (Match.players m))
              (map (fun r => (res_userId r, finalMass r)) rs)
  /\ map placement rs = placements (List.length (Match.players m))
  /\ StronglySorted (fun a b => (finalMass b <= finalMass a)%Q) rs
  /\ Forall (fun r => maxMass r = finalMass r) rs.
Proof.
  intro rs.
  pose proof (calculateResults_entries m) as He. fold rs in He.
  set (es := map (fun p => (userId p, mass p, mass p)) (Match.players m)) in *.
  repeat apply conj.
  - replace (map (fun r => (res_userId r, finalMass r)) rs)
      with (map fst (map entry_of rs)) by (rewrite map_map; reflexivity).
    replace (map (fun p => (userId p, mass p)) (Match.players m))
      with (map fst es) by (unfold es; rewrite map_map; reflexivity).
    rewrite He. apply Permutation_map. apply sort_by_mass_perm.
  - unfold rs, Match.calculateResults.
    match goal with
    | |- context [Match.mapi _ 0 ?l] => set (sorted := l)
    end.
    rewrite (proj2 (results_entries _ sorted 0)).
    unfold sorted, placements. rewrite sort_by_mass_length, length_map. reflexivity.
  - pose proof (sort_by_mass_sorted es) as Hs. rewrite <- He in Hs.
    apply StronglySorted_map in Hs. exact Hs.
  - assert (Hall : Forall (fun e : string * Q * Q => snd e = snd (fst e)) (map entry_of rs)).
    { rewrite He. apply sort_by_mass_Forall. unfold es. rewrite Forall_map.
      apply Forall_forall. intros; reflexivity. }
    rewrite Forall_map in Hall. exact Hall.
Qed.

(** X2: Cells of equal final mass keep, in the results of calculateResults,
    the order they have in the match's player map: for every mass v, the users
    whose final mass is v are listed in the order of the player list. *)
Theorem X2_equal_masses_keep_the_order_of_the_player_list (m : Match.t) (v : Q) :
  map res_userId (filter (fun r => Qeq_bool (finalMass r) v) (Match.calculateResults m)) =
  map userId (filter (fun p => Qeq_bool (mass p) v) (Match.players m)).
Proof.
  pose proof (calculateResults_entries m) as He.
  set (rs := Match.calculateResults m) in *.
  assert (E1 : map res_userId (filter (fun r => Qeq_bool (finalMass r) v) rs) =
               map (fun e => fst (fst e))
                   (filter (fun e => Qeq_bool (entry_mass e) v) (map entry_of rs))).
  { clear He. induction rs as [|r rs IH]; [reflexivity|].
    cbn [map filter]. unfold entry_mass at 1. cbn [entry_of fst snd].
    destruct (Qeq_bool (finalMass r) v); cbn [map]; rewrite IH; reflexivity. }
  rewrite E1, He, sort_by_mass_filter. clear He E1.
  induction (Match.players m) as [|p ps IH]; [reflexivity|].
  cbn [map filter]. unfold entry_mass at 1. cbn [fst snd].
  destruct (Qeq_bool (mass p) v); cbn [map]; rewrite IH; reflexivity.
Qed.

(** ** The results of a match: payouts *)

Section PayoutOrder.

Lemma netPot_nonneg (m : Match.t) :
  0 <= buyInCents (Match.config m) -> rakeBps (Match.config m) <= 10000 ->
  0 <= Match.netPot m.
Proof.
  intros Hbuy Hbps. pose proof (rake_le_pot m Hbuy Hbps). unfold Match.netPot. lia.
Qed.

(** A [map] with a callback that looks at the index only. *)
Lemma mapi_index {A B : Type} (g : nat -> B) (l : list A) :
  forall k, Match.mapi (fun _ i => g i) k l = map g (seq k (List.length l)).
Proof.
  induction l as [|a l IH]; intro k; cbn [Match.mapi List.length seq map]; [reflexivity|].
  now rewrite IH.
Qed.

Lemma antitone_sorted (g : nat -> Z) (n : nat) :
  (forall i j, (i <= j)%nat -> g j <= g i) ->
  forall k, StronglySorted (fun a b => b <= a) (map g (seq k n)).
Proof.
  intro Hg. induction n as [|n IH]; intro k; cbn [seq map]; constructor.
  - apply IH.
  - rewrite Forall_map. apply Forall_forall. intros j Hj.
    apply in_seq in Hj. apply Hg. lia.
Qed.

Lemma ladder_steps (N : Z) :
  0 <= N ->
  0 <= N * 1 / 10 /\ N * 1 / 10 <= N * 25 / 100
  /\ N * 25 / 100 <= N * 65 / 100 /\ N * 65 / 100 <= N.
Proof.
  intro HN.
  repeat apply conj.
  - apply Z.div_pos; lia.
  - apply Z.div_le_lower_bound; [lia|].
    pose proof (Z.mul_div_le (N * 1) 10 ltac:(lia)). lia.
  - apply Z.div_le_mono; lia.
  - apply Z.div_le_upper_bound; lia.
Qed.

Lemma mass_le_total (l : list (string * Q * Q)) (p : string * Q * Q) :
  Forall (fun e => (0 <= entry_mass e)%Q) l -> In p l ->
  (entry_mass p <= fold_right (fun e s => snd (fst e) + s) 0 l)%Q.
Proof.
  induction 1 as [|e l He Hl IH]; intros Hin; [destruct Hin|].
  assert (Hs : (0 <= fold_right (fun e s => snd (fst e) + s) 0 l)%Q).
  { clear IH Hin. induction Hl as [|e' l' He' Hl' IH']; cbn [fold_right]; [lra|].
    unfold entry_mass in He'. lra. }
  cbn [fold_right]. unfold entry_mass in *. destruct Hin as [E | Hin].
  - subst. lra.
  - specialize (IH Hin). lra.
Qed.

Lemma inject_Z_nonneg (N : Z) : 0 <= N -> (0 <= inject_Z N)%Q.
Proof. intro H. change 0%Q with (inject_Z 0). rewrite <- Zle_Qle. exact H. Qed.

Lemma share_bounds (mq T : Q) (N : Z) :
  (0 < T)%Q -> (0 <= mq)%Q -> (mq <= T)%Q -> 0 <= N ->
  0 <= Qfloor ((mq / T) * inject_Z N) <= N.
Proof.
  intros HT H0 H1 HN.
  assert (Hr0 : (0 <= mq / T)%Q).
  { apply Qle_shift_div_l; [exact HT | lra]. }
  assert (Hr1 : (mq / T <= 1)%Q).
  { apply Qle_shift_div_r; [exact HT | lra]. }
  pose proof (inject_Z_nonneg N HN) as HNq.
  split.
  - change 0 with (Qfloor (inject_Z 0)). apply Qfloor_resp_le.
    apply Qmult_le_0_compat; assumption.
  - rewrite <- (Qfloor_Z N) at 2. apply Qfloor_resp_le.
    setoid_replace (inject_Z N) with (1 * inject_Z N)%Q at 2 by ring.
    apply Qmult_le_compat_r; assumption.
Qed.

Lemma share_mono (a b T : Q) (N : Z) :
  (0 < T)%Q -> (b <= a)%Q -> 0 <= N ->
  Qfloor ((b / T) * inject_Z N) <= Qfloor ((a / T) * inject_Z N).
Proof.
  intros HT Hab HN. apply Qfloor_resp_le.
  pose proof (inject_Z_nonneg N HN) as HNq.
  apply Qmult_le_compat_r; [|exact HNq].
  unfold Qdiv. apply Qmult_le_compat_r; [exact Hab|].
  apply Qlt_le_weak. apply Qinv_lt_0_compat. exact HT.
Qed.

Lemma sorted_map_mono (h : string * Q * Q -> Z) (l : list (string * Q * Q)) :
  (forall a b, outranks a b -> h b <= h a) ->
  StronglySorted outranks l ->
  StronglySorted (fun a b => b <= a) (map h l).
Proof.
  intros Hh. induction 1 as [|a l Hl IH Ha]; cbn [map]; constructor; [exact IH|].
  rewrite Forall_map. eapply Forall_impl; [|exact Ha]. intros b Hb. apply Hh. exact Hb.
Qed.

Lemma payouts_descend (m : Match.t) (l : list (string * Q * Q)) :
  0 <= Match.netPot m -> StronglySorted outranks l ->
  StronglySorted (fun a b => b <= a) (Match.payouts m l).
Proof.
  intros HN Hl. unfold Match.payouts.
  destruct (payoutModel (Match.config m)).
  - rewrite (mapi_index (fun i => if (i =? 0)%nat then Match.netPot m else 0)).
    apply antitone_sorted. intros i j Hij.
    destruct i; destruct j; cbn [Nat.eqb]; lia.
  - rewrite (mapi_index (fun i => ladder (Qfloor (inject_Z (Match.netPot m) * 0.65))
                                         (Qfloor (inject_Z (Match.netPot m) * 0.25))
                                         (Qfloor (inject_Z (Match.netPot m) * 0.1)) i)).
    apply antitone_sorted. intros i j Hij.
    rewrite floor_065, floor_025, floor_01.
    pose proof (ladder_steps (Match.netPot m) HN) as (H1 & H2 & H3 & H4).
    unfold ladder.
    destruct i as [|[|[|i]]]; destruct j as [|[|[|j]]]; cbn [Nat.eqb]; lia.
  - set (T := fold_left _ l 0%Q).
    destruct (Qltb 0 T) eqn:Ht.
    + apply Qltb_true in Ht. apply sorted_map_mono; [|exact Hl].
      intros a b Hab. apply share_mono; assumption.
    + apply sorted_map_mono; [|exact Hl]. intros; lia.
Qed.

Lemma payouts_bounds (m : Match.t) (l : list (string * Q * Q)) :
  0 <= Match.netPot m -> Forall (fun e => (0 <= entry_mass e)%Q) l ->
  Forall (fun z => 0 <= z <= Match.netPot m) (Match.payouts m l).
Proof.
  intros HN Hl. unfold Match.payouts.
  destruct (payoutModel (Match.config m)).
  - rewrite (mapi_index (fun i => if (i =? 0)%nat then Match.netPot m else 0)).
    rewrite Forall_map. apply Forall_forall. intros i _. destruct (i =? 0)%nat; lia.
  - rewrite (mapi_index (fun i => ladder (Qfloor (inject_Z (Match.netPot m) * 0.65))
                                         (Qfloor (inject_Z (Match.netPot m) * 0.25))
                                         (Qfloor (inject_Z (Match.netPot m) * 0.1)) i)).
    rewrite Forall_map. apply Forall_forall. intros i _.
    rewrite floor_065, floor_025, floor_01.
    pose proof (ladder_steps (Match.netPot m) HN) as (H1 & H2 & H3 & H4).
    unfold ladder. destruct i as [|[|[|i]]]; cbn [Nat.eqb]; lia.
  - set (T := fold_left _ l 0%Q).
    assert (ET : (T == fold_right (fun e s => snd (fst e) + s) 0 l)%Q).
    { unfold T. rewrite totalMass_fold. ring. }
    rewrite Forall_map. apply Forall_forall. intros p Hp.
    destruct (Qltb 0 T) eqn:Ht; [|lia].
    apply Qltb_true in Ht.
    apply share_bounds; [exact Ht | | | exact HN].
    + rewrite Forall_forall in Hl. apply (Hl p Hp).
    + rewrite ET. apply mass_le_total; assumption.
Qed.

End PayoutOrder.

(** X3: With a buy-in of at least 0, a rakeBps of at most 10000 and no cell of
    negative mass, every payout calculateResults computes lies between 0 and
    the net pot, under each payout model. *)
Theorem X3_every_payout_lies_between_zero_and_the_net_pot (m : Match.t) :
  0 <= buyInCents (Match.config m) ->
  rakeBps (Match.config m) <= 10000 ->
  Forall (fun p => (0 <= mass p)%Q) (Match.players m) ->
  Forall (fun r => 0 <= payoutCents r <= Match.netPot m) (Match.calculateResults m).
Proof.
  intros Hbuy Hbps Hmass.
  apply (proj1 (Forall_map payoutCents (fun z => 0 <= z <= Match.netPot m) _)).
  rewrite payoutCents_calculateResults.
  apply payouts_bounds; [apply netPot_nonneg; assumption|].
  apply sort_by_mass_Forall. rewrite Forall_map.
  eapply Forall_impl; [|exact Hmass]. intros p Hp. exact Hp.
Qed.

Lemma X3_every_payout_lies_between_zero_and_the_net_pot_witness :
  let m := finished PROPORTIONAL 1000 800 None
                    [("a", 11%Q); ("b", 10%Q); ("c", 10%Q)]%string in
  Forall (fun r => 0 <= payoutCents r <= Match.netPot m) (Match.calculateResults m).
Proof.
  apply X3_every_payout_lies_between_zero_and_the_net_pot.
  - vm_compute. discriminate.
  - vm_compute. discriminate.
  - repeat constructor; vm_compute; discriminate.
Defined.

(** X4: With a buy-in of at least 0 and a rakeBps of at most 10000, the
    payouts of calculateResults never increase down the result list: a better
    placement is never paid less, under each payout model. *)
Theorem X4_a_better_placement_never_pays_less (m : Match.t) :
  0 <= buyInCents (Match.config m) ->
  rakeBps (Match.config m) <= 10000 ->
  StronglySorted (fun a b => payoutCents b <= payoutCents a) (Match.calculateResults m).
Proof.
  intros Hbuy Hbps.
  apply (StronglySorted_map (fun a b => b <= a) payoutCents).
  rewrite payoutCents_calculateResults.
  apply payouts_descend; [apply netPot_nonneg; assumption | apply sort_by_mass_sorted].
Qed.

Lemma X4_a_better_placement_never_pays_less_witness :
  StronglySorted (fun a b => payoutCents b <= payoutCents a)
    (Match.calculateResults
       (finished TOP_3_LADDER 1000 800 None
                 [("a", 5%Q); ("b", 50%Q); ("c", 7%Q); ("d", 7%Q)]%string)).
Proof.
  apply X4_a_better_placement_never_pays_less; vm_compute; discriminate.
Defined.

(** ** What play does to cells and pellets *)

Section Cells.
Context {M : JSMath}.
Local Open Scope Q_scope.

Lemma evolves_same (p p' : Player) :
  identity p' = identity p -> kills p' = kills p -> isDead p' = isDead p ->
  mass p' = mass p -> evolves p p'.
Proof.
  intros Hi Hk Hd Hm. split; [exact Hi|]. split; [rewrite Hk; apply Z.le_refl|].
  intro H. split; [congruence|]. split; assumption.
Qed.

Lemma evolves_refl (p : Player) : evolves p p.
Proof. apply evolves_same; reflexivity. Qed.

Lemma evolves_trans (p q r : Player) : evolves p q -> evolves q r -> evolves p r.
Proof.
  intros (I1 & K1 & D1) (I2 & K2 & D2).
  split; [congruence|]. split; [lia|].
  intro H. destruct (D1 H) as (A & B & C). destruct (D2 A) as (A' & B' & C').
  split; [exact A'|]. split; congruence.
Qed.

Lemma Forall2_evolves_refl (l : list Player) : Forall2 evolves l l.
Proof. induction l; constructor; [apply evolves_refl | assumption]. Qed.

Lemma Forall2_evolves_trans (l1 l2 l3 : list Player) :
  Forall2 evolves l1 l2 -> Forall2 evolves l2 l3 -> Forall2 evolves l1 l3.
Proof.
  intro H. revert l3. induction H as [|a b l1 l2 Hab H IH]; intros l3 H3.
  - inversion H3. constructor.
  - inversion H3 as [|? c ? l3' Hbc H3']; subst. constructor.
    + eapply evolves_trans; eassumption.
    + apply IH. exact H3'.
Qed.

(** A live cell may become anything that is the same cell with no fewer
    kills. *)
Lemma evolves_alive (p p' : Player) :
  isDead p = false -> identity p' = identity p -> (kills p <= kills p')%Z -> evolves p p'.
Proof.
  intros Ha Hi Hk. split; [exact Hi|]. split; [exact Hk|]. intro H. congruence.
Qed.

Lemma upd_at {A : Type} (R : A -> A -> Prop) (f : A -> A) (l : list A) :
  (forall a, R a a) ->
  forall i a, nth_error l i = Some a -> R a (f a) -> Forall2 R l (upd i f l).
Proof.
  intro Hrefl. induction l as [|b l IH]; intros i a Hnth Hf.
  - destruct i; discriminate.
  - destruct i; cbn [upd nth_error] in *.
    + inversion Hnth; subst. constructor; [exact Hf|].
      clear - Hrefl. induction l; constructor; auto.
    + constructor; [apply Hrefl | eapply IH; eassumption].
Qed.

Lemma nth_error_upd {A : Type} (f : A -> A) (l : list A) :
  forall i j, nth_error (upd i f l) j =
              if (i =? j)%nat then option_map f (nth_error l j) else nth_error l j.
Proof.
  induction l as [|b l IH]; intros i j.
  - cbn [upd]. destruct j; destruct (i =? _)%nat; reflexivity.
  - destruct i, j; cbn [upd nth_error Nat.eqb option_map]; try reflexivity.
    apply IH.
Qed.

Lemma upd_Forall_at {A : Type} (P : A -> Prop) (f : A -> A) (l : list A) :
  forall i a, nth_error l i = Some a -> P (f a) -> Forall P l -> Forall P (upd i f l).
Proof.
  induction l as [|b l IH]; intros i a Hnth Hf Hl; [constructor|].
  inversion Hl as [|? ? Hb Hl']; subst.
  destruct i; cbn [upd nth_error] in *.
  - inversion Hnth; subst. constructor; assumption.
  - constructor; [exact Hb | eapply IH; eassumption].
Qed.

(** *** The four operations on one cell *)

Lemma updatePlayer_evolves (p : Player) (dt : Q) (now : Z) :
  evolves p (PhysicsEngine.updatePlayer p dt now).
Proof.
  unfold PhysicsEngine.updatePlayer. destruct (isDead p) eqn:E; [apply evolves_refl|].
  apply evolves_alive; [exact E | reflexivity | apply Z.le_refl].
Qed.

Lemma constrainToMap_evolves (p : Player) (r : Q) :
  evolves p (PhysicsEngine.constrainToMap p r).
Proof.
  unfold PhysicsEngine.constrainToMap. destruct (Qltb r _); [|apply evolves_refl].
  apply evolves_same; reflexivity.
Qed.

Lemma applyFogDamage_evolves (p : Player) (fog dt : Q) :
  evolves p (PhysicsEngine.applyFogDamage p fog dt).
Proof.
  unfold PhysicsEngine.applyFogDamage. destruct (isDead p) eqn:E; [apply evolves_refl|].
  destruct (Qltb fog _); [|apply evolves_refl].
  apply evolves_alive; [exact E | reflexivity | apply Z.le_refl].
Qed.

Lemma eatPellet_evolves (p : Player) (q : Pellet) (cap : Q) :
  evolves p (snd (fst (PhysicsEngine.eatPellet p q cap))).
Proof.
  unfold PhysicsEngine.eatPellet.
  destruct (isDead p) eqn:E; cbn [orb]; [apply evolves_refl|].
  destruct (consumed q); [apply evolves_refl|].
  destruct (PhysicsEngine.checkCollision _ _ _ _); [|apply evolves_refl].
  apply evolves_alive; [exact E | reflexivity | apply Z.le_refl].
Qed.

Lemma canEat_alive (e t : Player) :
  PhysicsEngine.canEat e t = true -> isDead e = false /\ isDead t = false.
Proof.
  unfold PhysicsEngine.canEat.
  destruct (isDead e); destruct (isDead t); cbn [orb]; try discriminate.
  split; reflexivity.
Qed.

Lemma eatPlayer_evolves (ps : list Player) (e t : nat) (cap : Q) :
  Forall2 evolves ps (snd (PhysicsEngine.eatPlayer ps e t cap)).
Proof.
  unfold PhysicsEngine.eatPlayer.
  destruct (nth_error ps e) as [pe|] eqn:Ee; [|apply Forall2_evolves_refl].
  destruct (nth_error ps t) as [pt|] eqn:Et; [|apply Forall2_evolves_refl].
  destruct (PhysicsEngine.canEat pe pt) eqn:Ec; cbn [negb]; [|apply Forall2_evolves_refl].
  destruct (PhysicsEngine.checkCollision _ _ _ _); cbn [negb snd];
    [|apply Forall2_evolves_refl].
  destruct (canEat_alive _ _ Ec) as [Ae At].
  set (f := PhysicsEngine.set_eaten_mass _).
  eapply Forall2_evolves_trans.
  - apply (upd_at evolves f ps evolves_refl e pe Ee).
    apply evolves_alive; [exact Ae | reflexivity | cbn; lia].
  - pose proof (nth_error_upd f ps e t) as Hn. rewrite Et in Hn. cbn [option_map] in Hn.
    destruct (e =? t)%nat.
    + apply (upd_at evolves PhysicsEngine.set_killed _ evolves_refl t (f pt) Hn).
      apply evolves_alive; [exact At | reflexivity | apply Z.le_refl].
    + apply (upd_at evolves PhysicsEngine.set_killed _ evolves_refl t pt Hn).
      apply evolves_alive; [exact At | reflexivity | apply Z.le_refl].
Qed.

(** *** Masses *)

Lemma Math_min_pos (a b : Q) : 0 < a -> 0 < b -> 0 < Math_min a b.
Proof. intros Ha Hb. unfold Math_min. destruct (Qle_bool a b); assumption. Qed.

Lemma Math_max_0 (a : Q) : 0 <= Math_max 0 a.
Proof.
  unfold Math_max. destruct (Qle_bool 0 a) eqn:E; [|apply Qle_refl].
  apply Qle_bool_iff. exact E.
Qed.

Lemma well_massed_alive (p : Player) : isDead p = false -> well_massed p -> 0 < mass p.
Proof. unfold well_massed. intros E H. rewrite E in H. exact H. Qed.

Lemma updatePlayer_massed (p : Player) (dt : Q) (now : Z) :
  well_massed p -> well_massed (PhysicsEngine.updatePlayer p dt now).
Proof.
  unfold PhysicsEngine.updatePlayer, well_massed.
  destruct (isDead p) eqn:E; cbn [isDead mass]; rewrite ?E; intro H; exact H.
Qed.

Lemma constrainToMap_massed (p : Player) (r : Q) :
  well_massed p -> well_massed (PhysicsEngine.constrainToMap p r).
Proof.
  unfold PhysicsEngine.constrainToMap. destruct (Qltb r _); intro H; exact H.
Qed.

Lemma applyFogDamage_massed (p : Player) (fog dt : Q) :
  well_massed p -> well_massed (PhysicsEngine.applyFogDamage p fog dt).
Proof.
  intro H. unfold PhysicsEngine.applyFogDamage.
  destruct (isDead p) eqn:E; [exact H|].
  destruct (Qltb fog _); [|exact H].
  unfold well_massed. cbn [isDead mass PhysicsEngine.set_mass_dead].
  set (m := Math_max 0 _). pose proof (Math_max_0 (mass p - 5.0 * dt)) as H0. fold m in H0.
  destruct (Qle_bool m 0) eqn:Em.
  - apply Qle_bool_iff in Em. lra.
  - apply Qnot_le_lt. intro L. apply Qle_bool_iff in L. congruence.
Qed.

Lemma eatPellet_massed (p : Player) (q : Pellet) (cap : Q) :
  0 < cap -> well_massed p -> well_massed (snd (fst (PhysicsEngine.eatPellet p q cap))).
Proof.
  intros Hcap H. unfold PhysicsEngine.eatPellet.
  destruct (isDead p) eqn:E; cbn [orb]; [exact H|].
  destruct (consumed q); [exact H|].
  destruct (PhysicsEngine.checkCollision _ _ _ _); [|exact H].
  cbn [snd fst]. unfold well_massed. cbn [isDead mass PhysicsEngine.set_mass]. rewrite E.
  apply Math_min_pos; [|exact Hcap].
  pose proof (well_massed_alive p E H). unfold GAME_CONFIG.PELLET_MASS. lra.
Qed.

Lemma eatPlayer_massed (ps : list Player) (e t : nat) (cap : Q) :
  0 < cap -> Forall well_massed ps ->
  Forall well_massed (snd (PhysicsEngine.eatPlayer ps e t cap)).
Proof.
  intros Hcap Hps. unfold PhysicsEngine.eatPlayer.
  destruct (nth_error ps e) as [pe|] eqn:Ee; [|exact Hps].
  destruct (nth_error ps t) as [pt|] eqn:Et; [|exact Hps].
  destruct (PhysicsEngine.canEat pe pt) eqn:Ec; cbn [negb]; [|exact Hps].
  destruct (PhysicsEngine.checkCollision _ _ _ _); cbn [negb snd]; [|exact Hps].
  destruct (canEat_alive _ _ Ec) as [Ae At].
  assert (Hpe : well_massed pe).
  { rewrite Forall_forall in Hps. apply Hps. eapply nth_error_In; eassumption. }
  assert (Hpt : well_massed pt).
  { rewrite Forall_forall in Hps. apply Hps. eapply nth_error_In; eassumption. }
  set (f := PhysicsEngine.set_eaten_mass _).
  assert (H1 : Forall well_massed (upd e f ps)).
  { apply (upd_Forall_at well_massed f ps e pe Ee); [|exact Hps].
    unfold well_massed, f. cbn [isDead mass PhysicsEngine.set_eaten_mass]. rewrite Ae.
    apply Math_min_pos; [|exact Hcap].
    pose proof (well_massed_alive pe Ae Hpe). pose proof (well_massed_alive pt At Hpt). lra. }
  pose proof (nth_error_upd f ps e t) as Hn. rewrite Et in Hn. cbn [option_map] in Hn.
  destruct (e =? t)%nat.
  + apply (upd_Forall_at well_massed _ _ t (f pt) Hn); [|exact H1].
    unfold well_massed. cbn. apply Qeq_refl.
  + apply (upd_Forall_at well_massed _ _ t pt Hn); [|exact H1].
    unfold well_massed. cbn. apply Qeq_refl.
Qed.

(** *** The loops of a tick *)

Lemma update_players_cells (m : Match.t) (dt : Q) (ps : list Player) :
  forall w,
    Forall2 evolves ps (fst (Match.update_players m dt ps w))
    /\ (Forall well_massed ps -> Forall well_massed (fst (Match.update_players m dt ps w))).
Proof.
  induction ps as [|p ps IH]; intro w; cbn [Match.update_players].
  - split; [constructor | intros; constructor].
  - destruct (if negb (isDead p) && boost p then Date_now w else (0%Z, w)) as [now w1].
    destruct (IH w1) as [IH1 IH2].
    destruct (Match.update_players m dt ps w1) as [rest w2]. cbn [fst] in *.
    set (p1 := PhysicsEngine.updatePlayer p dt now).
    set (p2 := PhysicsEngine.constrainToMap p1 (mapRadius (Match.config m))).
    assert (E2 : evolves p p2).
    { eapply evolves_trans; [apply updatePlayer_evolves | apply constrainToMap_evolves]. }
    split.
    + constructor; [|exact IH1].
      destruct (LobbyState_eqb (Match.state m) SUDDEN_SHRINK); [|exact E2].
      eapply evolves_trans; [exact E2 | apply applyFogDamage_evolves].
    + intro H. inversion H as [|? ? Hp Hps]; subst. constructor; [|apply IH2; exact Hps].
      assert (W2 : well_massed p2).
      { apply constrainToMap_massed. apply updatePlayer_massed. exact Hp. }
      destruct (LobbyState_eqb (Match.state m) SUDDEN_SHRINK); [|exact W2].
      apply applyFogDamage_massed. exact W2.
Qed.

Lemma same_frame_refl (m : Match.t) : same_frame m m.
Proof. repeat split. Qed.

Lemma same_frame_trans (a b c : Match.t) : same_frame a b -> same_frame b c -> same_frame a c.
Proof.
  intros (A1 & A2 & A3 & A4 & A5 & A6 & A7) (B1 & B2 & B3 & B4 & B5 & B6 & B7).
  repeat split; congruence.
Qed.

Lemma collide_cells (m : Match.t) (ij : nat * nat) :
  same_frame m (Match.collide m ij)
  /\ Match.pellets (Match.collide m ij) = Match.pellets m
  /\ Forall2 evolves (Match.players m) (Match.players (Match.collide m ij))
  /\ (0 < Match.growthCap m -> Forall well_massed (Match.players m) ->
      Forall well_massed (Match.players (Match.collide m ij))).
Proof.
  unfold Match.collide. destruct ij as [i j].
  assert (Hsame : same_frame m m /\ Match.pellets m = Match.pellets m
                  /\ Forall2 evolves (Match.players m) (Match.players m)
                  /\ (0 < Match.growthCap m -> Forall well_massed (Match.players m) ->
                      Forall well_massed (Match.players m))).
  { repeat split. apply Forall2_evolves_refl. intros _ H; exact H. }
  destruct (nth_error (Match.players m) i) as [p1|]; [|exact Hsame].
  destruct (nth_error (Match.players m) j) as [p2|]; [|exact Hsame].
  destruct (PhysicsEngine.canEat p1 p2).
  - pose proof (eatPlayer_evolves (Match.players m) i j (Match.growthCap m)) as He.
    pose proof (eatPlayer_massed (Match.players m) i j (Match.growthCap m)) as Hm.
    destruct (PhysicsEngine.eatPlayer _ i j _) as [g ps]. cbn [snd] in *.
    destruct (Qltb 0 g); repeat split; assumption.
  - destruct (PhysicsEngine.canEat p2 p1); [|exact Hsame].
    pose proof (eatPlayer_evolves (Match.players m) j i (Match.growthCap m)) as He.
    pose proof (eatPlayer_massed (Match.players m) j i (Match.growthCap m)) as Hm.
    destruct (PhysicsEngine.eatPlayer _ j i _) as [g ps]. cbn [snd] in *.
    destruct (Qltb 0 g); repeat split; assumption.
Qed.

Lemma collisions_cells (l : list (nat * nat)) :
  forall m,
    same_frame m (fold_left Match.collide l m)
    /\ Match.pellets (fold_left Match.collide l m) = Match.pellets m
    /\ Forall2 evolves (Match.players m) (Match.players (fold_left Match.collide l m))
    /\ (0 < Match.growthCap m -> Forall well_massed (Match.players m) ->
        Forall well_massed (Match.players (fold_left Match.collide l m))).
Proof.
  induction l as [|ij l IH]; intro m; cbn [fold_left].
  - repeat split. apply Forall2_evolves_refl. intros _ H; exact H.
  - destruct (collide_cells m ij) as (F1 & P1 & E1 & W1).
    destruct (IH (Match.collide m ij)) as (F2 & P2 & E2 & W2).
    refine (conj _ (conj _ (conj _ _))).
    + eapply same_frame_trans; eassumption.
    + congruence.
    + eapply Forall2_evolves_trans; eassumption.
    + intros Hcap Hw. apply W2.
      * destruct F1 as (_ & _ & _ & _ & _ & _ & G). rewrite G. exact Hcap.
      * apply W1; assumption.
Qed.

Lemma eat_pellets_cells (cap : Q) (qs : list Pellet) :
  forall p,
    evolves p (fst (Match.eat_pellets p qs cap))
    /\ (0 < cap -> well_massed p -> well_massed (fst (Match.eat_pellets p qs cap))).
Proof.
  induction qs as [|q qs IH]; intro p; cbn [Match.eat_pellets].
  - split; [apply evolves_refl | intros _ H; exact H].
  - pose proof (eatPellet_evolves p q cap) as He.
    pose proof (eatPellet_massed p q cap) as Hm.
    destruct (PhysicsEngine.eatPellet p q cap) as [[eaten p'] q']. cbn [fst snd] in *.
    destruct (IH p') as [IH1 IH2].
    destruct (Match.eat_pellets p' qs cap) as [p'' rest']. cbn [fst] in *.
    split.
    + eapply evolves_trans; eassumption.
    + intros Hcap Hw. apply IH2; [exact Hcap|]. apply Hm; assumption.
Qed.

Lemma players_eat_pellets_cells (cap : Q) (ps : list Player) :
  forall qs,
    Forall2 evolves ps (fst (Match.players_eat_pellets ps qs cap))
    /\ (0 < cap -> Forall well_massed ps ->
        Forall well_massed (fst (Match.players_eat_pellets ps qs cap))).
Proof.
  induction ps as [|p ps IH]; intro qs; cbn [Match.players_eat_pellets].
  - split; [constructor | intros; constructor].
  - destruct (eat_pellets_cells cap qs p) as [E1 W1].
    destruct (Match.eat_pellets p qs cap) as [p' qs']. cbn [fst] in *.
    destruct (IH qs') as [E2 W2].
    destruct (Match.players_eat_pellets ps qs' cap) as [rest' qs'']. cbn [fst] in *.
    split.
    + constructor; assumption.
    + intros Hcap H. inversion H as [|? ? Hp Hps]; subst.
      constructor; [apply W1 | apply W2]; assumption.
Qed.

Lemma respawn_frame (m : Match.t) (w : World) :
  same_frame m (fst (Match.respawn m w))
  /\ Match.players (fst (Match.respawn m w)) = Match.players m.
Proof.
  unfold Match.respawn.
  destruct (if LobbyState_eqb (Match.state m) ACTIVE then (true, w)
            else let '(r, w') := Math_random w in (Qltb 0.5 r, w')) as [enter w1].
  destruct enter; [|split; [apply same_frame_refl | reflexivity]].
  destruct (Nat.ltb _ 500); [|split; [apply same_frame_refl | reflexivity]].
  destruct (Math_random w1) as [r w2].
  destruct (Qltb r 0.1); [|split; [apply same_frame_refl | reflexivity]].
  unfold Match.spawnPellet.
  destruct (Match.randomPointInCircle _ _) as [p st'].
  destruct (uuidv4 w2) as [pid w3]. split; [repeat split | reflexivity].
Qed.

Lemma simulate_cells (m : Match.t) (w : World) :
  same_frame m (fst (Match.simulate m w))
  /\ Forall2 evolves (Match.players m) (Match.players (fst (Match.simulate m w)))
  /\ (0 < Match.growthCap m -> Forall well_massed (Match.players m) ->
      Forall well_massed (Match.players (fst (Match.simulate m w)))).
Proof.
  unfold Match.simulate.
  destruct (update_players_cells m (1 / GAME_CONFIG.TICK_RATE) (Match.players m) w)
    as [E1 W1].
  destruct (Match.update_players m _ (Match.players m) w) as [ps w1]. cbn [fst] in *.
  set (m1 := Match.with_players ps m).
  destruct (collisions_cells (Match.index_pairs (List.length (Match.players m1))) m1)
    as (F2 & P2 & E2 & W2).
  set (m2 := fold_left Match.collide _ m1) in *.
  destruct (players_eat_pellets_cells (Match.growthCap m2) (Match.players m2)
                                      (Match.pellets m2)) as [E3 W3].
  destruct (Match.players_eat_pellets _ _ _) as [ps' qs']. cbn [fst] in *.
  set (m3 := Match.with_pellets qs' (Match.with_players ps' m2)).
  destruct (respawn_frame m3 w1) as [F4 P4].
  assert (F3 : same_frame m m3).
  { apply (same_frame_trans m m1); [repeat split|].
    apply (same_frame_trans m1 m2); [exact F2 | repeat split]. }
  assert (G2 : Match.growthCap m2 = Match.growthCap m).
  { destruct F2 as (_ & _ & _ & _ & _ & _ & G). exact G. }
  refine (conj _ (conj _ _)).
  - eapply same_frame_trans; eassumption.
  - rewrite P4. cbn [m3 Match.players Match.with_pellets Match.with_players].
    eapply Forall2_evolves_trans; [exact E1|].
    eapply Forall2_evolves_trans; [exact E2 | exact E3].
  - intros Hcap Hw. rewrite P4. cbn [m3 Match.players Match.with_pellets Match.with_players].
    apply W3; [rewrite G2; exact Hcap|].
    apply W2; [exact Hcap | apply W1; exact Hw].
Qed.

Lemma update_cells (m : Match.t) (w : World) :
  Match.growthCap (fst (Match.update m w)) = Match.growthCap m
  /\ Match.config (fst (Match.update m w)) = Match.config m
  /\ Forall2 evolves (Match.players m) (Match.players (fst (Match.update m w)))
  /\ (0 < Match.growthCap m -> Forall well_massed (Match.players m) ->
      Forall well_massed (Match.players (fst (Match.update m w)))).
Proof.
  unfold Match.update.
  destruct (Date_now w) as [now w1].
  set (m0 := Match.with_tick (Match.tick m + 1) m).
  assert (Hsame : forall m', Match.growthCap m' = Match.growthCap m ->
                             Match.config m' = Match.config m ->
                             Match.players m' = Match.players m ->
            Match.growthCap m' = Match.growthCap m
            /\ Match.config m' = Match.config m
            /\ Forall2 evolves (Match.players m) (Match.players m')
            /\ (0 < Match.growthCap m -> Forall well_massed (Match.players m) ->
                Forall well_massed (Match.players m'))).
  { intros m' G C P. rewrite P.
    exact (conj G (conj C (conj (Forall2_evolves_refl _) (fun _ H => H)))). }
  assert (Hsim : forall m', Match.growthCap m' = Match.growthCap m ->
                            Match.config m' = Match.config m ->
                            Match.players m' = Match.players m ->
            Match.growthCap (fst (Match.simulate m' w1)) = Match.growthCap m
            /\ Match.config (fst (Match.simulate m' w1)) = Match.config m
            /\ Forall2 evolves (Match.players m) (Match.players (fst (Match.simulate m' w1)))
            /\ (0 < Match.growthCap m -> Forall well_massed (Match.players m) ->
                Forall well_massed (Match.players (fst (Match.simulate m' w1))))).
  { intros m' G C P. destruct (simulate_cells m' w1) as (F & E & W).
    destruct F as (FC & _ & _ & _ & _ & _ & FG).
    rewrite <- P, <- G, <- C. exact (conj FG (conj FC (conj E W))). }
  destruct (LobbyState_eqb (Match.state m0) COUNTDOWN).
  { destruct (10000 <=? now - Match.countdownStartTime m0)%Z.
    - unfold Match.startMatch. destruct (Date_now w1) as [now' w2].
      apply Hsame; reflexivity.
    - apply Hsame; reflexivity. }
  match goal with
  | |- context [LobbyState_eqb (Match.state ?m') SUDDEN_SHRINK] => set (m1 := m')
  end.
  assert (H1 : Match.growthCap m1 = Match.growthCap m /\ Match.config m1 = Match.config m
               /\ Match.players m1 = Match.players m).
  { unfold m1. destruct (LobbyState_eqb (Match.state m0) ACTIVE); [|repeat split].
    destruct (GAME_CONFIG.NORMAL_PHASE_MS <=? now - Match.startTime m0)%Z; repeat split. }
  destruct H1 as (G1 & C1 & P1).
  destruct (LobbyState_eqb (Match.state m1) SUDDEN_SHRINK).
  - destruct (GAME_CONFIG.MATCH_DURATION_MS <=? now - Match.startTime m1)%Z.
    + apply Hsame; assumption.
    + apply Hsim; assumption.
  - apply Hsim; assumption.
Qed.

Lemma updatePlayerInput_cells (m : Match.t) (playerId : nat) (axes : Vector2D) (b : bool) :
  Forall2 evolves (Match.players m) (Match.players (Match.updatePlayerInput m playerId axes b))
  /\ (Forall well_massed (Match.players m) ->
      Forall well_massed (Match.players (Match.updatePlayerInput m playerId axes b))).
Proof.
  unfold Match.updatePlayerInput. cbn [Match.players Match.with_players].
  induction (Match.players m) as [|p ps [IH1 IH2]]; cbn [map].
  - split; [constructor | intros; constructor].
  - assert (He : evolves p (if (id p =? playerId)%nat then Match.set_input axes b p else p)).
    { destruct (id p =? playerId)%nat; [|apply evolves_refl].
      apply evolves_same; reflexivity. }
    split; [constructor; assumption|].
    intro H. inversion H as [|? ? Hp Hps]; subst. constructor; [|apply IH2; exact Hps].
    destruct (id p =? playerId)%nat; exact Hp.
Qed.

Lemma play_cells (steps : list PlayStep) :
  forall m,
    Match.growthCap (play steps m) = Match.growthCap m
    /\ Match.config (play steps m) = Match.config m
    /\ Forall2 evolves (Match.players m) (Match.players (play steps m))
    /\ (0 < Match.growthCap m -> Forall well_massed (Match.players m) ->
        Forall well_massed (Match.players (play steps m))).
Proof.
  unfold play. induction steps as [|s steps IH]; intro m; cbn [fold_left].
  - repeat split. apply Forall2_evolves_refl. intros _ H; exact H.
  - assert (Hs : Match.growthCap (play_step m s) = Match.growthCap m
                 /\ Match.config (play_step m s) = Match.config m
                 /\ Forall2 evolves (Match.players m) (Match.players (play_step m s))
                 /\ (0 < Match.growthCap m -> Forall well_massed (Match.players m) ->
                     Forall well_massed (Match.players (play_step m s)))).
    { destruct s as [w | pid axes b | w]; cbn [play_step].
      - apply update_cells.
      - destruct (updatePlayerInput_cells m pid axes b) as [E W].
        repeat split; [exact E | intros _; exact W].
      - unfold Match.startMatch. destruct (Date_now w) as [now w1].
        repeat split. apply Forall2_evolves_refl. intros _ H; exact H. }
    destruct Hs as (G & C & E & W).
    destruct (IH (play_step m s)) as (G' & C' & E' & W').
    repeat apply conj.
    + congruence.
    + congruence.
    + eapply Forall2_evolves_trans; eassumption.
    + intros Hcap Hw. apply W'; [rewrite G; exact Hcap | apply W; assumption].
Qed.

(** *** The cells of a new match *)

Lemma spawn_players_roster (cfg : MatchConfig) (l : list (string * Z)) :
  forall st ps w,
    Forall (fun p => (id p < uuid_next w)%nat) ps ->
    map member (fst (Match.spawn_players cfg l st ps w)) = map member ps ++ l
    /\ map id (fst (Match.spawn_players cfg l st ps w)) =
       map id ps ++ seq (uuid_next w) (List.length l)
    /\ (Forall well_massed ps ->
        Forall well_massed (fst (Match.spawn_players cfg l st ps w))).
Proof.
  induction l as [|[uid team] l IH]; intros st ps w Hps;
    cbn [Match.spawn_players List.length seq].
  - rewrite !app_nil_r. repeat split. intro H; exact H.
  - destruct (Match.randomPointInCircle st (mapRadius cfg * 0.7)%Q) as [spawnPos st'].
    cbn [uuidv4]. rewrite map_set_fresh by exact Hps.
    match goal with
    | |- context [Match.spawn_players cfg l st' ?ps' ?w'] =>
        destruct (IH st' ps' w') as (E1 & E2 & W)
    end.
    { apply Forall_app. split.
      - eapply Forall_impl; [|exact Hps]. cbn. intros; lia.
      - constructor; [cbn; lia | constructor]. }
    repeat apply conj.
    + rewrite E1, map_app, <- app_assoc. reflexivity.
    + rewrite E2, map_app, <- app_assoc. reflexivity.
    + intro Hw. apply W. apply Forall_app. split; [exact Hw|].
      constructor; [|constructor]. unfold well_massed. cbn. reflexivity.
Qed.

Lemma new_Match_roster (cfg : MatchConfig) (w : World) :
  map member (Match.players (fst (Match.new_Match cfg w))) = config_players cfg
  /\ map id (Match.players (fst (Match.new_Match cfg w))) =
     seq (uuid_next w) (List.length (config_players cfg))
  /\ Forall well_massed (Match.players (fst (Match.new_Match cfg w))).
Proof.
  unfold Match.new_Match, Match.initializePlayers, Match.initializePellets.
  cbn [Match.config Match.players].
  destruct (spawn_players_roster cfg (config_players cfg) (Match.createSeededRNG cfg) [] w
                                 (Forall_nil _)) as (E1 & E2 & W).
  destruct (Match.spawn_players cfg (config_players cfg) (Match.createSeededRNG cfg) [] w)
    as [ps w1].
  cbn [fst map app] in *.
  match goal with
  | |- context [Match.spawn_pellets ?n ?m ?st ?w'] =>
      pose proof (spawn_pellets_players n m st w') as [P _];
      destruct (Match.spawn_pellets n m st w') as [[m2 st2] w2]
  end.
  cbn [fst] in *. rewrite P. cbn [Match.players].
  repeat split; [exact E1 | exact E2 | apply W; constructor].
Qed.

End Cells.

(** ** Roster, deaths, pellets and the fog *)

Section Pellets.
Context {M : JSMath}.

Lemma map_set_length {A : Type} (key : A -> nat) (v : A) (l : list A) :
  (List.length (map_set key v l) <= S (List.length l))%nat.
Proof.
  induction l as [|a l IH]; cbn [map_set List.length]; [lia|].
  destruct (key a =? key v)%nat; cbn [List.length]; lia.
Qed.

Lemma spawnPellet_pellets (m : Match.t) (st : Z) (w : World) :
  Forall fresh_pellet (Match.pellets m) ->
  Forall fresh_pellet (Match.pellets (fst (fst (Match.spawnPellet m st w))))
  /\ (List.length (Match.pellets (fst (fst (Match.spawnPellet m st w))))
      <= S (List.length (Match.pellets m)))%nat.
Proof.
  intro H. unfold Match.spawnPellet.
  destruct (Match.randomPointInCircle _ _) as [p st'].
  destruct (uuidv4 w) as [pid w']. cbn [fst Match.pellets Match.with_pellets].
  split; [|apply map_set_length].
  apply map_set_Forall; [|exact H]. repeat split.
Qed.

Lemma spawn_pellets_fresh (n : nat) :
  forall m st w,
    Forall fresh_pellet (Match.pellets m) ->
    Forall fresh_pellet (Match.pellets (fst (fst (Match.spawn_pellets n m st w)))).
Proof.
  induction n as [|n IH]; intros m st w H; cbn [Match.spawn_pellets]; [exact H|].
  destruct (spawnPellet_pellets m st w H) as [F _].
  destruct (Match.spawnPellet m st w) as [[m' st'] w']. cbn [fst] in F.
  apply IH. exact F.
Qed.

Lemma new_Match_pellets (cfg : MatchConfig) (w : World) :
  List.length (Match.pellets (fst (Match.new_Match cfg w))) = 500%nat
  /\ Forall fresh_pellet (Match.pellets (fst (Match.new_Match cfg w))).
Proof.
  split.
  - pose proof (proj2 (new_Match_positions cfg w)) as H.
    apply (f_equal (@List.length _)) in H. rewrite length_map in H. rewrite H.
    generalize (Match.seedToNumber (seed cfg)). generalize 500%nat.
    induction n as [|n IH]; intro st; cbn [seeded_points]; [reflexivity|].
    destruct (Match.randomPointInCircle st (mapRadius cfg)) as [p st'].
    cbn [List.length]. now rewrite IH.
  - unfold Match.new_Match, Match.initializePlayers, Match.initializePellets.
    destruct (Match.spawn_players _ _ _ _ _) as [ps w1].
    match goal with
    | |- context [Match.spawn_pellets ?n ?m ?st ?w'] =>
        pose proof (spawn_pellets_fresh n m st w' (Forall_nil _)) as F;
        destruct (Match.spawn_pellets n m st w') as [[m2 st2] w2]
    end.
    exact F.
Qed.

Lemma respawn_pellets (m : Match.t) (w : World) :
  (List.length (Match.pellets m) <= 500)%nat -> Forall fresh_pellet (Match.pellets m) ->
  (List.length (Match.pellets (fst (Match.respawn m w))) <= 500)%nat
  /\ Forall fresh_pellet (Match.pellets (fst (Match.respawn m w))).
Proof.
  intros L F. unfold Match.respawn.
  destruct (if LobbyState_eqb (Match.state m) ACTIVE then (true, w)
            else let '(r, w') := Math_random w in (Qltb 0.5 r, w')) as [enter w1].
  destruct enter; [|split; assumption].
  destruct (Nat.ltb_spec (List.length (Match.pellets m)) 500) as [Hlt|_]; [|split; assumption].
  destruct (Math_random w1) as [r w2].
  destruct (Qltb r 0.1); [|split; assumption].
  destruct (spawnPellet_pellets m (Match.createSeededRNG (Match.config m)) w2 F) as [F' L'].
  destruct (Match.spawnPellet m _ w2) as [[m' st'] w3]. cbn [fst] in *.
  split; [lia | exact F'].
Qed.

Lemma simulate_pellets (m : Match.t) (w : World) :
  (List.length (Match.pellets m) <= 500)%nat -> Forall fresh_pellet (Match.pellets m) ->
  (List.length (Match.pellets (fst (Match.simulate m w))) <= 500)%nat
  /\ Forall fresh_pellet (Match.pellets (fst (Match.simulate m w))).
Proof.
  intros L F. unfold Match.simulate.
  destruct (Match.update_players m _ (Match.players m) w) as [ps w1].
  set (m1 := Match.with_players ps m).
  pose proof (collisions_pellets (Match.index_pairs (List.length (Match.players m1))) m1)
    as (E1 & _ & _).
  set (m2 := fold_left Match.collide _ m1) in *.
  assert (Hq : Match.pellets m2 = Match.pellets m) by (rewrite E1; reflexivity).
  destruct (players_eat_pellets_sub fresh_pellet (Match.growthCap m2) (Match.players m2)
              (Match.pellets m2)) as [F3 L3]; [rewrite Hq; exact F|].
  destruct (Match.players_eat_pellets _ _ _) as [ps' qs']. cbn [snd] in *.
  apply respawn_pellets; cbn [Match.pellets Match.with_pellets]; [|exact F3].
  rewrite Hq in L3. lia.
Qed.

Lemma update_pellets (m : Match.t) (w : World) :
  (List.length (Match.pellets m) <= 500)%nat -> Forall fresh_pellet (Match.pellets m) ->
  (List.length (Match.pellets (fst (Match.update m w))) <= 500)%nat
  /\ Forall fresh_pellet (Match.pellets (fst (Match.update m w))).
Proof.
  intros L F. unfold Match.update.
  destruct (Date_now w) as [now w1].
  set (m0 := Match.with_tick (Match.tick m + 1) m).
  destruct (LobbyState_eqb (Match.state m0) COUNTDOWN).
  { destruct (10000 <=? now - Match.countdownStartTime m0)%Z; [|split; assumption].
    unfold Match.startMatch. destruct (Date_now w1) as [now' w2]. split; assumption. }
  match goal with
  | |- context [LobbyState_eqb (Match.state ?m') SUDDEN_SHRINK] => set (m1 := m')
  end.
  assert (P1 : Match.pellets m1 = Match.pellets m).
  { unfold m1. destruct (LobbyState_eqb (Match.state m0) ACTIVE); [|reflexivity].
    destruct (GAME_CONFIG.NORMAL_PHASE_MS <=? now - Match.startTime m0)%Z; reflexivity. }
  destruct (LobbyState_eqb (Match.state m1) SUDDEN_SHRINK).
  - destruct (GAME_CONFIG.MATCH_DURATION_MS <=? now - Match.startTime m1)%Z.
    + cbn [fst]. unfold Match.endMatch.
      cbn [Match.pellets Match.emitEvent Match.with_state]. rewrite P1. split; assumption.
    + apply simulate_pellets; cbn [Match.pellets Match.with_fogRadius]; rewrite P1; assumption.
  - apply simulate_pellets; rewrite P1; assumption.
Qed.

Lemma play_pellets (steps : list PlayStep) :
  forall m,
    (List.length (Match.pellets m) <= 500)%nat -> Forall fresh_pellet (Match.pellets m) ->
    (List.length (Match.pellets (play steps m)) <= 500)%nat
    /\ Forall fresh_pellet (Match.pellets (play steps m)).
Proof.
  unfold play. induction steps as [|s steps IH]; intros m L F; cbn [fold_left].
  - split; assumption.
  - assert (Hs : (List.length (Match.pellets (play_step m s)) <= 500)%nat
                 /\ Forall fresh_pellet (Match.pellets (play_step m s))).
    { destruct s as [w | pid axes b | w]; cbn [play_step].
      - apply update_pellets; assumption.
      - split; assumption.
      - unfold Match.startMatch. destruct (Date_now w) as [now w1]. split; assumption. }
    destruct Hs as [L' F']. apply IH; assumption.
Qed.

End Pellets.

Section Phases.
Context {M : JSMath}.

Lemma simulate_frame (m : Match.t) (w : World) : same_frame m (fst (Match.simulate m w)).
Proof. exact (proj1 (simulate_cells m w)). Qed.

Lemma evolves_identity (l l' : list Player) :
  Forall2 evolves l l' -> map identity l' = map identity l.
Proof.
  induction 1 as [|p p' l l' Hp E IH]; cbn [map]; [reflexivity|].
  destruct Hp as (Hi & _). now rewrite Hi, IH.
Qed.

Lemma Forall2_impl {A B : Type} (R S : A -> B -> Prop) (l : list A) (l' : list B) :
  (forall a b, R a b -> S a b) -> Forall2 R l l' -> Forall2 S l l'.
Proof. intros H. induction 1; constructor; auto. Qed.

End Phases.

(** X5: new Match(config) creates exactly one cell per configured player, in
    the config's order, with that player's userId and teamNo and consecutive
    fresh ids; no sequence of ticks, inputs and starts adds, removes, reorders
    or re-identifies a cell. *)
Theorem X5_one_cell_per_member_for_the_whole_match {M : JSMath}
        (cfg : MatchConfig) (w : World) (steps : list PlayStep) :
  let m0 := fst (Match.new_Match cfg w) in
  map member (Match.players m0) = config_players cfg
  /\ map id (Match.players m0) = seq (uuid_next w) (List.length (config_players cfg))
  /\ map identity (Match.players (play steps m0)) = map identity (Match.players m0).
Proof.
  intro m0. destruct (new_Match_roster cfg w) as (E1 & E2 & _). fold m0 in E1, E2.
  split; [exact E1|]. split; [exact E2|].
  destruct (play_cells steps m0) as (_ & _ & E & _).
  apply evolves_identity. exact E.
Qed.

(** X6: Over any sequence of ticks, inputs and starts, the kill count of a
    cell never decreases, and a cell that is dead stays dead with its mass and
    its kill count unchanged. *)
Theorem X6_a_dead_cell_stays_dead {M : JSMath} (m : Match.t) (steps : list PlayStep) :
  Forall2 (fun p p' =>
             kills p <= kills p'
             /\ (isDead p = true ->
                 isDead p' = true /\ mass p' = mass p /\ kills p' = kills p))
          (Match.players m) (Match.players (play steps m)).
Proof.
  destruct (play_cells steps m) as (_ & _ & E & _).
  eapply Forall2_impl; [|exact E].
  intros p p' (_ & Hk & Hd). split; assumption.
Qed.

(** X7: In a match created with a positive buy-in, after any sequence of
    ticks, inputs and starts, a dead cell has mass 0 and a live cell has a
    positive mass. *)
Theorem X7_dead_cells_are_the_cells_without_mass {M : JSMath}
        (cfg : MatchConfig) (w : World) (steps : list PlayStep) :
  0 < buyInCents cfg ->
  Forall (fun p => if isDead p then (mass p == 0)%Q else (0 < mass p)%Q)
         (Match.players (play steps (fst (Match.new_Match cfg w)))).
Proof.
  intro Hbuy. set (m0 := fst (Match.new_Match cfg w)).
  destruct (new_Match_roster cfg w) as (_ & _ & W0). fold m0 in W0.
  destruct (new_Match_players cfg w) as (_ & G). fold m0 in G.
  destruct (play_cells steps m0) as (_ & _ & _ & W).
  apply W; [|exact W0].
  rewrite G. apply Qmult_lt_0_compat; [|reflexivity].
  change 0%Q with (inject_Z 0). rewrite <- Zlt_Qlt. exact Hbuy.
Qed.

Lemma X7_dead_cells_are_the_cells_without_mass_witness :
  let cfg := mkConfig "match" "lobby" SOLO 1000 WINNER_TAKE_ALL 800 None
                      zero_seed zero_nonce "commit" 0%Q [("a", 0); ("b", 0)]%string in
  let steps := [STEP_startMatch quiet_world; STEP_update quiet_world;
                STEP_updatePlayerInput 0 (mkVec 1 0) true; STEP_update quiet_world] in
  Forall (fun p => if isDead p then (mass p == 0)%Q else (0 < mass p)%Q)
         (Match.players (@play crude_math steps (fst (@Match.new_Match crude_math cfg quiet_world)))).
Proof.
  intros cfg steps.
  apply (@X7_dead_cells_are_the_cells_without_mass crude_math cfg quiet_world steps).
  reflexivity.
Defined.

(** X8: A new match holds exactly 500 pellets; after any sequence of ticks,
    inputs and starts it never holds more than 500, and every pellet in the
    map is unconsumed and has the configured pellet mass and the radius of
    that mass. *)
Theorem X8_never_more_than_500_pellets_and_none_consumed {M : JSMath}
        (cfg : MatchConfig) (w : World) (steps : list PlayStep) :
  let m0 := fst (Match.new_Match cfg w) in
  List.length (Match.pellets m0) = 500%nat
  /\ (List.length (Match.pellets (play steps m0)) <= 500)%nat
  /\ Forall (fun q => consumed q = false
                      /\ pellet_mass q = GAME_CONFIG.PELLET_MASS
                      /\ pellet_radius q = PhysicsEngine.massToRadius GAME_CONFIG.PELLET_MASS)
            (Match.pellets (play steps m0)).
Proof.
  intro m0. destruct (new_Match_pellets cfg w) as [L F]. fold m0 in L, F.
  split; [exact L|].
  apply play_pellets; [lia | exact F].
Qed.

(** X9: A tick of an ACTIVE or SUDDEN_SHRINK match taken between 270000 ms and
    360000 ms after its start sets the fog radius to mapRadius * (1 - 0.65 *
    (elapsed - 270000) / 90000), which for a map radius of at least 0 lies
    between 35% and 100% of the map radius (numbers as exact rationals). *)
Theorem X9_the_fog_shrinks_to_35_percent {M : JSMath} (m : Match.t) (w : World) :
  let elapsed := date_now w (now_reads w) - Match.startTime m in
  let R := mapRadius (Match.config m) in
  Match.state m = ACTIVE \/ Match.state m = SUDDEN_SHRINK ->
  GAME_CONFIG.NORMAL_PHASE_MS <= elapsed < GAME_CONFIG.MATCH_DURATION_MS ->
  (0 <= R)%Q ->
  Match.fogRadius (fst (Match.update m w)) = shrunk_radius R elapsed
  /\ (0.35 * R <= shrunk_radius R elapsed <= R)%Q.
Proof.
  intros elapsed R Hst [H1 H2] HR.
  split.
  - unfold Match.update. cbn [Date_now].
    set (w1 := mkWorld _ _ _ _ _). clearbody w1.
    unfold elapsed, R in *. clear elapsed R.
    destruct m as [cfg st tk stt cst ps qs fog cap em].
    cbn [Match.state Match.startTime Match.config] in *.
    apply Z.leb_le in H1. apply Z.ltb_lt in H2. rewrite Z.ltb_antisym in H2.
    apply negb_true_iff in H2.
    destruct Hst as [Hs | Hs]; subst st; phase_steps; rewrite ?H1; phase_steps;
      rewrite H2; match goal with
      | |- context [Match.simulate ?m1 w1] =>
          destruct (simulate_frame m1 w1) as (_ & _ & _ & _ & _ & F & _)
      end; rewrite F; reflexivity.
  - unfold shrunk_radius.
    set (s := (inject_Z (elapsed - GAME_CONFIG.NORMAL_PHASE_MS)
               / inject_Z GAME_CONFIG.SHRINK_PHASE_MS)%Q).
    assert (Hs0 : (0 <= s)%Q).
    { unfold s. apply Qle_shift_div_l; [reflexivity|]. rewrite Qmult_0_l.
      apply inject_Z_nonneg. lia. }
    assert (Hs1 : (s <= 1)%Q).
    { unfold s. apply Qle_shift_div_r; [reflexivity|]. rewrite Qmult_1_l.
      rewrite <- Zle_Qle. unfold GAME_CONFIG.MATCH_DURATION_MS, GAME_CONFIG.NORMAL_PHASE_MS,
                                 GAME_CONFIG.SHRINK_PHASE_MS in *. lia. }
    split.
    + setoid_replace (R * (1 - s * 0.65))%Q with ((1 - s * 0.65) * R)%Q by ring.
      apply Qmult_le_compat_r; [lra | exact HR].
    + setoid_replace (R * (1 - s * 0.65))%Q with ((1 - s * 0.65) * R)%Q by ring.
      setoid_replace R with (1 * R)%Q at 2 by ring.
      apply Qmult_le_compat_r; [lra | exact HR].
Qed.

Lemma X9_the_fog_shrinks_to_35_percent_witness :
  let cfg := mkConfig "match" "lobby" SOLO 1000 WINNER_TAKE_ALL 800 None
                      zero_seed zero_nonce "commit" 1000%Q [] in
  let m := Match.mkMatch cfg ACTIVE 0 0 0 [] [] 1000 5000 [] in
  let w := mkWorld (fun _ => 300000) 0 (fun _ => 0%Q) 0 0 in
  Match.fogRadius (fst (@Match.update crude_math m w)) = shrunk_radius 1000 300000
  /\ (0.35 * 1000 <= shrunk_radius 1000 300000 <= 1000)%Q.
Proof.
  intros cfg m w.
  apply (@X9_the_fog_shrinks_to_35_percent crude_math m w).
  - left. reflexivity.
  - cbn. unfold GAME_CONFIG.NORMAL_PHASE_MS, GAME_CONFIG.MATCH_DURATION_MS. lia.
  - cbn. discriminate.
Defined.

(** ** The mass in a match and the spawn positions *)

Section Budget.
Context {M : JSMath}.
Local Open Scope Q_scope.













End Budget.

Section Generator.






End Generator.

Section Scaling.
Context {M : JSMath}.






End Scaling.




(** ** Escrow moves *)

Section Escrow.
Import Sql.

Lemma lockEscrow_run (d : DB) (u : nat) (userId : string) (amountCents : Z)
      (matchId : string) :
  run (WalletService.lockEscrow userId amountCents matchId) d u =
  if amountCents <=? 0 then (Err (Thrown "Escrow amount must be positive"), d, u)
  else match map available_cents (wallet_of userId d) with
       | [] => (Err (Thrown "Insufficient balance for buy-in"), d, u)
       | available :: _ =>
           if available <? amountCents
           then (Err (Thrown "Insufficient balance for buy-in"), d, u)
           else match update_error (wallets d) userId (- amountCents) amountCents with
                | None => (Ok tt, locked d u userId amountCents matchId, S u)
                | Some message => (Err (QueryError message), d, u)
                end
       end.
Proof.
  unfold run, WalletService.lockEscrow, wallet_of.
  destruct (amountCents <=? 0); [reflexivity|].
  unfold db_transaction, WalletService.select_available, bind, select, execute, view, uuid.
  cbn [committed pending next_uuid replay].
  destruct (map available_cents _) as [|available rest]; [reflexivity|].
  destruct (available <? amountCents); [reflexivity|].
  unfold throw.
  cbn [committed pending next_uuid replay exec].
  destruct (update_error (wallets d) userId (- amountCents) amountCents) eqn:E;
    [reflexivity|].
  cbn [committed pending next_uuid replay exec wallets]. rewrite E.
  cbn [idempotency_key wallet_tx]. rewrite !existsb_same_key_None.
  cbn [committed pending next_uuid replay exec wallets]. rewrite E.
  cbn [idempotency_key wallet_tx]. rewrite !existsb_same_key_None.
  reflexivity.
Qed.

Lemma bump_holdings (userId : string) (a b : Z) (ws : list WalletRow) :
  a + b = 0 ->
  map (fun r => (wallet_user_id r, available_cents r + escrow_cents r))
      (map (bump userId a b) ws)
  = map (fun r => (wallet_user_id r, available_cents r + escrow_cents r)) ws.
Proof.
  intro Hab. rewrite map_map. apply map_ext. intro r. unfold bump.
  destruct (String.eqb (wallet_user_id r) userId); cbn; f_equal; lia.
Qed.

Lemma bump_back (userId : string) (a : Z) (ws : list WalletRow) :
  map (fun r => (wallet_user_id r, available_cents r, escrow_cents r))
      (map (bump userId a (- a)) (map (bump userId (- a) a) ws))
  = map (fun r => (wallet_user_id r, available_cents r, escrow_cents r)) ws.
Proof.
  rewrite !map_map. apply map_ext. intro r. unfold bump.
  destruct (String.eqb (wallet_user_id r) userId) eqn:E; cbn; rewrite ?E; cbn;
    [|reflexivity].
  f_equal; [f_equal|]; lia.
Qed.

Lemma bump_user (userId : string) (a b : Z) (r : WalletRow) :
  wallet_user_id (bump userId a b r) = wallet_user_id r.
Proof. unfold bump. destruct (String.eqb (wallet_user_id r) userId); reflexivity. Qed.

Lemma refund_after_lock_allowed (userId : string) (a : Z) (ws : list WalletRow) :
  Forall (fun r => storable r = true /\ version r + 2 <= 2147483647)
         (filter (fun r => String.eqb (wallet_user_id r) userId) ws) ->
  update_error (map (bump userId (- a) a) ws) userId a (- a) = None.
Proof.
  intro H. apply update_error_storable. rewrite filter_bump_user, Forall_map.
  rewrite Forall_forall in *. intros r Hr. destruct (H r Hr) as [Hs Hv].
  apply filter_In in Hr. destruct Hr as [_ Hu].
  unfold bump. cbn [wallet_user_id]. rewrite Hu.
  cbn [available_cents escrow_cents version].
  apply storable_spec in Hs. apply storable_spec.
  cbn [available_cents escrow_cents version]. lia.
Qed.

End Escrow.

(** X13: lockEscrow and refundEscrow, whatever their arguments and their
    outcome, leave the sum available_cents + escrow_cents of every wallet
    unchanged. *)
Theorem X13_escrow_moves_keep_what_each_wallet_holds
        (d : DB) (u : nat) (userId : string) (amountCents : Z) (matchId : string) :
  holdings (snd (fst (Sql.run (WalletService.lockEscrow userId amountCents matchId) d u)))
  = holdings d
  /\ holdings (snd (fst (Sql.run (WalletService.refundEscrow userId amountCents matchId) d u)))
     = holdings d.
Proof.
  split.
  - rewrite lockEscrow_run.
    destruct (amountCents <=? 0); [reflexivity|].
    destruct (map available_cents _) as [|available rest]; [reflexivity|].
    destruct (available <? amountCents); [reflexivity|].
    destruct (Sql.update_error _ _ _ _); [reflexivity|].
    cbn [fst snd]. unfold holdings, locked. cbn [wallets].
    apply bump_holdings. lia.
  - rewrite refundEscrow_run.
    destruct (Sql.update_error _ _ _ _); [reflexivity|].
    cbn [fst snd]. unfold holdings, refunded. cbn [wallets]. apply bump_holdings. lia.
Qed.

(** X14: When the user's wallet rows fit their columns (BIGINT balances, INT
    version), satisfy the table's CHECKs and leave room for two more versions
    (version + 2 <= 2147483647), a successful lockEscrow followed by
    refundEscrow of the same amount succeeds and restores both balances of
    every wallet; the ledger gains one ESCROW_LOCK and one REFUND row and the
    other tables are unchanged. *)
Theorem X14_a_refund_undoes_the_lock
        (d : DB) (u : nat) (userId : string) (amountCents : Z) (matchId : string)
        (d1 : DB) (u1 : nat) :
  Forall (fun r => storable r = true /\ version r + 2 <= 2147483647) (wallet_of userId d) ->
  Sql.run (WalletService.lockEscrow userId amountCents matchId) d u = (Ok tt, d1, u1) ->
  exists d2,
    Sql.run (WalletService.refundEscrow userId amountCents matchId) d1 u1 = (Ok tt, d2, S u1)
    /\ balances d2 = balances d
    /\ wallet_tx d2 =
       wallet_tx d
       ++ [mkTx u userId ESCROW_LOCK amountCents TX_COMPLETED (REF_matchId matchId) None;
           mkTx u1 userId REFUND amountCents TX_COMPLETED (REF_matchId matchId) None]
    /\ lobbies d2 = lobbies d /\ lobby_players d2 = lobby_players d
    /\ profiles d2 = profiles d.
Proof.
  intros Hchk Hlock. rewrite lockEscrow_run in Hlock.
  destruct (amountCents <=? 0); [discriminate|].
  destruct (map available_cents _) as [|available rest]; [discriminate|].
  destruct (available <? amountCents); [discriminate|].
  destruct (Sql.update_error _ _ _ _); [discriminate|].
  inversion Hlock; subst d1 u1. clear Hlock.
  exists (refunded (locked d u userId amountCents matchId) (S u) userId amountCents matchId).
  rewrite refundEscrow_run. unfold locked at 1. cbn [wallets].
  rewrite (refund_after_lock_allowed userId amountCents (wallets d) Hchk).
  repeat apply conj; try reflexivity.
  - unfold balances, refunded, locked. cbn [wallets]. apply bump_back.
  - unfold refunded, locked. cbn [wallet_tx]. rewrite <- app_assoc. reflexivity.
Qed.

Lemma X14_a_refund_undoes_the_lock_witness :
  exists d2,
    Sql.run (WalletService.refundEscrow "a" 400 "lobby")
            (locked one_wallet 7 "a" 400 "lobby") 8 = (Ok tt, d2, 9%nat)
    /\ balances d2 = balances one_wallet
    /\ wallet_tx d2 =
       wallet_tx one_wallet
       ++ [mkTx 7 "a" ESCROW_LOCK 400 TX_COMPLETED (REF_matchId "lobby") None;
           mkTx 8 "a" REFUND 400 TX_COMPLETED (REF_matchId "lobby") None]
    /\ lobbies d2 = lobbies one_wallet /\ lobby_players d2 = lobby_players one_wallet
    /\ profiles d2 = profiles one_wallet.
Proof.
  apply (X14_a_refund_undoes_the_lock one_wallet 7 "a"%string 400 "lobby"%string).
  - constructor; [split; [reflexivity | cbn; lia] | constructor].
  - vm_compute. reflexivity.
Defined.

(** ** Failed wallet calls *)

Section Atomic.
Import Sql.
Local Open Scope tx_scope.

Lemma own_client_bigint_param (q : Q) : own_client (WalletService.bigint_param q).
Proof.
  intro c. unfold WalletService.bigint_param. destruct (Qeq_bool _ _); reflexivity.
Qed.

Lemma own_client_settle_payouts (matchId : string) (share : Q) (l : list (string * Z)) :
  own_client (WalletService.settle_payouts matchId share l).
Proof.
  induction l as [|[userId payoutCents] l IH]; cbn [WalletService.settle_payouts].
  - apply own_client_ret.
  - apply own_client_bind; [apply own_client_bigint_param|]. intro release.
    apply own_client_bind; [apply own_client_execute|]. intros _.
    apply own_client_bind; [apply own_client_uuid|]. intro txId.
    apply own_client_bind; [apply own_client_execute|]. intros _. exact IH.
Qed.

Lemma own_client_idempotency (key : option string) :
  own_client (if WalletService.truthy key then WalletService.select_by_key key else ret []).
Proof.
  destruct (WalletService.truthy key); [apply own_client_select | apply own_client_ret].
Qed.

Lemma own_client_post (txId : nat) (row : WalletTx) (st : Stmt) :
  own_client (execute (INSERT_wallet_tx row) ;; execute st ;;
              execute (UPDATE_wallet_tx_status txId TX_COMPLETED) ;; ret txId).
Proof.
  apply own_client_bind; [apply own_client_execute|]. intros _.
  apply own_client_bind; [apply own_client_execute|]. intros _.
  apply own_client_bind; [apply own_client_execute|]. intros _.
  apply own_client_ret.
Qed.

(** A guarded transaction over a callback that stays on its own client
    leaves the committed tables alone when it fails. *)
Lemma guarded_rollback {A : Type} (g : bool) (msg : string) (callback : Tx A)
      (c : Conn) (e : Error) (c' : Conn) :
  own_client callback ->
  (if g then throw msg else db_transaction callback) c = (Err e, c') ->
  committed c' = committed c.
Proof.
  intros Hown. destruct g.
  - unfold throw. intro H. inversion H. reflexivity.
  - apply db_transaction_rollback. exact Hown.
Qed.

Lemma deposit_failure userId amountCents ref key (c : Conn) (e : Error) (c' : Conn) :
  WalletService.deposit userId amountCents ref key c = (Err e, c') ->
  committed c' = committed c.
Proof.
  unfold WalletService.deposit. apply guarded_rollback.
  apply own_client_bind; [apply own_client_idempotency|].
  intros [|row rest].
  - apply own_client_bind; [apply own_client_uuid|]. intro txId. apply own_client_post.
  - destruct (TxStatus_eqb _ _); [apply own_client_ret | apply own_client_throw].
Qed.

Lemma withdraw_failure userId amountCents method key (c : Conn) (e : Error) (c' : Conn) :
  WalletService.withdraw userId amountCents method key c = (Err e, c') ->
  committed c' = committed c.
Proof.
  unfold WalletService.withdraw. apply guarded_rollback.
  apply own_client_bind; [apply own_client_select|].
  intros [|[uid kyc] rest]; [apply own_client_throw|].
  destruct kyc; try apply own_client_throw.
  apply own_client_bind; [apply own_client_idempotency|].
  intros [|row rest'].
  - apply own_client_bind; [apply own_client_select|].
    intros [|available rest'']; [apply own_client_throw|].
    destruct (available <? amountCents); [apply own_client_throw|].
    apply own_client_bind; [apply own_client_uuid|]. intro txId. apply own_client_post.
  - destruct (TxStatus_eqb _ _); [apply own_client_ret | apply own_client_throw].
Qed.

Lemma refundEscrow_failure userId amountCents matchId (c : Conn) (e : Error) (c' : Conn) :
  WalletService.refundEscrow userId amountCents matchId c = (Err e, c') ->
  committed c' = committed c.
Proof.
  unfold WalletService.refundEscrow. apply db_transaction_rollback.
  apply own_client_bind; [apply own_client_execute|]. intros _.
  apply own_client_bind; [apply own_client_uuid|]. intro txId.
  apply own_client_execute.
Qed.

Lemma settleMatch_failure matchId payouts rakeCents (c : Conn) (e : Error) (c' : Conn) :
  WalletService.settleMatch matchId payouts rakeCents c = (Err e, c') ->
  committed c' = committed c.
Proof.
  unfold WalletService.settleMatch. apply db_transaction_rollback.
  apply own_client_bind; [apply own_client_settle_payouts|]. intros _.
  apply own_client_bind; [apply own_client_uuid|]. intro txId.
  apply own_client_execute.
Qed.

Lemma dropped_failure {A : Type} (op : Tx A) (c : Conn) (e : Error) (c' : Conn) :
  (forall e1 c1, op c = (Err e1, c1) -> committed c1 = committed c) ->
  bind op (fun _ => ret tt) c = (Err e, c') -> committed c' = committed c.
Proof.
  intros Hop. unfold bind, ret. destruct (op c) as [[a|e1] c1] eqn:E.
  - intro H. inversion H.
  - intro H. inversion H; subst. apply (Hop _ _ eq_refl).
Qed.

End Atomic.

(** X15: A call of deposit, withdraw, lockEscrow, refundEscrow or settleMatch
    of the wallet service that fails leaves every table exactly as it was. *)
Theorem X15_a_failed_wallet_call_changes_nothing
        (call : WalletCall) (d : DB) (u : nat) (e : Error) (d' : DB) (u' : nat) :
  Sql.run (perform call) d u = (Err e, d', u') -> d' = d.
Proof.
  unfold Sql.run. destruct (perform call (Sql.mkConn d [] u)) as [r c'] eqn:E.
  intro H. inversion H; subst. clear H.
  change (Sql.committed c' = Sql.committed (Sql.mkConn d [] u)).
  destruct call; cbn [perform] in E.
  - eapply dropped_failure; [|exact E]. intros e1 c1. apply deposit_failure.
  - eapply dropped_failure; [|exact E]. intros e1 c1. apply withdraw_failure.
  - eapply lockEscrow_failure; exact E.
  - eapply refundEscrow_failure; exact E.
  - eapply settleMatch_failure; exact E.
Qed.

Lemma X15_a_failed_wallet_call_changes_nothing_witness :
  let d := mkDB [mkWallet "a" 0 1000 1; mkWallet "b" 0 500 1] [] [] [] [] in
  let call := CALL_settleMatch "match" [("a", 1000); ("b", 440)]%string 160 in
  Sql.run (perform call) d 7 =
    (Err (QueryError "new row for relation wallets violates check constraint"), d, 8%nat)
  /\ d = d.
Proof.
  intros d call.
  assert (H : Sql.run (perform call) d 7 =
              (Err (QueryError "new row for relation wallets violates check constraint"),
               d, 8%nat)) by (vm_compute; reflexivity).
  split; [exact H|].
  exact (X15_a_failed_wallet_call_changes_nothing call d 7 _ d 8 H).
Defined.

(** ** Withdrawals and deposits *)

Section Withdraw.
Import Sql.

Lemma withdraw_run (d : DB) (u : nat) (userId : string) (amountCents : Z)
      (method : string) (key : option string) :
  run (WalletService.withdraw userId amountCents method key) d u =
  if amountCents <=? 0 then (Err (Thrown "Withdrawal amount must be positive"), d, u)
  else
    match filter (fun r => String.eqb (fst r) userId) (profiles d) with
    | (_, KYC_APPROVED) :: _ =>
        match (if WalletService.truthy key
               then filter (same_key key) (wallet_tx d) else []) with
        | row :: _ =>
            if TxStatus_eqb (tx_status row) TX_COMPLETED then (Ok (tx_id row), d, u)
            else (Err (Thrown "Transaction already in progress"), d, u)
        | [] =>
            match map available_cents (wallet_of userId d) with
            | available :: _ =>
                if available <? amountCents
                then (Err (Thrown "Insufficient balance"), d, u)
                else if existsb (same_key key) (wallet_tx d)
                then (Err (QueryError
                        "duplicate key value violates unique constraint on idempotency_key"),
                      d, S u)
                else match update_error (wallets d) userId (- amountCents) 0 with
                     | None => (Ok u, withdrawn d u userId amountCents method key, S u)
                     | Some message => (Err (QueryError message), d, S u)
                     end
            | [] => (Err (Thrown "Insufficient balance"), d, u)
            end
        end
    | _ => (Err (Thrown "KYC approval required for withdrawals"), d, u)
    end.
Proof.
  unfold run, WalletService.withdraw, wallet_of.
  destruct (amountCents <=? 0); [reflexivity|].
  unfold db_transaction. unfold bind at 1. unfold select at 1. unfold view at 1.
  cbn [committed pending next_uuid replay].
  destruct (filter _ (profiles d)) as [|[uid kyc] rest]; [reflexivity|].
  destruct kyc; try reflexivity.
  unfold bind at 1.
  assert (Hex : (if WalletService.truthy key then WalletService.select_by_key key else ret [])
                  (mkConn d [] u)
                = (Ok (if WalletService.truthy key
                       then filter (same_key key) (wallet_tx d) else []), mkConn d [] u)).
  { destruct (WalletService.truthy key); reflexivity. }
  rewrite Hex. clear Hex.
  destruct (if WalletService.truthy key then filter (same_key key) (wallet_tx d) else [])
    as [|row rest'].
  - unfold WalletService.select_available, bind, select, execute, view, uuid, ret, throw.
    cbn [committed pending next_uuid replay].
    destruct (map available_cents _) as [|available rest'']; [reflexivity|].
    destruct (available <? amountCents); [reflexivity|].
    destruct (existsb (same_key key) (wallet_tx d)) eqn:Ek;
      destruct (update_error (wallets d) userId (- amountCents) 0) eqn:Ea;
      repeat (cbn [committed pending next_uuid replay exec idempotency_key wallets wallet_tx];
              rewrite ?Ek, ?Ea);
      reflexivity.
  - destruct (TxStatus_eqb (tx_status row) TX_COMPLETED); reflexivity.
Qed.



End Withdraw.

(** X16: A withdrawal that succeeds had a positive amount and a user whose
    profile is KYC-approved; it either returned the completed transaction that
    already carries the idempotency key, changing nothing, or found
    available_cents >= amount, debited the wallet by the amount and recorded
    one completed WITHDRAWAL row. *)
Theorem X16_what_a_successful_withdrawal_has_checked
        (d : DB) (u : nat) (userId : string) (amountCents : Z) (method : string)
        (key : option string) (txId : nat) (d' : DB) (u' : nat) :
  Sql.run (WalletService.withdraw userId amountCents method key) d u = (Ok txId, d', u') ->
  0 < amountCents
  /\ (exists uid rest,
        filter (fun r => String.eqb (fst r) userId) (profiles d) = (uid, KYC_APPROVED) :: rest)
  /\ ((exists row rest,
         WalletService.truthy key = true
         /\ filter (Sql.same_key key) (wallet_tx d) = row :: rest
         /\ tx_status row = TX_COMPLETED /\ txId = tx_id row /\ d' = d)
      \/ (exists available rest,
            map available_cents (wallet_of userId d) = available :: rest
            /\ amountCents <= available
            /\ txId = u
            /\ d' = withdrawn d u userId amountCents method key)).
Proof.
  rewrite withdraw_run.
  destruct (amountCents <=? 0) eqn:Ea; [discriminate|]. apply Z.leb_gt in Ea.
  destruct (filter _ (profiles d)) as [|[uid kyc] rest]; [discriminate|].
  destruct kyc; try discriminate.
  intro H. split; [exact Ea|]. split; [exists uid, rest; reflexivity|].
  destruct (WalletService.truthy key) eqn:Et.
  - destruct (filter (Sql.same_key key) (wallet_tx d)) as [|row rest'] eqn:Ef.
    + right. revert H.
      destruct (map available_cents _) as [|available rest'']; [discriminate|].
      destruct (available <? amountCents) eqn:Eav; [discriminate|]. apply Z.ltb_ge in Eav.
      destruct (existsb _ _); [discriminate|].
      destruct (Sql.update_error _ _ _ _) eqn:Eu; [discriminate|].
      intro H. inversion H; subst. exists available, rest''.
      repeat split; assumption.
    + left. revert H. destruct (TxStatus_eqb (tx_status row) TX_COMPLETED) eqn:Es;
        [|discriminate].
      intro H. inversion H; subst. exists row, rest'.
      repeat split. destruct (tx_status row); try discriminate. reflexivity.
  - right. revert H.
    destruct (map available_cents _) as [|available rest'']; [discriminate|].
    destruct (available <? amountCents) eqn:Eav; [discriminate|]. apply Z.ltb_ge in Eav.
    destruct (existsb _ _); [discriminate|].
    destruct (Sql.update_error _ _ _ _) eqn:Eu; [discriminate|].
    intro H. inversion H; subst. exists available, rest''.
    repeat split; assumption.
Qed.

Lemma X16_what_a_successful_withdrawal_has_checked_witness :
  let d := mkDB [mkWallet "a" 1000 0 0] [] [] [] [("a", KYC_APPROVED)]%string in
  Sql.run (WalletService.withdraw "a" 400 "bank" None) d 7
    = (Ok 7%nat, withdrawn d 7 "a" 400 "bank" None, 8%nat)
  /\ 0 < 400
  /\ (exists uid rest,
        filter (fun r => String.eqb (fst r) "a") (profiles d) = (uid, KYC_APPROVED) :: rest)
  /\ ((exists row rest,
         WalletService.truthy None = true
         /\ filter (Sql.same_key None) (wallet_tx d) = row :: rest
         /\ tx_status row = TX_COMPLETED /\ 7%nat = tx_id row
         /\ withdrawn d 7 "a" 400 "bank" None = d)
      \/ (exists available rest,
            map available_cents (wallet_of "a" d) = available :: rest
            /\ 400 <= available
            /\ 7%nat = 7%nat
            /\ withdrawn d 7 "a" 400 "bank" None = withdrawn d 7 "a" 400 "bank" None)).
Proof.
  intro d.
  assert (H : Sql.run (WalletService.withdraw "a" 400 "bank" None) d 7
              = (Ok 7%nat, withdrawn d 7 "a" 400 "bank" None, 8%nat))
    by (vm_compute; reflexivity).
  split; [exact H|].
  exact (X16_what_a_successful_withdrawal_has_checked d 7 "a"%string 400 "bank"%string None
           7%nat _ 8%nat H).
Defined.



(** ** The wallet settlement *)

Section Settle.
Import Sql.

(** What the client sees after a statement that went through. *)
Lemma execute_view (st : Stmt) (c : Conn) (dv : DB) (c' : Conn) :
  view c = Ok dv -> execute st c = (Ok tt, c') ->
  exists dv', exec st dv = Ok dv' /\ view c' = Ok dv'.
Proof.
  intros Hv. unfold execute. rewrite Hv.
  destruct (exec st dv) as [dv'|e] eqn:E; intro H; inversion H; subst.
  exists dv'. split; [reflexivity|].
  unfold view in *. cbn [pending committed replay]. rewrite Hv. exact E.
Qed.

Lemma sum_holdings_bump (userId : string) (da de : Z) (ws : list WalletRow) :
  fold_right Z.add 0 (map (fun r => available_cents r + escrow_cents r)
                          (map (bump userId da de) ws))
  = fold_right Z.add 0 (map (fun r => available_cents r + escrow_cents r) ws)
    + (da + de) * Z.of_nat (List.length
                              (filter (fun r => String.eqb (wallet_user_id r) userId) ws)).
Proof.
  induction ws as [|r ws IH]; cbn [map fold_right filter List.length]; [lia|].
  rewrite IH. unfold bump.
  destruct (String.eqb (wallet_user_id r) userId);
    cbn [available_cents escrow_cents List.length]; rewrite ?Nat2Z.inj_succ; lia.
Qed.

Lemma total_cents_sum (d : DB) :
  total_cents d = fold_right Z.add 0 (map (fun r => available_cents r + escrow_cents r)
                                          (wallets d)).
Proof. unfold total_cents, holdings. rewrite map_map. reflexivity. Qed.

Lemma wallet_of_bump (who userId : string) (da de : Z) (ws : list WalletRow) :
  List.length (filter (fun r => String.eqb (wallet_user_id r) who) (map (bump userId da de) ws))
  = List.length (filter (fun r => String.eqb (wallet_user_id r) who) ws).
Proof.
  induction ws as [|r ws IH]; cbn [map filter]; [reflexivity|].
  rewrite bump_user. destruct (String.eqb (wallet_user_id r) who); cbn [List.length];
    now rewrite IH.
Qed.

Lemma payout_fold (l : list (string * Z)) (a : Z) :
  fold_left (fun sum p => sum + snd p) l a = a + payout_sum l.
Proof.
  revert a. induction l as [|p l IH]; intro a; cbn [fold_left payout_sum map fold_right].
  - lia.
  - rewrite IH. unfold payout_sum. lia.
Qed.

(** The loop of [settleMatch], seen from its client. *)
Lemma settle_payouts_view (matchId : string) (share : Q) (l : list (string * Z)) :
  forall (c : Conn) (dv : DB) (c' : Conn),
    view c = Ok dv ->
    Forall (fun up => List.length (wallet_of (fst up) dv) = 1%nat) l ->
    WalletService.settle_payouts matchId share l c = (Ok tt, c') ->
    exists dv',
      view c' = Ok dv'
      /\ (l <> [] -> (share == inject_Z (Qfloor share))%Q)
      /\ total_cents dv' =
         total_cents dv + payout_sum l - Z.of_nat (List.length l) * Qfloor share.
Proof.
  induction l as [|[userId payoutCents] l IH]; intros c dv c' Hv Hone;
    cbn [WalletService.settle_payouts].
  - unfold ret. intro H. inversion H; subst. exists dv.
    split; [exact Hv|]. split; [congruence|]. unfold payout_sum. cbn. lia.
  - inversion Hone as [|? ? H1 Hrest]; subst. cbn [fst] in H1.
    unfold bind at 1. unfold WalletService.bigint_param.
    destruct (Qeq_bool share (inject_Z (Qfloor share))) eqn:Eint; [|discriminate].
    unfold ret at 1.
    unfold bind at 1.
    destruct (execute (UPDATE_wallets userId payoutCents (- Qfloor share)) c)
      as [[[]|e] c1] eqn:E1; [|discriminate].
    destruct (execute_view _ _ _ _ Hv E1) as (dv1 & X1 & V1).
    unfold bind at 1. unfold uuid at 1.
    unfold bind at 1.
    match goal with
    | |- context [execute ?st ?c2] => destruct (execute st c2) as [[[]|e] c3] eqn:E3
    end; [|discriminate].
    assert (V2 : view (mkConn (committed c1) (pending c1) (S (next_uuid c1))) = Ok dv1)
      by exact V1.
    destruct (execute_view _ _ _ _ V2 E3) as (dv3 & X3 & V3).
    cbn [exec] in X1, X3.
    destruct (update_error (wallets dv) userId payoutCents (- Qfloor share));
      [discriminate|].
    inversion X1; subst dv1. clear X1.
    cbn [idempotency_key wallet_tx] in X3. rewrite existsb_same_key_None in X3.
    inversion X3; subst dv3. clear X3.
    intro Hloop.
    destruct (IH c3 _ c' V3) as (dv' & V' & _ & T'); [|exact Hloop|].
    { eapply Forall_impl; [|exact Hrest]. intros up Hup.
      unfold wallet_of in *. cbn [wallets]. rewrite wallet_of_bump. exact Hup. }
    exists dv'. split; [exact V'|]. split.
    + intros _. apply Qeq_bool_iff. exact Eint.
    + rewrite T'. rewrite !total_cents_sum. cbn [wallets].
      rewrite sum_holdings_bump. unfold wallet_of in H1. rewrite H1.
      unfold payout_sum. cbn [map fold_right snd List.length].
      rewrite Nat2Z.inj_succ. lia.
Qed.

Lemma Qfloor_div (a n : Z) : 0 < n -> Qfloor (inject_Z a / inject_Z n) = a / n.
Proof.
  intro Hn. symmetry. apply Zdiv_Qdiv.
Qed.

Lemma whole_share (a n : Z) :
  0 < n -> (inject_Z a / inject_Z n == inject_Z (Qfloor (inject_Z a / inject_Z n)))%Q ->
  n * Qfloor (inject_Z a / inject_Z n) = a.
Proof.
  intros Hn H. rewrite (Qfloor_div a n Hn) in H. rewrite (Qfloor_div a n Hn).
  assert (Hq : (inject_Z a == inject_Z n * inject_Z (a / n))%Q).
  { rewrite <- H. field. intro Z0.
    assert (Hx : (inject_Z 0 < inject_Z n)%Q) by (rewrite <- Zlt_Qlt; exact Hn).
    rewrite Z0 in Hx. apply (Qlt_irrefl _ Hx). }
  rewrite <- inject_Z_mult in Hq. apply (proj1 (inject_Z_injective _ _)) in Hq.
  symmetry. exact Hq.
Qed.

End Settle.

(** X18: A successful WalletService.settleMatch over payees who each have
    exactly one wallet row lowers the total held in the wallets (available
    plus escrow) by exactly the rake; it can succeed only when payouts plus
    rake divide evenly by the number of payouts. *)
Theorem X18_settlement_takes_exactly_the_rake_out_of_the_wallets
        (matchId : string) (payouts : list (string * Z)) (rakeCents : Z)
        (d : DB) (u : nat) (d' : DB) (u' : nat) :
  payouts <> [] ->
  Forall (fun up => List.length (wallet_of (fst up) d) = 1%nat) payouts ->
  Sql.run (WalletService.settleMatch matchId payouts rakeCents) d u = (Ok tt, d', u') ->
  total_cents d' = total_cents d - rakeCents
  /\ (payout_sum payouts + rakeCents) mod Z.of_nat (List.length payouts) = 0.
Proof.
  intros Hne Hone. unfold Sql.run, WalletService.settleMatch, Sql.db_transaction.
  cbn [Sql.committed Sql.next_uuid].
  rewrite payout_fold, Z.add_0_l.
  set (share := (inject_Z (payout_sum payouts + rakeCents)
                 / inject_Z (Z.of_nat (List.length payouts)))%Q).
  unfold Sql.bind at 1.
  destruct (WalletService.settle_payouts matchId share payouts (Sql.mkConn d [] u))
    as [[[]|e] c1] eqn:Eloop; [|intro H; inversion H].
  destruct (settle_payouts_view matchId share payouts (Sql.mkConn d [] u) d c1 eq_refl Hone Eloop)
    as (dv & V & Hint & T).
  unfold Sql.bind at 1. unfold Sql.uuid at 1.
  match goal with
  | |- context [Sql.execute ?st ?c2] => destruct (Sql.execute st c2) as [[[]|e] c3] eqn:E3
  end; [|intro H; inversion H].
  assert (V2 : Sql.view (Sql.mkConn (Sql.committed c1) (Sql.pending c1)
                                    (S (Sql.next_uuid c1))) = Ok dv) by exact V.
  destruct (execute_view _ _ _ _ V2 E3) as (dv3 & X3 & V3).
  cbn [Sql.exec idempotency_key] in X3. rewrite existsb_same_key_None in X3.
  inversion X3; subst dv3. clear X3.
  rewrite V3. intro H. inversion H; subst. clear H.
  assert (Hn : 0 < Z.of_nat (List.length payouts)).
  { destruct payouts; [congruence | cbn [List.length]; lia]. }
  pose proof (whole_share _ _ Hn (Hint Hne)) as Hw. fold share in Hw.
  split.
  - change (total_cents dv = total_cents d - rakeCents). rewrite T. lia.
  - rewrite <- Hw. rewrite Z.mul_comm. apply Z.mod_mul. lia.
Qed.

Lemma X18_settlement_takes_exactly_the_rake_out_of_the_wallets_witness :
  let d' := mkDB [mkWallet "a" 1196 92 2; mkWallet "b" 460 92 2]
                 [mkTx 7 "a" PAYOUT 1196 TX_COMPLETED (REF_matchId "match") None;
                  mkTx 8 "b" PAYOUT 460 TX_COMPLETED (REF_matchId "match") None;
                  mkTx 9 WalletService.HOUSE_USER_ID RAKE 160 TX_COMPLETED
                       (REF_matchId "match") None]
                 [] [] [] in
  total_cents d' = total_cents two_escrows - 160
  /\ (payout_sum [("a", 1196); ("b", 460)]%string + 160) mod Z.of_nat 2 = 0.
Proof.
  intro d'.
  apply (X18_settlement_takes_exactly_the_rake_out_of_the_wallets
           "match"%string [("a", 1196); ("b", 460)]%string 160 two_escrows 7 d' 10).
  - discriminate.
  - repeat constructor.
  - vm_compute. reflexivity.
Defined.

(** X19: When the sum of the payouts plus the rake is not a multiple of the
    number of payouts, WalletService.settleMatch fails on the first escrow
    release (the share is not a valid bigint) and changes nothing. *)
Theorem X19_an_uneven_share_rejects_the_settlement
        (matchId : string) (payouts : list (string * Z)) (rakeCents : Z) (d : DB) (u : nat) :
  payouts <> [] ->
  (payout_sum payouts + rakeCents) mod Z.of_nat (List.length payouts) <> 0 ->
  Sql.run (WalletService.settleMatch matchId payouts rakeCents) d u =
  (Err (QueryError "invalid input syntax for type bigint"), d, u).
Proof.
  intros Hne Hmod. unfold Sql.run, WalletService.settleMatch, Sql.db_transaction.
  cbn [Sql.committed Sql.next_uuid].
  rewrite payout_fold, Z.add_0_l.
  set (share := (inject_Z (payout_sum payouts + rakeCents)
                 / inject_Z (Z.of_nat (List.length payouts)))%Q).
  assert (Hn : 0 < Z.of_nat (List.length payouts)).
  { destruct payouts; [congruence | cbn [List.length]; lia]. }
  assert (Hq : Qeq_bool share (inject_Z (Qfloor share)) = false).
  { destruct (Qeq_bool share (inject_Z (Qfloor share))) eqn:E; [|reflexivity].
    exfalso. apply Qeq_bool_iff in E. apply Hmod.
    pose proof (whole_share _ _ Hn E) as Hw. fold share in Hw.
    rewrite <- Hw. rewrite Z.mul_comm. apply Z.mod_mul. lia. }
  destruct payouts as [|[userId payoutCents] rest]; [congruence|].
  cbn [WalletService.settle_payouts]. unfold Sql.bind at 1. unfold Sql.bind at 1.
  unfold WalletService.bigint_param. rewrite Hq. reflexivity.
Qed.

Lemma X19_an_uneven_share_rejects_the_settlement_witness :
  Sql.run (WalletService.settleMatch "match" [("a", 1196); ("b", 460)]%string 161)
          two_escrows 7 =
  (Err (QueryError "invalid input syntax for type bigint"), two_escrows, 7%nat).
Proof.
  apply X19_an_uneven_share_rejects_the_settlement.
  - discriminate.
  - vm_compute. discriminate.
Defined.

(** ** Joining a lobby *)

Section Joining.
Import Sql.

Lemma filter_nil_existsb {A : Type} (f : A -> bool) (l : list A) :
  filter f l = [] -> existsb f l = false.
Proof.
  induction l as [|a l IH]; cbn [filter existsb]; [reflexivity|].
  destruct (f a); [discriminate | exact IH].
Qed.

Lemma getMaxPlayers_20 (mode : GameMode) : LobbyService.getMaxPlayers mode = 20.
Proof. destruct mode; reflexivity. Qed.

Lemma joinLobby_run (lobbyId userId : string) (teamNo : Z) (d : DB) (u : nat) :
  run (LobbyService.joinLobby lobbyId userId teamNo) d u =
  match lobby_of lobbyId d with
  | [] => (Err (Thrown "Lobby not found"), d, u)
  | lobbyData :: _ =>
      if negb (LobbyState_eqb (lobby_state lobbyData) WAITING)
      then (Err (Thrown "Lobby is not accepting players"), d, u)
      else
        match filter (member_of lobbyId userId) (lobby_players d) with
        | _ :: _ => (Err (Thrown "Already in lobby"), d, u)
        | [] =>
            if 20 <=? Z.of_nat (members lobbyId d)
            then (Err (Thrown "Lobby is full"), d, u)
            else
              match run (WalletService.lockEscrow userId (buy_in_cents lobbyData) lobbyId) d u
              with
              | (Ok _, d1, u1) =>
                  match exec (INSERT_lobby_players (mkLobbyPlayer lobbyId userId teamNo)) d1
                  with
                  | Ok d2 => (Ok u1, d2, S u1)
                  | Err e => (Err e, d1, u1)
                  end
              | (Err e, d1, u1) => (Err e, d1, u1)
              end
        end
  end.
Proof.
  unfold run at 1. unfold LobbyService.joinLobby, db_transaction, lobby_of, members.
  unfold bind at 1. unfold select at 1. unfold view at 1.
  cbn [committed pending next_uuid replay].
  destruct (filter _ (lobbies d)) as [|lobbyData rest]; [reflexivity|].
  destruct (negb (LobbyState_eqb (lobby_state lobbyData) WAITING)); [reflexivity|].
  unfold bind at 1. unfold select at 1. unfold view at 1.
  cbn [committed pending next_uuid replay].
  destruct (filter _ (lobby_players d)) as [|row rows]; [|reflexivity].
  unfold bind at 1. unfold select at 1. unfold view at 1.
  cbn [committed pending next_uuid replay].
  rewrite getMaxPlayers_20.
  destruct (20 <=? _); [reflexivity|].
  unfold bind at 1. unfold run.
  pose proof (lockEscrow_pending userId (buy_in_cents lobbyData) lobbyId
                                 (mkConn d [] u)) as Hpend.
  destruct (WalletService.lockEscrow userId (buy_in_cents lobbyData) lobbyId
                                     (mkConn d [] u)) as [[[]|e1] c1].
  - destruct c1 as [dc pc uc]. cbn [snd pending] in Hpend. subst pc.
    cbn [committed next_uuid].
    unfold bind at 1. unfold execute at 1. unfold view at 1.
    cbn [committed pending next_uuid replay].
    destruct (exec _ dc) as [d2|e2] eqn:Eins.
    + unfold bind, uuid, ret, view.
      cbn [committed pending next_uuid replay]. rewrite Eins. reflexivity.
    + reflexivity.
  - reflexivity.
Qed.


Lemma joinLobby_ok (lobbyId userId : string) (teamNo : Z) (d : DB) (u : nat)
      (wsToken : nat) (d' : DB) (u' : nat) :
  run (LobbyService.joinLobby lobbyId userId teamNo) d u = (Ok wsToken, d', u') ->
  exists lobbyData rest,
    lobby_of lobbyId d = lobbyData :: rest
    /\ lobby_state lobbyData = WAITING
    /\ filter (member_of lobbyId userId) (lobby_players d) = []
    /\ (members lobbyId d < 20)%nat
    /\ 0 < buy_in_cents lobbyData
    /\ d' = joined d u lobbyId userId teamNo (buy_in_cents lobbyData)
    /\ wsToken = S u /\ u' = S (S u).
Proof.
  rewrite joinLobby_run.
  destruct (lobby_of lobbyId d) as [|lobbyData rest]; [discriminate|].
  destruct (LobbyState_eqb (lobby_state lobbyData) WAITING) eqn:Es; cbn [negb];
    [|discriminate].
  destruct (filter _ (lobby_players d)) as [|row rows] eqn:Em; [|discriminate].
  destruct (20 <=? Z.of_nat (members lobbyId d)) eqn:Ec; [discriminate|].
  rewrite lockEscrow_run.
  destruct (buy_in_cents lobbyData <=? 0) eqn:Eb; [discriminate|].
  destruct (map available_cents _) as [|available rest']; [discriminate|].
  destruct (available <? buy_in_cents lobbyData); [discriminate|].
  destruct (update_error _ _ _ _); [discriminate|].
  cbn [exec team_no lp_lobby_id lp_user_id].
  destruct (negb (int4 teamNo)); [discriminate|].
  unfold locked at 1. cbn [lobby_players]. rewrite (filter_nil_existsb _ _ Em).
  intro H. inversion H; subst. clear H.
  exists lobbyData, rest.
  repeat apply conj; try reflexivity.
  - destruct (lobby_state lobbyData); try discriminate. reflexivity.
  - apply Z.leb_gt in Ec. lia.
  - apply Z.leb_gt in Eb. exact Eb.
Qed.

Lemma lockEscrow_lobby_players (userId : string) (amountCents : Z) (matchId : string)
      (d : DB) (u : nat) :
  lobby_players (snd (fst (run (WalletService.lockEscrow userId amountCents matchId) d u)))
  = lobby_players d.
Proof.
  rewrite lockEscrow_run.
  destruct (amountCents <=? 0); [reflexivity|].
  destruct (map available_cents _) as [|available rest]; [reflexivity|].
  destruct (available <? amountCents); [reflexivity|].
  destruct (update_error _ _ _ _); reflexivity.
Qed.

End Joining.

(** X20: After a successful joinLobby, a second joinLobby of the same user to
    the same lobby is rejected with 'Already in lobby' and changes nothing: no
    second buy-in is locked. *)
Theorem X20_a_member_cannot_join_again
        (lobbyId userId : string) (teamNo teamNo' : Z) (d : DB) (u : nat)
        (wsToken : nat) (d' : DB) (u' : nat) :
  Sql.run (LobbyService.joinLobby lobbyId userId teamNo) d u = (Ok wsToken, d', u') ->
  Sql.run (LobbyService.joinLobby lobbyId userId teamNo') d' u'
  = (Err (Thrown "Already in lobby"), d', u').
Proof.
  intro H. destruct (joinLobby_ok _ _ _ _ _ _ _ _ H)
    as (lobbyData & rest & El & Es & Em & _ & _ & Ed & _ & _).
  rewrite joinLobby_run.
  assert (El' : lobby_of lobbyId d' = lobbyData :: rest) by (subst d'; exact El).
  rewrite El', Es. cbn [LobbyState_eqb negb].
  subst d'. unfold joined at 1. cbn [lobby_players].
  rewrite filter_app, Em. cbn [filter app]. unfold Sql.member_of.
  cbn [lp_lobby_id lp_user_id]. rewrite !String.eqb_refl. reflexivity.
Qed.

Lemma X20_a_member_cannot_join_again_witness :
  Sql.run (LobbyService.joinLobby "lobby" "a" 3) (joined open_lobby 7 "lobby" "a" 0 500) 9
  = (Err (Thrown "Already in lobby"), joined open_lobby 7 "lobby" "a" 0 500, 9%nat).
Proof.
  apply (X20_a_member_cannot_join_again "lobby"%string "a"%string 0 3 open_lobby 7 8%nat).
  vm_compute. reflexivity.
Defined.

(** X21: joinLobby never grows a lobby beyond 20 members: after any call,
    whatever its outcome, every lobby has at most max(20, the number of
    members it had before) members. *)
Theorem X21_a_lobby_never_grows_beyond_20_members
        (lobbyId userId : string) (teamNo : Z) (d : DB) (u : nat) (lobby : string) :
  let d' := snd (fst (Sql.run (LobbyService.joinLobby lobbyId userId teamNo) d u)) in
  (members lobby d' <= Nat.max 20 (members lobby d))%nat.
Proof.
  cbv zeta. rewrite joinLobby_run.
  assert (Hsame : forall d1 : DB, lobby_players d1 = lobby_players d ->
                                  (members lobby d1 <= Nat.max 20 (members lobby d))%nat).
  { intros d1 E. unfold members. rewrite E. lia. }
  destruct (lobby_of lobbyId d) as [|lobbyData rest]; [apply Hsame; reflexivity|].
  destruct (negb _); [apply Hsame; reflexivity|].
  destruct (filter _ (lobby_players d)) as [|row rows]; [|apply Hsame; reflexivity].
  destruct (20 <=? Z.of_nat (members lobbyId d)) eqn:Ec; [apply Hsame; reflexivity|].
  apply Z.leb_gt in Ec.
  pose proof (lockEscrow_lobby_players userId (buy_in_cents lobbyData) lobbyId d u) as Hl.
  destruct (Sql.run (WalletService.lockEscrow userId (buy_in_cents lobbyData) lobbyId) d u)
    as [[[[]|e] d1] u1]; cbn [fst snd] in Hl; [|apply Hsame; exact Hl].
  cbn [Sql.exec team_no lp_lobby_id lp_user_id].
  destruct (negb (Sql.int4 teamNo)); [apply Hsame; exact Hl|].
  destruct (existsb _ _); [apply Hsame; exact Hl|].
  cbn [fst snd]. unfold members in *. cbn [lobby_players]. rewrite Hl, filter_app.
  rewrite length_app. cbn [filter lp_lobby_id].
  destruct (String.eqb_spec lobbyId lobby) as [E | N]; cbn [List.length].
  - subst lobby. lia.
  - lia.
Qed.

(** ** The seeded generators *)

Section Digest.








End Digest.



(** ** Leaving a lobby and starting its match *)

Section Leaving.
Import Pg.

Lemma with_base_same (s : Tables) : with_base (base s) s = s.
Proof. destruct s; reflexivity. Qed.

Lemma lobby_id_filter (lobbyId : string) (l : list LobbyRow) (r : LobbyRow)
      (rest : list LobbyRow) :
  filter (lobby_is lobbyId) l = r :: rest -> lobby_id r = lobbyId.
Proof.
  intro H. assert (Hin : In r (filter (lobby_is lobbyId) l)) by (rewrite H; left; reflexivity).
  apply filter_In in Hin. destruct Hin as [_ Hin]. apply String.eqb_eq. exact Hin.
Qed.

Lemma leaveLobby_run (s : Tables) (u : nat) (lobbyId userId : string) :
  run (Lobby.leaveLobby lobbyId userId) s u =
  match filter (lobby_is lobbyId) (lobbies (base s)) with
  | [] => (Err (Thrown "Lobby not found"), s, u)
  | lobbyData :: _ =>
      if negb (LobbyState_eqb (lobby_state lobbyData) WAITING)
      then (Err (Thrown "Cannot leave lobby after match has started"), s, u)
      else match Sql.update_error (wallets (base s)) userId (buy_in_cents lobbyData)
                                  (- buy_in_cents lobbyData) with
           | None => (Ok tt, left_lobby s u lobbyId userId (buy_in_cents lobbyData), S u)
           | Some message => (Err (QueryError message), s, u)
           end
  end.
Proof.
  unfold run, Lobby.leaveLobby, db_transaction.
  unfold bind at 1. unfold select at 1. unfold view at 1.
  cbn [committed pending next_uuid replay].
  destruct (filter (lobby_is lobbyId) (lobbies (base s))) as [|lobbyData rest];
    [reflexivity|].
  destruct (negb (LobbyState_eqb (lobby_state lobbyData) WAITING)); [reflexivity|].
  unfold bind, execute, view, wallet.
  cbn [committed pending next_uuid replay exec].
  rewrite refundEscrow_run.
  destruct (Sql.update_error _ _ _ _).
  - cbn [committed pending next_uuid]. rewrite with_base_same. reflexivity.
  - cbn [committed pending next_uuid replay exec]. reflexivity.
Qed.

Lemma filter_keeps {A : Type} (f : A -> bool) (l : list A) :
  filter f l = [] -> filter (fun a => negb (f a)) l = l.
Proof.
  induction l as [|a l IH]; cbn [filter]; [reflexivity|].
  destruct (f a); [discriminate|]. cbn [negb]. intro H. now rewrite IH.
Qed.

Lemma filter_negb_none {A : Type} (f : A -> bool) (l : list A) :
  filter f (filter (fun a => negb (f a)) l) = [].
Proof.
  induction l as [|a l IH]; cbn [filter]; [reflexivity|].
  destruct (f a) eqn:E; cbn [negb filter]; [exact IH|]. rewrite E. exact IH.
Qed.

End Leaving.

Section Starting.
Import Pg.

Lemma exec_INSERT_matches (row : MatchRow) (s : Tables) :
  exec (INSERT_matches row) s =
  if negb (Sql.int4 (match_rake_bps row) && Sql.int4 (pot_cents row)
           && Sql.int4 (rake_cents row) && Sql.int4 (net_pot_cents row))
  then Err (QueryError "integer out of range")
  else if negb ((0 <=? pot_cents row) && (0 <=? rake_cents row)
                && (0 <=? net_pot_cents row))
  then Err (QueryError "new row for relation matches violates check constraint")
  else Ok (mkTables (base s) (matches s ++ [row]) (match_players s) (mmr_solo s)).
Proof. reflexivity. Qed.

Lemma exec_UPDATE_lobbies_state (lobbyId : string) (st : LobbyState) (s : Tables) :
  exec (UPDATE_lobbies_state lobbyId st) s =
  Ok (with_base (mkDB (wallets (base s)) (wallet_tx (base s))
                      (map (set_state lobbyId st) (lobbies (base s)))
                      (lobby_players (base s)) (profiles (base s))) s).
Proof. reflexivity. Qed.

Lemma insert_match_then_state {A : Type} (row : MatchRow) (lobbyId : string)
      (st : LobbyState) (a : A) (s : Tables) (u : nat) :
  db_transaction
    (bind (execute (INSERT_matches row))
          (fun _ => bind (execute (UPDATE_lobbies_state lobbyId st)) (fun _ => ret a)))
    (mkConn s [] u) =
  if negb (Sql.int4 (match_rake_bps row) && Sql.int4 (pot_cents row)
           && Sql.int4 (rake_cents row) && Sql.int4 (net_pot_cents row))
  then (Err (QueryError "integer out of range"), mkConn s [] u)
  else if negb ((0 <=? pot_cents row) && (0 <=? rake_cents row)
                && (0 <=? net_pot_cents row))
  then (Err (QueryError "new row for relation matches violates check constraint"),
        mkConn s [] u)
  else (Ok a, mkConn (with_match s row lobbyId st) [] u).
Proof.
  unfold db_transaction, bind, execute, view, ret.
  cbn [committed pending next_uuid replay].
  rewrite exec_INSERT_matches.
  destruct (negb (Sql.int4 (match_rake_bps row) && Sql.int4 (pot_cents row)
                  && Sql.int4 (rake_cents row) && Sql.int4 (net_pot_cents row))) eqn:E1;
    [reflexivity|].
  destruct (negb ((0 <=? pot_cents row) && (0 <=? rake_cents row)
                  && (0 <=? net_pot_cents row))) eqn:E2; [reflexivity|].
  repeat (cbn [committed pending next_uuid replay];
          rewrite ?exec_INSERT_matches, ?exec_UPDATE_lobbies_state, ?E1, ?E2).
  reflexivity.
Qed.

Lemma startMatch_run (s : Tables) (u : nat) (lobbyId : string)
      (seedBytes nonceBytes : list Z) :
  run (Lobby.startMatch lobbyId seedBytes nonceBytes) s u =
  match filter (lobby_is lobbyId) (lobbies (base s)) with
  | [] => (Err (Thrown "Lobby not found"), s, u)
  | lobbyData :: _ =>
      match filter (in_lobby lobbyId) (lobby_players (base s)) with
      | [] => (Err (Thrown "No players in lobby"), s, u)
      | p :: players =>
          let row := started_row lobbyData (S (List.length players)) u
                                 seedBytes nonceBytes in
          if negb (Sql.int4 (match_rake_bps row) && Sql.int4 (pot_cents row)
                   && Sql.int4 (rake_cents row) && Sql.int4 (net_pot_cents row))
          then (Err (QueryError "integer out of range"), s, S u)
          else if negb ((0 <=? pot_cents row) && (0 <=? rake_cents row)
                        && (0 <=? net_pot_cents row))
          then (Err (QueryError "new row for relation matches violates check constraint"),
                s, S u)
          else (Ok (uuid_text u), with_match s row lobbyId ACTIVE, S u)
      end
  end.
Proof.
  unfold run, Lobby.startMatch.
  destruct (filter (lobby_is lobbyId) (lobbies (base s))) as [|lobbyData rest] eqn:El.
  - unfold db_transaction, bind, select, view.
    cbn [committed pending next_uuid replay]. rewrite El. reflexivity.
  - pose proof (lobby_id_filter _ _ _ _ El) as Hid.
    destruct (filter (in_lobby lobbyId) (lobby_players (base s))) as [|p players] eqn:Ep.
    + unfold db_transaction, bind, select, view.
      cbn [committed pending next_uuid replay]. rewrite El.
      cbn [committed pending next_uuid replay]. rewrite Ep. reflexivity.
    + cbv zeta.
      pose proof (insert_match_then_state
                    (started_row lobbyData (S (List.length players)) u seedBytes nonceBytes)
                    lobbyId ACTIVE (uuid_text u) s (S u)) as H.
      unfold db_transaction in *.
      unfold bind at 1. unfold select at 1. unfold view at 1.
      cbn [committed pending next_uuid replay]. rewrite El.
      unfold bind at 1. unfold select at 1. unfold view at 1.
      cbn [committed pending next_uuid replay]. rewrite Ep.
      unfold ProvablyFair.generateCommitment. cbv zeta.
      unfold bind at 1. unfold uuid at 1. cbn [committed pending next_uuid] in *.
      unfold started_row in *. rewrite Hid in *. cbn [List.length] in *. cbv zeta in *.
      rewrite H.
      destruct (negb _); [reflexivity|]. destruct (negb _); reflexivity.
Qed.

End Starting.

Section LobbyFacts.
Import Pg.

Lemma refund_allowed_of_rows (userId : string) (a : Z) (ws : list WalletRow) :
  Forall (fun r => storable (mkWallet (wallet_user_id r) (available_cents r + a)
                                      (escrow_cents r - a) (version r + 1)) = true)
         (filter (fun r => String.eqb (wallet_user_id r) userId) ws) ->
  Sql.update_error ws userId a (- a) = None.
Proof.
  intro H. apply update_error_storable.
  rewrite Forall_forall in *. intros r Hr. specialize (H r Hr).
  apply filter_In in Hr. destruct Hr as [_ Hu].
  unfold Sql.bump. rewrite Hu. exact H.
Qed.

Lemma set_state_lobby_is (lobbyId l : string) (st : LobbyState) (r : LobbyRow) :
  lobby_is l (set_state lobbyId st r) = lobby_is l r.
Proof. unfold set_state, lobby_is. destruct (String.eqb (lobby_id r) lobbyId); reflexivity. Qed.

Lemma filter_set_state (lobbyId l : string) (st : LobbyState) (ls : list LobbyRow) :
  filter (lobby_is l) (map (set_state lobbyId st) ls)
  = map (set_state lobbyId st) (filter (lobby_is l) ls).
Proof.
  induction ls as [|r ls IH]; cbn [map filter]; [reflexivity|].
  rewrite set_state_lobby_is. destruct (lobby_is l r); cbn [map]; now rewrite IH.
Qed.

Lemma started_row_numbers (lobbyData : LobbyRow) (st : LobbyState) (lobbyId : string)
      (n : nat) (u1 u2 : nat) (sb1 nb1 sb2 nb2 : list Z) :
  let r1 := started_row lobbyData n u1 sb1 nb1 in
  let r2 := started_row (set_state lobbyId st lobbyData) n u2 sb2 nb2 in
  match_rake_bps r2 = match_rake_bps r1 /\ pot_cents r2 = pot_cents r1
  /\ rake_cents r2 = rake_cents r1 /\ net_pot_cents r2 = net_pot_cents r1
  /\ match_lobby_id r2 = match_lobby_id r1.
Proof.
  unfold started_row, set_state. destruct (lobby_is lobbyId lobbyData); cbn; repeat split.
Qed.

End LobbyFacts.

(** X22: leaveLobby never checks membership: for a WAITING lobby and any user,
    member or not, whose wallet rows after the move fit their columns (BIGINT
    balances, INT version counter raised by one) and pass the table's CHECKs
    (escrow at least the buy-in), it succeeds, moves the buy-in from escrow to
    available in those rows and records a REFUND; afterwards the user is no
    member, and if the user was none before, the membership table is
    unchanged. *)
Theorem X22_leaving_refunds_the_buy_in_to_members_and_strangers_alike
        (s : Tables) (u : nat) (lobbyId userId : string)
        (lobbyData : LobbyRow) (rest : list LobbyRow) :
  filter (Pg.lobby_is lobbyId) (lobbies (base s)) = lobbyData :: rest ->
  lobby_state lobbyData = WAITING ->
  Forall (fun r => storable (mkWallet (wallet_user_id r)
                                      (available_cents r + buy_in_cents lobbyData)
                                      (escrow_cents r - buy_in_cents lobbyData)
                                      (version r + 1)) = true)
         (wallet_of userId (base s)) ->
  exists s',
    Pg.run (Lobby.leaveLobby lobbyId userId) s u = (Ok tt, s', S u)
    /\ wallets (base s')
       = map (Sql.bump userId (buy_in_cents lobbyData) (- buy_in_cents lobbyData))
             (wallets (base s))
    /\ wallet_tx (base s')
       = wallet_tx (base s)
         ++ [mkTx u userId REFUND (buy_in_cents lobbyData) TX_COMPLETED
                  (REF_matchId lobbyId) None]
    /\ filter (Sql.member_of lobbyId userId) (lobby_players (base s')) = []
    /\ (filter (Sql.member_of lobbyId userId) (lobby_players (base s)) = [] ->
        lobby_players (base s') = lobby_players (base s)).
Proof.
  intros Hl Hst Hw.
  exists (left_lobby s u lobbyId userId (buy_in_cents lobbyData)).
  split; [|split; [|split; [|split]]].
  - rewrite leaveLobby_run, Hl, Hst. cbn [LobbyState_eqb negb].
    rewrite (refund_allowed_of_rows _ _ _ Hw). reflexivity.
  - reflexivity.
  - reflexivity.
  - unfold left_lobby. cbn [Pg.with_base base lobby_players].
    apply (filter_negb_none (Sql.member_of lobbyId userId)).
  - intro Hn. unfold left_lobby. cbn [Pg.with_base base lobby_players].
    apply (filter_keeps (Sql.member_of lobbyId userId)). exact Hn.
Qed.

Lemma X22_leaving_refunds_the_buy_in_to_members_and_strangers_alike_witness :
  filter (Sql.member_of "lobby" "b") (lobby_players (base lobby_and_strangers)) = []
  /\ exists s',
       Pg.run (Lobby.leaveLobby "lobby" "b") lobby_and_strangers 7 = (Ok tt, s', 8%nat)
       /\ wallets (base s') = [mkWallet "a" 500 500 1; mkWallet "b" 500 0 2; mkWallet "c" 0 0 0].
Proof.
  split; [reflexivity|].
  destruct (X22_leaving_refunds_the_buy_in_to_members_and_strangers_alike
              lobby_and_strangers 7 "lobby"%string "b"%string
              (mkLobby "lobby" SOLO 500 WINNER_TAKE_ALL WAITING 800 None) [])
    as (s' & Hrun & Hw & _).
  - reflexivity.
  - reflexivity.
  - repeat constructor.
  - exists s'. split; [exact Hrun|]. rewrite Hw. reflexivity.
Defined.


(** X23: When the user's wallet rows fit their columns (BIGINT balances, INT
    version), satisfy the table's CHECKs and leave room for two more versions
    (version + 2 <= 2147483647), a successful joinLobby followed by leaveLobby
    of the same user succeeds and restores both balances of every wallet, the
    membership table and the lobbies; the match tables are untouched. *)
Theorem X23_joining_and_then_leaving_restores_balances_and_members
        (d : DB) (u : nat) (lobbyId userId : string) (teamNo : Z)
        (wsToken : nat) (d' : DB) (u' : nat)
        (ms : list MatchRow) (mps : list MatchPlayerRow) (mmr : list (string * Z)) :
  Forall (fun r => storable r = true /\ version r + 2 <= 2147483647) (wallet_of userId d) ->
  Sql.run (LobbyService.joinLobby lobbyId userId teamNo) d u = (Ok wsToken, d', u') ->
  exists s'',
    Pg.run (Lobby.leaveLobby lobbyId userId) (mkTables d' ms mps mmr) u' = (Ok tt, s'', S u')
    /\ balances (base s'') = balances d
    /\ lobby_players (base s'') = lobby_players d
    /\ lobbies (base s'') = lobbies d
    /\ matches s'' = ms /\ match_players s'' = mps /\ mmr_solo s'' = mmr.
Proof.
  intros Hchecks Hjoin.
  apply joinLobby_ok in Hjoin.
  destruct Hjoin as (lobbyData & rest & Hl & Hst & Hnew & _ & Hbuy & Hd' & _ & Hu').
  subst d' u'.
  set (buy := buy_in_cents lobbyData) in *.
  exists (left_lobby (mkTables (joined d u lobbyId userId teamNo buy) ms mps mmr) (S (S u))
                     lobbyId userId buy).
  split; [|split; [|split; [|split; [|split; [|split]]]]]; try reflexivity.
  - rewrite leaveLobby_run. cbn [base]. unfold joined at 1. cbn [lobbies].
    unfold lobby_of in Hl. unfold Pg.lobby_is. rewrite Hl, Hst. cbn [LobbyState_eqb negb].
    fold buy. unfold joined at 1. cbn [wallets].
    rewrite (refund_after_lock_allowed userId buy _ Hchecks). reflexivity.
  - unfold left_lobby, balances, joined.
    cbn [Pg.with_base base wallets]. apply bump_back.
  - unfold left_lobby, joined. cbn [Pg.with_base base lobby_players].
    rewrite filter_app. cbn [filter]. unfold Sql.member_of at 2.
    cbn [lp_lobby_id lp_user_id]. rewrite !String.eqb_refl. cbn [andb negb].
    rewrite app_nil_r. apply (filter_keeps (Sql.member_of lobbyId userId)). exact Hnew.
Qed.

Lemma X23_joining_and_then_leaving_restores_balances_and_members_witness :
  exists s'',
    Pg.run (Lobby.leaveLobby "lobby" "a")
           (mkTables (joined open_lobby 7 "lobby" "a" 0 500) [] [] []) 9
      = (Ok tt, s'', 10%nat)
    /\ balances (base s'') = balances open_lobby
    /\ lobby_players (base s'') = lobby_players open_lobby
    /\ lobbies (base s'') = lobbies open_lobby
    /\ matches s'' = [] /\ match_players s'' = [] /\ mmr_solo s'' = [].
Proof.
  apply (X23_joining_and_then_leaving_restores_balances_and_members
           open_lobby 7 "lobby"%string "a"%string 0 8%nat).
  - constructor; [split; [reflexivity | cbn; lia] | constructor].
  - vm_compute. reflexivity.
Defined.


(** X24: A successful LobbyService.startMatch appends exactly one match row,
    not ended, whose commit verifies against its seed and nonce, with pot =
    buy-in times the number of members (at least one), rake + net pot = pot,
    both at least 0, and rake = floor(pot * rake_bps / 10000) capped by
    rake_cap_cents unless the cap is null or 0; it sets the lobby to ACTIVE.
    *)
Theorem X24_the_match_row_a_start_writes
        (s : Tables) (u : nat) (lobbyId : string) (seedBytes nonceBytes : list Z)
        (matchId : string) (s' : Tables) (u' : nat) :
  Pg.run (Lobby.startMatch lobbyId seedBytes nonceBytes) s u = (Ok matchId, s', u') ->
  exists lobbyData rest row,
    lobby_of lobbyId (base s) = lobbyData :: rest
    /\ matches s' = matches s ++ [row]
    /\ lobbies (base s') = map (Pg.set_state lobbyId ACTIVE) (lobbies (base s))
    /\ match_id row = matchId /\ match_lobby_id row = lobbyId /\ match_ended row = false
    /\ ProvablyFairService.verifyCommitment (match_seed row) (match_nonce row)
                                            (match_commit row) = true
    /\ (0 < members lobbyId (base s))%nat
    /\ pot_cents row = buy_in_cents lobbyData * Z.of_nat (members lobbyId (base s))
    /\ rake_cents row + net_pot_cents row = pot_cents row
    /\ 0 <= rake_cents row /\ 0 <= net_pot_cents row
    /\ rake_cents row
       = match rake_cap_cents lobbyData with
         | Some cap => if cap =? 0 then pot_cents row * rake_bps lobbyData / 10000
                       else Z.min (pot_cents row * rake_bps lobbyData / 10000) cap
         | None => pot_cents row * rake_bps lobbyData / 10000
         end.
Proof.
  rewrite startMatch_run. unfold lobby_of, members.
  change (fun r : LobbyRow => String.eqb (lobby_id r) lobbyId) with (Pg.lobby_is lobbyId).
  change (fun r : LobbyPlayerRow => String.eqb (lp_lobby_id r) lobbyId)
    with (Pg.in_lobby lobbyId).
  destruct (filter (Pg.lobby_is lobbyId) (lobbies (base s))) as [|lobbyData rest] eqn:El;
    [discriminate|].
  destruct (filter (Pg.in_lobby lobbyId) (lobby_players (base s))) as [|p players];
    [discriminate|].
  cbv zeta.
  set (row := started_row lobbyData (S (List.length players)) u seedBytes nonceBytes).
  destruct (negb (Sql.int4 _ && _ && _ && _)); [discriminate|].
  destruct (negb ((0 <=? pot_cents row) && _ && _)) eqn:E2; [discriminate|].
  intro H. inversion H; subst. clear H.
  apply negb_false_iff in E2. apply andb_true_iff in E2. destruct E2 as [E2 Hn].
  apply andb_true_iff in E2. destruct E2 as [Hp Hr].
  apply Z.leb_le in Hn. apply Z.leb_le in Hr.
  exists lobbyData, rest, row.
  pose proof (lobby_id_filter _ _ _ _ El) as Hid.
  split; [reflexivity|]. split; [reflexivity|]. split; [reflexivity|].
  split; [reflexivity|]. split; [exact Hid|]. split; [reflexivity|].
  split; [apply verifyCommitment_iff; reflexivity|].
  split; [cbn [List.length]; lia|].
  split; [reflexivity|].
  split; [unfold row, started_row; cbn [rake_cents net_pot_cents pot_cents]; lia|].
  split; [exact Hr|]. split; [exact Hn|].
  unfold row, started_row. cbn [rake_cents pot_cents].
  unfold Lobby.or_Infinity, Lobby.min_cap.
  destruct (rake_cap_cents lobbyData) as [cap|]; [|reflexivity].
  destruct (cap =? 0); reflexivity.
Qed.

Lemma X24_the_match_row_a_start_writes_witness :
  exists s' row,
    Pg.run (Lobby.startMatch "lobby" [1; 2] [3]) lobby_and_strangers 7
      = (Ok (uuid_text 7), s', 8%nat)
    /\ matches s' = [row]
    /\ pot_cents row = 500 /\ rake_cents row = 40 /\ net_pot_cents row = 460.
Proof.
  destruct (Pg.run (Lobby.startMatch "lobby" [1; 2] [3]) lobby_and_strangers 7)
    as [[r s'] u'] eqn:E.
  assert (Hr : r = Ok (uuid_text 7) /\ u' = 8%nat).
  { apply (f_equal (fun x => (fst (fst x), snd x))) in E. cbn [fst snd] in E.
    vm_compute in E. inversion E. split; reflexivity. }
  destruct Hr as [Hr Hu]. subst r u'.
  destruct (X24_the_match_row_a_start_writes _ _ _ _ _ _ _ _ E)
    as (lobbyData & rest & row & Hl & Hm & _ & _ & _ & _ & _ & _ & Hp & Hs & _ & _ & Hk).
  inversion Hl; subst lobbyData rest. clear Hl.
  cbn in Hp. cbn [rake_cap_cents rake_bps] in Hk. rewrite Hp in Hk, Hs. cbn in Hk.
  exists s', row. repeat split; try assumption. lia.
Defined.


(** X25: startMatch does not look at the lobby's state: after a successful
    start, a second startMatch of the same lobby succeeds as well and writes a
    second open match row with the same pot, rake and net pot. *)
Theorem X25_a_started_lobby_can_be_started_again
        (s : Tables) (u : nat) (lobbyId : string) (seedBytes nonceBytes : list Z)
        (matchId : string) (s' : Tables) (u' : nat) (seedBytes' nonceBytes' : list Z) :
  Pg.run (Lobby.startMatch lobbyId seedBytes nonceBytes) s u = (Ok matchId, s', u') ->
  exists s'' row row',
    Pg.run (Lobby.startMatch lobbyId seedBytes' nonceBytes') s' u'
      = (Ok (uuid_text u'), s'', S u')
    /\ matches s'' = matches s ++ [row; row']
    /\ match_lobby_id row = lobbyId /\ match_lobby_id row' = lobbyId
    /\ match_ended row = false /\ match_ended row' = false
    /\ pot_cents row' = pot_cents row
    /\ rake_cents row' = rake_cents row
    /\ net_pot_cents row' = net_pot_cents row.
Proof.
  rewrite !startMatch_run.
  destruct (filter (Pg.lobby_is lobbyId) (lobbies (base s))) as [|lobbyData rest] eqn:El;
    [discriminate|].
  destruct (filter (Pg.in_lobby lobbyId) (lobby_players (base s))) as [|p players] eqn:Ep;
    [discriminate|].
  cbv zeta.
  set (row := started_row lobbyData (S (List.length players)) u seedBytes nonceBytes).
  destruct (negb (Sql.int4 _ && _ && _ && _)) eqn:E1; [discriminate|].
  destruct (negb ((0 <=? pot_cents row) && _ && _)) eqn:E2; [discriminate|].
  intro H. inversion H; subst. clear H.
  change (lobbies (base (with_match s row lobbyId ACTIVE)))
    with (map (Pg.set_state lobbyId ACTIVE) (lobbies (base s))).
  change (lobby_players (base (with_match s row lobbyId ACTIVE)))
    with (lobby_players (base s)).
  rewrite filter_set_state, El. cbn [map]. rewrite Ep. cbv zeta.
  set (row' := started_row (Pg.set_state lobbyId ACTIVE lobbyData) (S (List.length players))
                           (S u) seedBytes' nonceBytes').
  destruct (started_row_numbers lobbyData ACTIVE lobbyId (S (List.length players))
                                u (S u) seedBytes nonceBytes seedBytes' nonceBytes')
    as (Hb & Hp & Hr & Hn & Hlid).
  fold row in Hb, Hp, Hr, Hn, Hlid. fold row' in Hb, Hp, Hr, Hn, Hlid.
  rewrite Hb, Hp, Hr, Hn, E1, E2.
  pose proof (lobby_id_filter _ _ _ _ El) as Hid.
  exists (with_match (with_match s row lobbyId ACTIVE) row' lobbyId ACTIVE), row, row'.
  split; [reflexivity|].
  split; [unfold with_match; cbn [matches]; rewrite <- app_assoc; reflexivity|].
  split; [exact Hid|]. split; [rewrite Hlid; exact Hid|].
  repeat split; assumption.
Qed.

Lemma X25_a_started_lobby_can_be_started_again_witness :
  let s' := snd (fst (Pg.run (Lobby.startMatch "lobby" [1; 2] [3]) lobby_and_strangers 7)) in
  exists s'' row row',
    Pg.run (Lobby.startMatch "lobby" [4] [5; 6]) s' 8 = (Ok (uuid_text 8), s'', 9%nat)
    /\ matches s'' = matches lobby_and_strangers ++ [row; row']
    /\ match_lobby_id row = "lobby"%string /\ match_lobby_id row' = "lobby"%string
    /\ match_ended row = false /\ match_ended row' = false
    /\ pot_cents row' = pot_cents row
    /\ rake_cents row' = rake_cents row
    /\ net_pot_cents row' = net_pot_cents row.
Proof.
  intro s'.
  apply (X25_a_started_lobby_can_be_started_again
           lobby_and_strangers 7 "lobby"%string [1; 2] [3] (uuid_text 7) s' 8%nat [4] [5; 6]).
  vm_compute. reflexivity.
Defined.

(** ** Ratings and the settlement of a match *)

Section Rating.
Import SettlementService.

Lemma mmrChange_div (n p : Z) : 0 < n -> mmrChange n p = (16 * (n + 1 - 2 * p)) / n.
Proof.
  intro Hn. unfold mmrChange. rewrite <- (Qfloor_div _ _ Hn).
  apply Qfloor_comp.
  unfold Z.sub. rewrite inject_Z_mult, !inject_Z_plus, inject_Z_opp, inject_Z_mult.
  assert (Hz : ~ (inject_Z n == 0)%Q).
  { intro H. unfold Qeq in H. cbn [Qnum Qden inject_Z] in H. lia. }
  change (inject_Z 16) with 16%Q. change (inject_Z 1) with 1%Q. change (inject_Z 2) with 2%Q.
  field. exact Hz.
Qed.

Lemma placement_sum (c : Z) (k : nat) :
  forall a : nat,
    fold_right Z.add 0 (map (fun i => c - 2 * (Z.of_nat i + 1)) (seq a k))
    = Z.of_nat k * c - Z.of_nat k * (2 * Z.of_nat a + Z.of_nat k + 1).
Proof.
  induction k as [|k IH]; intro a; [reflexivity|].
  cbn [seq map fold_right]. rewrite IH. lia.
Qed.

Lemma floor_sum_le (n : Z) (f : nat -> Z) (l : list nat) :
  0 < n ->
  n * fold_right Z.add 0 (map (fun i => f i / n) l) <= fold_right Z.add 0 (map f l).
Proof.
  intro Hn. induction l as [|i l IH]; cbn [map fold_right]; [lia|].
  pose proof (Z.mul_div_le (f i) n Hn). lia.
Qed.

End Rating.

Section Settling.
Import Pg.

Lemma bind_ok {A B : Type} (m : Tx A) (k : A -> Tx B) (c : Conn) (b : B) (c' : Conn) :
  bind m k c = (Ok b, c') -> exists a c1, m c = (Ok a, c1) /\ k a c1 = (Ok b, c').
Proof.
  unfold bind. destruct (m c) as [[a|e] c1]; [|discriminate].
  intro H. exists a, c1. split; [reflexivity | exact H].
Qed.

Lemma exec_matches (q : Query) (s s' : Tables) :
  exec q s = Ok s' -> matches s' = matches_after q (matches s).
Proof.
  destruct q; cbn [exec matches_after].
  - intro H. inversion H. reflexivity.
  - intro H. inversion H. reflexivity.
  - destruct (negb _); [discriminate|]. destruct (negb _); [discriminate|].
    intro H. inversion H. reflexivity.
  - intro H. inversion H. reflexivity.
  - cbv zeta. destruct (negb _); [discriminate|]. destruct (negb _); [discriminate|].
    destruct (negb _); [discriminate|]. destruct (existsb _ _); [discriminate|].
    intro H. inversion H. reflexivity.
  - destruct (forallb _ _); [|discriminate]. intro H. inversion H. reflexivity.
Qed.

Lemma replay_matches (l : list Query) (s : Tables) :
  forall s', replay l s = Ok s' -> matches s' = journal_matches l (matches s).
Proof.
  induction l as [|q l IH]; intros s'; cbn [replay journal_matches].
  - intro H. inversion H. reflexivity.
  - destruct (replay l s) as [s1|e]; [|discriminate].
    intro H. apply exec_matches in H. rewrite H, (IH s1 eq_refl). reflexivity.
Qed.

Lemma execute_seen (q : Query) (c c' : Conn) :
  execute q c = (Ok tt, c') -> seen_matches c' = matches_after q (seen_matches c).
Proof.
  unfold execute. destruct (view c) as [s|e]; [|discriminate].
  destruct (exec q s); [|discriminate].
  intro H. inversion H. reflexivity.
Qed.

Lemma wallet_seen {A : Type} (op : Sql.Tx A) (c : Conn) :
  seen_matches (snd (wallet op c)) = seen_matches c.
Proof.
  unfold wallet. destruct (Sql.run op (base (committed c)) (next_uuid c)) as [[r d] u].
  reflexivity.
Qed.

Lemma save_results_seen (matchId : string) (results : list MatchResult) :
  forall c c', SettlementService.save_results matchId results c = (Ok tt, c') ->
               seen_matches c' = seen_matches c.
Proof.
  induction results as [|r results IH]; intros c c'; cbn [SettlementService.save_results].
  - intro H. inversion H. reflexivity.
  - intro H. apply bind_ok in H. destruct H as ([] & c1 & H1 & H2).
    apply execute_seen in H1. rewrite (IH _ _ H2), H1. reflexivity.
Qed.

Lemma mmr_updates_seen (n : Z) (results : list MatchResult) :
  forall c c', SettlementService.mmr_updates n results c = (Ok tt, c') ->
               seen_matches c' = seen_matches c.
Proof.
  induction results as [|r results IH]; intros c c'; cbn [SettlementService.mmr_updates].
  - intro H. inversion H. reflexivity.
  - intro H. apply bind_ok in H. destruct H as ([] & c1 & H1 & H2).
    apply execute_seen in H1. rewrite (IH _ _ H2), H1. reflexivity.
Qed.

Lemma filter_end_match (id : string) (reveal : option (string * string))
      (ms : list MatchRow) :
  filter (match_is id) (map (end_match id reveal) ms)
  = map (end_match id reveal) (filter (match_is id) ms).
Proof.
  induction ms as [|r ms IH]; cbn [map filter]; [reflexivity|].
  assert (E : match_is id (end_match id reveal r) = match_is id r).
  { unfold end_match. destruct (match_is id r) eqn:E; [|exact E]. exact E. }
  rewrite E. destruct (match_is id r); cbn [map]; now rewrite IH.
Qed.

Lemma settleMatch_ended (s : Tables) (u : nat) (matchId : string)
      (results : list MatchResult) (seed nonce : string) (row : MatchRow)
      (rest : list MatchRow) :
  filter (match_is matchId) (matches s) = row :: rest ->
  match_ended row = true ->
  run (SettlementService.settleMatch matchId results seed nonce) s u
  = (Err (Thrown "Match already settled"), s, u).
Proof.
  intros Hf He. unfold run, SettlementService.settleMatch, db_transaction.
  unfold bind at 1. unfold select at 1. unfold view at 1.
  cbn [committed pending next_uuid replay]. rewrite Hf, He. reflexivity.
Qed.

Lemma settleMatch_matches (s : Tables) (u : nat) (matchId : string)
      (results : list MatchResult) (seed nonce : string) (s' : Tables) (u' : nat) :
  run (SettlementService.settleMatch matchId results seed nonce) s u = (Ok tt, s', u') ->
  (exists row rest,
     filter (match_is matchId) (matches s) = row :: rest /\ match_ended row = false)
  /\ matches s' = map (end_match matchId (Some (seed, nonce))) (matches s).
Proof.
  unfold run, SettlementService.settleMatch, db_transaction.
  cbn [committed pending next_uuid].
  match goal with
  | |- context [?m (mkConn s [] u)] =>
      destruct (m (mkConn s [] u)) as [[[]|e] c'] eqn:E; [|discriminate]
  end.
  destruct (view c') as [v|e] eqn:Ev; [|discriminate].
  intro H. inversion H; subst. clear H.
  unfold bind at 1 in E. unfold select at 1 in E. unfold view at 1 in E.
  cbn [committed pending next_uuid replay] in E.
  destruct (filter (match_is matchId) (matches s)) as [|row rest]; [discriminate|].
  destruct (match_ended row) eqn:Ee; [discriminate|].
  split; [exists row, rest; split; [reflexivity | exact Ee]|].
  apply bind_ok in E. destruct E as ([] & c1 & E1 & E).
  apply bind_ok in E. destruct E as ([] & c2 & E2 & E).
  apply bind_ok in E. destruct E as ([] & c3 & E3 & E).
  apply bind_ok in E. destruct E as ([] & c4 & E4 & E).
  apply save_results_seen in E1. apply execute_seen in E2. apply execute_seen in E3.
  pose proof (wallet_seen (WalletService.settleMatch matchId
                             (map (fun r => (res_userId r, payoutCents r)) results)
                             (rake_cents row)) c3) as W.
  rewrite E4 in W. cbn [snd] in W.
  apply mmr_updates_seen in E.
  unfold view in Ev. apply replay_matches in Ev.
  change (journal_matches (pending c') (matches (committed c'))) with (seen_matches c') in Ev.
  rewrite Ev, E, W, E3, E2, E1. reflexivity.
Qed.

(** Code on the outer client: the committed tables stay. *)
Lemma keeps_ret {A : Type} (a : A) : keeps_committed (ret a).
Proof. intro c. reflexivity. Qed.

Lemma keeps_execute (q : Query) : keeps_committed (execute q).
Proof.
  intro c. unfold execute. destruct (view c) as [s|e]; [|reflexivity].
  destruct (exec q s); reflexivity.
Qed.

Lemma keeps_bind {A B : Type} (m : Tx A) (k : A -> Tx B) :
  keeps_committed m -> (forall a, keeps_committed (k a)) -> keeps_committed (bind m k).
Proof.
  intros Hm Hk c. unfold bind. specialize (Hm c).
  destruct (m c) as [[a|e] c1]; cbn [snd] in *; [|exact Hm].
  rewrite (Hk a c1). exact Hm.
Qed.

Lemma keeps_save_results (matchId : string) (results : list MatchResult) :
  keeps_committed (SettlementService.save_results matchId results).
Proof.
  induction results as [|r results IH]; cbn [SettlementService.save_results].
  - apply keeps_ret.
  - apply keeps_bind; [apply keeps_execute | intros _; exact IH].
Qed.

Lemma keeps_mmr_updates (n : Z) (results : list MatchResult) :
  keeps_committed (SettlementService.mmr_updates n results).
Proof.
  induction results as [|r results IH]; cbn [SettlementService.mmr_updates].
  - apply keeps_ret.
  - apply keeps_bind; [apply keeps_execute | intros _; exact IH].
Qed.

Lemma bind_cases {A B : Type} (m : Tx A) (k : A -> Tx B) (c : Conn) (r : Result B)
      (c' : Conn) :
  bind m k c = (r, c') ->
  (exists e, m c = (Err e, c') /\ r = Err e)
  \/ (exists a c1, m c = (Ok a, c1) /\ k a c1 = (r, c')).
Proof.
  unfold bind. destruct (m c) as [[a|e] c1].
  - intro H. right. exists a, c1. split; [reflexivity | exact H].
  - intro H. inversion H; subst. left. exists e. split; reflexivity.
Qed.

Lemma keeps_result {A : Type} (m : Tx A) (c : Conn) (r : Result A) (c' : Conn) :
  keeps_committed m -> m c = (r, c') -> committed c' = committed c.
Proof. intros Hk H. specialize (Hk c). rewrite H in Hk. exact Hk. Qed.

(** Where the committed tables stand when the callback of [settleMatch]
    has run: untouched, or with the wallets settled. *)
Lemma settleMatch_committed (s : Tables) (u : nat) (matchId : string)
      (results : list MatchResult) (seed nonce : string) (row : MatchRow)
      (r : Result unit) (c' : Conn) :
  bind (SettlementService.save_results matchId results)
       (fun _ => bind (execute (UPDATE_matches_ended matchId (Some (seed, nonce))))
       (fun _ => bind (execute (UPDATE_lobbies_state (match_lobby_id row) COMPLETED))
       (fun _ => bind (wallet (WalletService.settleMatch matchId (payouts_of results)
                                                         (rake_cents row)))
       (fun _ => SettlementService.updatePlayerMMR row results))))
       (mkConn s [] u) = (r, c') ->
  committed c' = s
  \/ exists m m',
       Sql.run (WalletService.settleMatch matchId (payouts_of results) (rake_cents row))
               (base s) m = (Ok tt, base (committed c'), m')
       /\ committed c' = with_base (base (committed c')) s.
Proof.
  intro H.
  apply bind_cases in H. destruct H as [(e & H & _) | ([] & c1 & H1 & H)].
  { left. apply (keeps_result _ _ _ _ (keeps_save_results _ _) H). }
  apply (keeps_result _ _ _ _ (keeps_save_results _ _)) in H1. cbn [committed] in H1.
  apply bind_cases in H. destruct H as [(e & H & _) | ([] & c2 & H2 & H)].
  { left. apply (keeps_result _ _ _ _ (keeps_execute _)) in H. congruence. }
  apply (keeps_result _ _ _ _ (keeps_execute _)) in H2.
  apply bind_cases in H. destruct H as [(e & H & _) | ([] & c3 & H3 & H)].
  { left. apply (keeps_result _ _ _ _ (keeps_execute _)) in H. congruence. }
  apply (keeps_result _ _ _ _ (keeps_execute _)) in H3.
  assert (Hs : committed c3 = s) by congruence.
  assert (W : forall rw c4,
             wallet (WalletService.settleMatch matchId (payouts_of results) (rake_cents row))
                    c3 = (rw, c4) ->
             (committed c4 = s /\ exists e, rw = Err e)
             \/ (rw = Ok tt
                 /\ Sql.run (WalletService.settleMatch matchId (payouts_of results)
                                                       (rake_cents row))
                            (base s) (next_uuid c3) = (Ok tt, base (committed c4),
                                                       next_uuid c4)
                 /\ committed c4 = with_base (base (committed c4)) s)).
  { intros rw c4. unfold wallet. rewrite Hs.
    destruct (Sql.run _ (base s) (next_uuid c3)) as [[rw' d] m'] eqn:Er.
    intro Hw. injection Hw as Hrw Hc4. subst rw c4. cbn [committed next_uuid base with_base].
    destruct rw' as [[]|e].
    - right. split; [reflexivity|]. split; reflexivity.
    - left. split; [|exists e; reflexivity].
      assert (d = base s).
      { unfold Sql.run in Er.
        destruct (WalletService.settleMatch _ _ _ _) as [r0 c0] eqn:E0.
        injection Er as Er1 Er2 Er3. subst r0 d. apply settleMatch_failure in E0. exact E0. }
      subst d. apply with_base_same. }
  apply bind_cases in H. destruct H as [(e & H & _) | ([] & c4 & H4 & H)].
  { destruct (W _ _ H) as [[Hc _] | (Habs & _)]; [left; exact Hc | discriminate]. }
  destruct (W _ _ H4) as [[_ (e & Habs)] | (_ & Hrun & Hc)]; [discriminate|].
  apply (keeps_result _ _ _ _ (keeps_mmr_updates _ _)) in H.
  right. exists (next_uuid c3), (next_uuid c4). rewrite H. split; assumption.
Qed.

End Settling.

(** X26: The rating change of updatePlayerMMR, floor(32 * ((n + 1) / 2 -
    placement) / n), lies between -16 and 15 for placements 1..n, never
    increases with the placement, is at least 0 for the winner and at most 0
    for the last, and over the placements 1..n adds up to at most 0. *)
Theorem X26_rating_changes_fall_with_the_placement_and_never_add_up_to_a_gain
        (n p q : Z) :
  1 <= p -> p <= q -> q <= n ->
  -16 <= SettlementService.mmrChange n q
  /\ SettlementService.mmrChange n q <= SettlementService.mmrChange n p
  /\ SettlementService.mmrChange n p <= 15
  /\ SettlementService.mmrChange n n <= 0 <= SettlementService.mmrChange n 1
  /\ fold_right Z.add 0 (map (SettlementService.mmrChange n) (placements (Z.to_nat n))) <= 0.
Proof.
  intros Hp Hpq Hq.
  assert (Hn : 0 < n) by lia.
  rewrite !mmrChange_div by exact Hn.
  split; [apply Z.div_le_lower_bound; lia|].
  split; [apply Z.div_le_mono; lia|].
  split; [apply Z.lt_succ_r; apply Z.div_lt_upper_bound; lia|].
  split; [split|].
  - apply Z.lt_succ_r. apply Z.div_lt_upper_bound; lia.
  - apply Z.div_pos; lia.
  - unfold placements. rewrite map_map.
    rewrite (map_ext _ (fun i => (16 * (n + 1 - 2 * (Z.of_nat i + 1))) / n))
      by (intro i; apply mmrChange_div; exact Hn).
    pose proof (floor_sum_le n (fun i => 16 * (n + 1 - 2 * (Z.of_nat i + 1)))
                             (seq 0 (Z.to_nat n)) Hn) as H.
    cbv beta in H.
    assert (Hs : fold_right Z.add 0
                   (map (fun i => 16 * (n + 1 - 2 * (Z.of_nat i + 1))) (seq 0 (Z.to_nat n)))
                 = 0).
    { pose proof (placement_sum (n + 1) (Z.to_nat n) 0) as P.
      rewrite Z2Nat.id in P by lia.
      assert (G : forall l : list nat,
                 fold_right Z.add 0 (map (fun i => 16 * (n + 1 - 2 * (Z.of_nat i + 1))) l)
                 = 16 * fold_right Z.add 0 (map (fun i => n + 1 - 2 * (Z.of_nat i + 1)) l)).
      { induction l as [|i l IH]; cbn [map fold_right]; [reflexivity|]. rewrite IH. lia. }
      rewrite G, P. cbn [Z.of_nat]. lia. }
    rewrite Hs in H. nia.
Qed.

Lemma X26_rating_changes_fall_with_the_placement_and_never_add_up_to_a_gain_witness :
  -16 <= SettlementService.mmrChange 3 3
  /\ SettlementService.mmrChange 3 3 <= SettlementService.mmrChange 3 1
  /\ SettlementService.mmrChange 3 1 <= 15
  /\ SettlementService.mmrChange 3 3 <= 0 <= SettlementService.mmrChange 3 1
  /\ fold_right Z.add 0 (map (SettlementService.mmrChange 3) (placements (Z.to_nat 3))) <= 0.
Proof.
  apply (X26_rating_changes_fall_with_the_placement_and_never_add_up_to_a_gain 3 1 3); lia.
Defined.

(** X27: SettlementService.settleMatch succeeds only on an existing match that
    has not ended; afterwards every row of that match is ended and carries the
    revealed seed and nonce, and any further settleMatch of it fails with
    'Match already settled' and changes nothing. *)
Theorem X27_a_match_is_settled_at_most_once
        (s : Tables) (u : nat) (matchId : string) (results : list MatchResult)
        (seed nonce : string) (s' : Tables) (u' : nat)
        (results' : list MatchResult) (seed' nonce' : string) :
  Pg.run (SettlementService.settleMatch matchId results seed nonce) s u = (Ok tt, s', u') ->
  (exists row rest,
     filter (Pg.match_is matchId) (matches s) = row :: rest /\ match_ended row = false)
  /\ Forall (fun row => match_ended row = true /\ match_seed row = seed
                        /\ match_nonce row = nonce)
            (filter (Pg.match_is matchId) (matches s'))
  /\ Pg.run (SettlementService.settleMatch matchId results' seed' nonce') s' u'
     = (Err (Thrown "Match already settled"), s', u').
Proof.
  intro H. apply settleMatch_matches in H. destruct H as [(row & rest & Hf & He) Hm].
  split; [exists row, rest; split; assumption|].
  rewrite Hm, filter_end_match.
  split.
  - apply Forall_map. apply Forall_forall. intros r Hr.
    apply filter_In in Hr. destruct Hr as [_ Hr].
    unfold Pg.end_match. rewrite Hr. repeat split.
  - apply (settleMatch_ended _ _ _ _ _ _ (Pg.end_match matchId (Some (seed, nonce)) row)
                             (map (Pg.end_match matchId (Some (seed, nonce))) rest)).
    + rewrite Hm, filter_end_match, Hf. reflexivity.
    + assert (Hr : Pg.match_is matchId row = true).
      { assert (Hin : In row (filter (Pg.match_is matchId) (matches s)))
          by (rewrite Hf; left; reflexivity).
        apply filter_In in Hin. apply Hin. }
      unfold Pg.end_match. rewrite Hr. reflexivity.
Qed.

Lemma X27_a_match_is_settled_at_most_once_witness :
  exists s' u',
    Pg.run (SettlementService.settleMatch "match" a_wins "seed" "nonce") ready_to_settle 7
      = (Ok tt, s', u')
    /\ wallets (base s') = [mkWallet "a" 920 0 2; mkWallet "b" 0 0 2]
    /\ mmr_solo s' = [("a", 1008); ("b", 992)]%string
    /\ Pg.run (SettlementService.settleMatch "match" a_wins "seed" "nonce") s' u'
       = (Err (Thrown "Match already settled"), s', u').
Proof.
  destruct (Pg.run (SettlementService.settleMatch "match" a_wins "seed" "nonce")
                   ready_to_settle 7) as [[r s'] u'] eqn:E.
  assert (Hr : r = Ok tt
               /\ wallets (base s') = [mkWallet "a" 920 0 2; mkWallet "b" 0 0 2]
               /\ mmr_solo s' = [("a", 1008); ("b", 992)]%string).
  { apply (f_equal (fun x => (fst (fst x), wallets (base (snd (fst x))),
                              mmr_solo (snd (fst x))))) in E.
    cbn [fst snd] in E. vm_compute in E. injection E as E1 E2 E3.
    repeat split; symmetry; assumption. }
  destruct Hr as (Hr & Hw & Hm). subst r.
  exists s', u'. split; [reflexivity|]. split; [exact Hw|]. split; [exact Hm|].
  apply (X27_a_match_is_settled_at_most_once _ _ _ _ _ _ _ _ a_wins "seed" "nonce" E).
Defined.

(** X28: A failed SettlementService.settleMatch leaves either all tables
    unchanged or, when the failure comes after the wallet service's own
    transaction has committed, exactly the wallet settlement in place while
    results, match and lobby stay as before (the match is still unsettled). *)
Theorem X28_a_failed_settlement_may_leave_the_wallets_settled
        (s : Tables) (u : nat) (matchId : string) (results : list MatchResult)
        (seed nonce : string) (e : Error) (s' : Tables) (u' : nat) :
  Pg.run (SettlementService.settleMatch matchId results seed nonce) s u = (Err e, s', u') ->
  s' = s
  \/ exists row rest m m',
       filter (Pg.match_is matchId) (matches s) = row :: rest
       /\ match_ended row = false
       /\ Sql.run (WalletService.settleMatch matchId (payouts_of results) (rake_cents row))
                  (base s) m = (Ok tt, base s', m')
       /\ s' = Pg.with_base (base s') s.
Proof.
  unfold Pg.run, SettlementService.settleMatch, Pg.db_transaction.
  cbn [Pg.committed Pg.pending Pg.next_uuid].
  unfold Pg.bind at 1. unfold Pg.select at 1. unfold Pg.view at 1.
  cbn [Pg.committed Pg.pending Pg.next_uuid Pg.replay].
  destruct (filter (Pg.match_is matchId) (matches s)) as [|row rest].
  { intro H. inversion H. left. reflexivity. }
  destruct (match_ended row) eqn:Ee.
  { intro H. inversion H. left. reflexivity. }
  match goal with
  | |- context [?m (Pg.mkConn s [] u)] =>
      destruct (m (Pg.mkConn s [] u)) as [r c'] eqn:E
  end.
  apply (settleMatch_committed s u matchId results seed nonce row) in E.
  intro H.
  assert (Hs : s' = Pg.committed c').
  { destruct r as [[]|e0]; [destruct (Pg.view c'); [discriminate|]|]; inversion H; reflexivity. }
  subst s'. destruct E as [E | (m & m' & Hrun & Hc)]; [left; exact E|].
  right. exists row, rest, m, m'. repeat split; assumption.
Qed.

Lemma X28_a_failed_settlement_may_leave_the_wallets_settled_witness :
  exists s',
    Pg.run (SettlementService.settleMatch "match" a_wins "seed" "nonce") rating_at_the_top 7
      = (Err (QueryError "integer out of range"), s', 10%nat)
    /\ wallets (base s') = [mkWallet "a" 920 0 2; mkWallet "b" 0 0 2]
    /\ matches s' = matches rating_at_the_top
    /\ (s' = rating_at_the_top
        \/ exists row rest m m',
             filter (Pg.match_is "match") (matches rating_at_the_top) = row :: rest
             /\ match_ended row = false
             /\ Sql.run (WalletService.settleMatch "match" (payouts_of a_wins) (rake_cents row))
                        (base rating_at_the_top) m = (Ok tt, base s', m')
             /\ s' = Pg.with_base (base s') rating_at_the_top).
Proof.
  destruct (Pg.run (SettlementService.settleMatch "match" a_wins "seed" "nonce")
                   rating_at_the_top 7) as [[r s'] u'] eqn:E.
  assert (Hr : r = Err (QueryError "integer out of range") /\ u' = 10%nat
               /\ wallets (base s') = [mkWallet "a" 920 0 2; mkWallet "b" 0 0 2]
               /\ matches s' = matches rating_at_the_top).
  { apply (f_equal (fun x => (fst (fst x), snd x, wallets (base (snd (fst x))),
                              matches (snd (fst x))))) in E.
    cbn [fst snd] in E. vm_compute in E. injection E as E1 E2 E3 E4.
    repeat split; symmetry; assumption. }
  destruct Hr as (Hr & Hu & Hw & Hm). subst r u'.
  exists s'. split; [reflexivity|]. split; [exact Hw|]. split; [exact Hm|].
  exact (X28_a_failed_settlement_may_leave_the_wallets_settled _ _ _ _ _ _ _ _ _ E).
Defined.

(** ** Refunding a match *)

Section Refunding.
Import Pg.

Lemma refund_all_run (s : Tables) (buyInCents : Z) (matchId : string)
      (players : list string) :
  forall (d : DB) (u : nat),
    SettlementService.refund_all players buyInCents matchId (mkConn (with_base d s) [] u)
    = let '(r, d', u') := refund_each players buyInCents matchId d u in
      (r, mkConn (with_base d' s) [] u').
Proof.
  induction players as [|p players IH]; intros d u;
    cbn [SettlementService.refund_all refund_each]; [reflexivity|].
  unfold bind at 1. unfold wallet. cbn [committed pending next_uuid with_base base].
  rewrite refundEscrow_run.
  destruct (Sql.update_error (wallets d) p buyInCents (- buyInCents)); [reflexivity|].
  change (mkConn (with_base (refunded d u p buyInCents matchId)
                            (mkTables d (matches s) (match_players s) (mmr_solo s)))
                 [] (S u))
    with (mkConn (with_base (refunded d u p buyInCents matchId) s) [] (S u)).
  apply IH.
Qed.

Lemma refundMatch_run (s : Tables) (u : nat) (matchId reason : string) :
  run (SettlementService.refundMatch matchId reason) s u =
  match filter (match_is matchId) (matches s) with
  | [] => (Err (Thrown "Match not found"), s, u)
  | matchData :: _ =>
      match map buy_in_cents (filter (lobby_is (match_lobby_id matchData))
                                     (lobbies (base s))) with
      | [] => (Err (Thrown "Cannot read properties of undefined (reading 'buy_in_cents')"),
               s, u)
      | buyInCents :: _ =>
          match refund_each (players_of (match_lobby_id matchData) s) buyInCents matchId
                            (base s) u with
          | (Ok _, d, u') =>
              (Ok tt,
               mkTables (mkDB (wallets d) (wallet_tx d)
                              (map (set_state (match_lobby_id matchData) COMPLETED)
                                   (lobbies d))
                              (lobby_players d) (profiles d))
                        (map (end_match matchId None) (matches s))
                        (match_players s) (mmr_solo s),
               u')
          | (Err e, d, u') => (Err e, with_base d s, u')
          end
      end
  end.
Proof.
  unfold run, SettlementService.refundMatch, db_transaction.
  cbn [committed pending next_uuid].
  unfold bind at 1. unfold select at 1. unfold view at 1.
  cbn [committed pending next_uuid replay].
  destruct (filter (match_is matchId) (matches s)) as [|matchData rest]; [reflexivity|].
  unfold bind at 1. unfold select at 1. unfold view at 1.
  cbn [committed pending next_uuid replay].
  unfold bind at 1. unfold select at 1. unfold view at 1.
  cbn [committed pending next_uuid replay].
  destruct (map buy_in_cents _) as [|buyInCents rest']; [reflexivity|].
  unfold bind at 1.
  replace (mkConn s [] u) with (mkConn (with_base (base s) s) [] u)
    by (rewrite with_base_same; reflexivity).
  rewrite refund_all_run. fold (players_of (match_lobby_id matchData) s).
  destruct (refund_each _ buyInCents matchId (base s) u) as [[[[]|e] d] u']; [|reflexivity].
  unfold bind, execute, view.
  cbn [committed pending next_uuid replay exec with_base base matches match_players
       mmr_solo wallets wallet_tx lobbies lobby_players profiles].
  reflexivity.
Qed.

Lemma end_match_lobby (id : string) (reveal : option (string * string)) (r : MatchRow) :
  match_lobby_id (end_match id reveal r) = match_lobby_id r.
Proof. unfold end_match. destruct (match_is id r); reflexivity. Qed.

Lemma refund_each_failure (buyInCents : Z) (matchId : string) (players : list string) :
  forall (d : DB) (u : nat) (e : Error) (d' : DB) (u' : nat),
    refund_each players buyInCents matchId d u = (Err e, d', u') ->
    exists done failing rest,
      players = done ++ failing :: rest
      /\ wallets d' = refunds done buyInCents (wallets d)
      /\ Sql.update_error (wallets d') failing buyInCents (- buyInCents) <> None
      /\ List.length (wallet_tx d') = (List.length (wallet_tx d) + List.length done)%nat
      /\ lobbies d' = lobbies d /\ lobby_players d' = lobby_players d.
Proof.
  induction players as [|p players IH]; intros d u e d' u'; cbn [refund_each];
    [discriminate|].
  destruct (Sql.update_error (wallets d) p buyInCents (- buyInCents)) eqn:Ea.
  - intro H. inversion H; subst. exists [], p, players.
    repeat split; try reflexivity; try congruence. cbn [List.length]. lia.
  - intro H. apply IH in H.
    destruct H as (done & failing & rest & Hp & Hw & Hf & Hl & Hlb & Hlp).
    exists (p :: done), failing, rest. subst players.
    split; [reflexivity|]. split; [exact Hw|]. split; [exact Hf|].
    split; [|split; assumption].
    rewrite Hl. unfold refunded. cbn [wallet_tx List.length]. rewrite length_app.
    cbn [List.length]. lia.
Qed.

End Refunding.

(** X29: refundMatch takes no notice of ended_at: on tables in which the match
    is already marked as ended it has the same outcome, uses the same uuids
    and has the same effect on wallets, ledger, lobbies and memberships as on
    the tables in which it is not. *)
Theorem X29_refunding_a_match_takes_no_notice_of_its_end
        (s : Tables) (u : nat) (matchId reason : string) (reveal : option (string * string)) :
  let before := Pg.run (SettlementService.refundMatch matchId reason) s u in
  let after := Pg.run (SettlementService.refundMatch matchId reason) (ended matchId reveal s) u in
  fst (fst after) = fst (fst before)
  /\ base (snd (fst after)) = base (snd (fst before))
  /\ snd after = snd before.
Proof.
  cbv zeta.
  assert (H : exists sa,
             Pg.run (SettlementService.refundMatch matchId reason) (ended matchId reveal s) u
             = (fst (fst (Pg.run (SettlementService.refundMatch matchId reason) s u)), sa,
                snd (Pg.run (SettlementService.refundMatch matchId reason) s u))
             /\ base sa
                = base (snd (fst (Pg.run (SettlementService.refundMatch matchId reason) s u)))).
  { rewrite !refundMatch_run.
    change (matches (ended matchId reveal s))
      with (map (Pg.end_match matchId reveal) (matches s)).
    change (base (ended matchId reveal s)) with (base s).
    rewrite filter_end_match.
    destruct (filter (Pg.match_is matchId) (matches s)) as [|matchData rest]; cbn [map].
    - eexists. split; reflexivity.
    - rewrite end_match_lobby.
      destruct (map buy_in_cents _) as [|buyInCents rest'].
      + eexists. split; reflexivity.
      + change (players_of (match_lobby_id matchData) (ended matchId reveal s))
          with (players_of (match_lobby_id matchData) s).
        destruct (refund_each _ buyInCents matchId (base s) u) as [[[[]|e] d] u'];
          eexists; split; reflexivity. }
  destruct H as (sa & H & Hb). rewrite H. cbn [fst snd].
  split; [reflexivity|]. split; [exact Hb | reflexivity].
Qed.

(** X30: A failed refundMatch leaves the tables matches and lobbies unchanged
    but keeps the refunds made before the failure: the wallets are those after
    refunding, in order, the lobby's players that precede the failing one,
    with one ledger row per refund. *)
Theorem X30_a_failed_refund_of_a_match_keeps_the_refunds_already_made
        (s : Tables) (u : nat) (matchId reason : string) (e : Error) (s' : Tables) (u' : nat) :
  Pg.run (SettlementService.refundMatch matchId reason) s u = (Err e, s', u') ->
  matches s' = matches s
  /\ lobbies (base s') = lobbies (base s)
  /\ (s' = s
      \/ exists matchData others buyInCents done failing rest,
           filter (Pg.match_is matchId) (matches s) = matchData :: others
           /\ players_of (match_lobby_id matchData) s = done ++ failing :: rest
           /\ wallets (base s') = refunds done buyInCents (wallets (base s))
           /\ List.length (wallet_tx (base s'))
              = (List.length (wallet_tx (base s)) + List.length done)%nat).
Proof.
  rewrite refundMatch_run.
  destruct (filter (Pg.match_is matchId) (matches s)) as [|matchData others].
  { intro H. inversion H. repeat split. left. reflexivity. }
  destruct (map buy_in_cents _) as [|buyInCents rest'].
  { intro H. inversion H. repeat split. left. reflexivity. }
  destruct (refund_each _ buyInCents matchId (base s) u) as [[[[]|e0] d] u0] eqn:E;
    [discriminate|].
  intro H. inversion H; subst. clear H.
  apply refund_each_failure in E.
  destruct E as (done & failing & rest & Hp & Hw & _ & Hl & Hlb & _).
  split; [reflexivity|]. split; [exact Hlb|].
  right. exists matchData, others, buyInCents, done, failing, rest.
  repeat split; assumption.
Qed.

Lemma X30_a_failed_refund_of_a_match_keeps_the_refunds_already_made_witness :
  exists s',
    Pg.run (SettlementService.refundMatch "match" "crash") half_refundable 7
      = (Err (QueryError "new row for relation wallets violates check constraint"), s', 8%nat)
    /\ wallets (base s') = [mkWallet "a" 500 0 2; mkWallet "b" 0 0 1]
    /\ matches s' = matches half_refundable
    /\ lobbies (base s') = lobbies (base half_refundable).
Proof.
  destruct (Pg.run (SettlementService.refundMatch "match" "crash") half_refundable 7)
    as [[r s'] u'] eqn:E.
  assert (Hr : r = Err (QueryError "new row for relation wallets violates check constraint")
               /\ u' = 8%nat
               /\ wallets (base s') = [mkWallet "a" 500 0 2; mkWallet "b" 0 0 1]).
  { apply (f_equal (fun x => (fst (fst x), snd x, wallets (base (snd (fst x)))))) in E.
    cbn [fst snd] in E. vm_compute in E. injection E as E1 E2 E3.
    repeat split; symmetry; assumption. }
  destruct Hr as (Hr & Hu & Hw). subst r u'.
  destruct (X30_a_failed_refund_of_a_match_keeps_the_refunds_already_made _ _ _ _ _ _ _ E)
    as (Hm & Hl & _).
  exists s'. repeat split; assumption.
Defined.
